(** * Host: sandbox lifecycle, log fan-out and path guard of server.js

    A shallow embedding of the bot-hosting server (Node.js 20, Express,
    dockerode, ws).  Definitions come first:

    - [Str], [Path]  the string methods and Node's POSIX [path.join] /
                [path.normalize] that the file endpoints rely on;
    - [Links]   what the operating system does with a path that crosses
                symbolic links;
    - [Server]  the in-memory registry [bots], the entry objects it shares with
                the log and exit callbacks, the WebSocket subscribers, and the
                asynchronous functions [startBot] / [stopBot] written in a small
                resumption monad whose [Await] nodes are the source's [await]s;
    - [Run]     how the outside settles the awaited operations: one call run
                alone ([exec]), and the event loop in which suspended requests,
                log chunks, container exits and sockets take turns ([step]);
    - [Props]   the vocabulary in which the properties are stated;
    - [Client]  the log console of the browser ([connectLogs] of index.jsx);
    - [Routes]  the delete route;
    - [MoreProps]  the vocabulary of the invariants of registry, sockets and
                callbacks;
    - [Files]   the bundle files as a directory tree (a disk without links),
                the ['utf8'] codec between texts and bytes, the routes that
                list, load and save the files, and the list of bots.

    The theorems follow: the path guard ([FileGuard]), the lifecycle of one
    request at a time ([Lifecycle]), the exit callback ([Callbacks]), the
    invariants of the event loop ([Invariants]), what a log socket receives
    ([Fanout]) and two starts at once ([Race]); then the console
    ([ClientFacts]), restarts and late failures ([RestartFacts]), deletion
    ([DeleteFacts]), what holds of registry and sockets at every moment
    ([RunInvariants]), the file routes ([FilesFacts]), the list of bots and
    the stop route ([ListFacts]), and the pairing of callbacks and containers
    ([Isolation]). *)

From Stdlib Require Import Ascii.
From stdpp Require Import base option list gmap strings.

(* ===================================================================== *)
(** * Strings                                                             *)
(* ===================================================================== *)

Module Str.

(** [s.startsWith(p)] *)
Fixpoint startsWith (s p : string) {struct p} : bool :=
  match p, s with
  | EmptyString, _ => true
  | String _ _, EmptyString => false
  | String a p', String b s' => if Ascii.eqb a b then startsWith s' p' else false
  end.

(** [s.endsWith(String.fromCharCode(c))] *)
Fixpoint endsWithChar (s : string) (c : ascii) : bool :=
  match s with
  | EmptyString => false
  | String a EmptyString => Ascii.eqb a c
  | String _ s' => endsWithChar s' c
  end.

(** [s.includes(String.fromCharCode(c))] *)
Fixpoint hasChar (c : ascii) (s : string) : bool :=
  match s with
  | EmptyString => false
  | String a s' => if Ascii.eqb a c then true else hasChar c s'
  end.

(** [s.split(String.fromCharCode(c))]: never empty, [''.split('/')] is [['']]. *)
Fixpoint split (c : ascii) (s : string) : list string :=
  match s with
  | EmptyString => [EmptyString]
  | String a s' =>
      if Ascii.eqb a c then EmptyString :: split c s'
      else match split c s' with
           | seg :: rest => String a seg :: rest
           | [] => [String a EmptyString]
           end
  end.

(** [segs.join(sep)] *)
Fixpoint join (sep : string) (segs : list string) : string :=
  match segs with
  | [] => EmptyString
  | [s] => s
  | s :: rest => s +:+ sep +:+ join sep rest
  end.

(** [s.slice(n)] *)
Fixpoint dropn (n : nat) (s : string) : string :=
  match n, s with
  | O, _ => s
  | S _, EmptyString => EmptyString
  | S n', String _ s' => dropn n' s'
  end.

(** [s.replace(pat, '')] with a string pattern: the first occurrence only. *)
Fixpoint removeFirst (pat s : string) : string :=
  if startsWith s pat then dropn (String.length pat) s
  else match s with
       | EmptyString => EmptyString
       | String a s' => String a (removeFirst pat s')
       end.

End Str.

(* ===================================================================== *)
(** * Node's [path] module, POSIX flavour                                 *)
(* ===================================================================== *)

Module Path.

Definition slash : ascii := "/"%char.

(** One step of [normalizeString]: what a finished segment does to the
    segments kept so far ([res], innermost first). *)
Definition pushSegment (allowAboveRoot : bool) (res : list string) (seg : string)
  : list string :=
  if decide (seg = "" ∨ seg = ".") then res
  else if decide (seg = "..") then
    match res with
    | last :: res' =>
        if decide (last = "..")
        then (if allowAboveRoot then ".." :: res else res)
        else res'
    | [] => if allowAboveRoot then [".."] else []
    end
  else seg :: res.

(** [normalizeString(path, allowAboveRoot, '/', isPosixPathSeparator)],
    as the list of segments of its result. *)
Definition normalizeSegments (allowAboveRoot : bool) (path : string) : list string :=
  rev (foldl (pushSegment allowAboveRoot) [] (Str.split slash path)).

Definition isAbsolute (path : string) : bool :=
  match path with
  | String a _ => Ascii.eqb a slash
  | EmptyString => false
  end.

(** [path.posix.normalize] *)
Definition normalize (path : string) : string :=
  match path with
  | EmptyString => "."
  | _ =>
      let isAbs := isAbsolute path in
      let trailingSeparator := Str.endsWithChar path slash in
      let p := Str.join "/" (normalizeSegments (negb isAbs) path) in
      match p with
      | EmptyString =>
          if isAbs then "/" else if trailingSeparator then "./" else "."
      | _ =>
          let p := if trailingSeparator then p +:+ "/" else p in
          if isAbs then "/" +:+ p else p
      end
  end.

(** The loop of [path.posix.join] that glues the non-empty arguments. *)
Fixpoint joinArgs (joined : option string) (args : list string) : option string :=
  match args with
  | [] => joined
  | arg :: rest =>
      match arg with
      | EmptyString => joinArgs joined rest
      | _ => joinArgs (Some (match joined with
                             | None => arg
                             | Some j => j +:+ "/" +:+ arg
                             end)) rest
      end
  end.

(** [path.posix.join(...args)] *)
Definition join (args : list string) : string :=
  match joinArgs None args with
  | None => "."
  | Some joined => normalize joined
  end.

(** A name without a slash, and a directory name as it appears inside a
    normalised path. *)
Definition noslash (seg : string) : Prop := Str.hasChar slash seg = false.

Definition plain (seg : string) : Prop :=
  noslash seg ∧ seg ≠ "" ∧ seg ≠ "." ∧ seg ≠ "..".

(** The absolute, normalised path with the given segments. *)
Definition absolute (segs : list string) : string := "/" +:+ Str.join "/" segs.

(** The segments a path string denotes once [.], [..] and repeated slashes are
    resolved textually (no symbolic link is followed). *)
Definition lexical (path : string) : list string :=
  normalizeSegments (negb (isAbsolute path)) path.

(** The path [path.join(DATA_DIR, id, rel)] glues before it normalises. *)
Definition requested (DATA_DIR id rel : string) : string :=
  DATA_DIR +:+ "/" +:+ id +:+ "/" +:+ rel.

End Path.

(* ===================================================================== *)
(** * Symbolic links                                                      *)
(* ===================================================================== *)

(** What [fs.readFile] and [fs.outputFile] reach when they are handed a path:
    the operating system follows the symbolic links it meets on the way. *)
Module Links.

(** The links of a disk: the segments of the link, the segments of its
    (absolute) target. *)
Definition Table : Type := list (list string * list string).

Definition target (links : Table) (p : list string) : option (list string) :=
  (λ hit, hit.2.2) <$> list_find (λ l, l.1 = p) links.

(** Walk [todo] below [seen], jumping to the target of every link met; the
    walk gives up after [fuel] steps, as the kernel does on a link loop. *)
Fixpoint follow (fuel : nat) (links : Table) (seen todo : list string) : list string :=
  match fuel, todo with
  | _, [] => seen
  | O, _ => seen ++ todo
  | S fuel', seg :: todo' =>
      match target links (seen ++ [seg]) with
      | Some t => follow fuel' links [] (t ++ todo')
      | None => follow fuel' links (seen ++ [seg]) todo'
      end
  end.

Definition realpath (links : Table) (segs : list string) : list string :=
  follow (40 + 40 * length segs) links [] segs.

(** The place a path string leads to on a disk with these links. *)
Definition reached (links : Table) (path : string) : list string :=
  realpath links (Path.lexical path).

End Links.

(* ===================================================================== *)
(** * The server                                                          *)
(* ===================================================================== *)

Module Server.

(** ** Values exchanged with the outside *)

(** A settled promise of the Docker client. *)
Inductive Reply (X : Type) : Type :=
| Resolved (x : X)
| Rejected (err : string).
Arguments Resolved {X} x.
Arguments Rejected {X} err.

(** What [JSON.parse(await fs.readFile(pkgPath, 'utf8'))] followed by the
    read of [pkg.main] gives: an exception (unreadable file, malformed JSON,
    [null] document), or the value of [main]: [None] when it is absent or
    falsy, [Some s] when it is truthy and prints as [s] in a template. *)
Inductive Manifest : Type :=
| ManifestThrows (err : string)
| ManifestMain (main : option string).

(** The part of the disk that [startBot] looks at. *)
Record FS : Type := mkFS {
  paths : gset string;
  manifests : gmap string Manifest
}.

Definition pathExists (fs : FS) (p : string) : bool := bool_decide (p ∈ paths fs).

Definition readManifest (fs : FS) (p : string) : Manifest :=
  match manifests fs !! p with
  | Some m => m
  | None => ManifestThrows "Error: cannot read manifest"
  end.

(** The argument of [docker.createContainer]. *)
Record CreateOptions : Type := mkCreateOptions {
  Image : string;
  Cmd : list string;
  Tty : bool;
  Binds : list string;
  AutoRemove : bool;
  NetworkMode : string;
  Memory : N;
  PidsLimit : N;
  WorkingDir : string;
  name : string
}.

(** The sandboxes the Docker daemon holds for this server.  The server never
    asks for the removal of a container, so this list only grows. *)
Inductive Status : Type := Created | Running | Exited.

Record Sandbox : Type := mkSandbox {
  sandboxId : string;
  options : CreateOptions;
  status : Status
}.

Definition setStatus (cid : string) (st : Status) (sb : Sandbox) : Sandbox :=
  if decide (sandboxId sb = cid) then mkSandbox (sandboxId sb) (options sb) st else sb.

(** ** The memory of the Node process *)

(** Messages written to a WebSocket (the JSON objects of [ws.send]). *)
Inductive Msg : Type :=
| MsgError (message : string)
| MsgHistory (logs : list string)
| MsgLog (message : string).

(** A WebSocket of the log endpoint: whether [send] still goes through, what
    was sent on it, and the entry object captured by its [onLog] and [close]
    closures. *)
Record Socket : Type := mkSocket {
  alive : bool;
  inbox : list Msg;
  captured : option nat
}.

(** An entry object [{ container, logs, listeners }].  [container] is the id
    of the dockerode handle; listeners are named by their socket.
    [appended] is a history variable, never read by the code: every line
    ever pushed onto [logs], evicted or not. *)
Record Entry : Type := mkEntry {
  container : option string;
  logs : list string;
  listeners : gset nat;
  appended : list string
}.

(** [bots] maps a bot id to a reference into [heap]: the same entry object is
    reachable from the map, from the ['data'] and [wait] callbacks of its
    container and from the sockets that subscribed to it.  [dataHandlers]
    and [waitHandlers] are those callbacks, filed under the id of the
    container whose stream or exit they wait for, with the entry (and bot id)
    they close over. *)
Record Mem : Type := mkMem {
  bots : gmap string nat;
  heap : list Entry;
  sockets : list Socket;
  dataHandlers : list (string * nat);
  waitHandlers : list (string * (nat * string));
  console : list string
}.

Record World : Type := mkWorld {
  mem : Mem;
  fs : FS;
  docker : list Sandbox
}.

Definition setMem (w : World) (m : Mem) : World := mkWorld m (fs w) (docker w).

(** ** Asynchronous functions *)

(** The operations the server awaits. *)
Inductive Op : Type → Type :=
| PathExists (p : string) : Op bool
| ReadManifest (p : string) : Op Manifest
| CreateContainer (o : CreateOptions) : Op (Reply string)
| ContainerStart (cid : string) : Op (Reply unit)
| ContainerLogs (cid : string) : Op (Reply unit)
| ContainerStop (cid : string) (t : nat) : Op (Reply unit).

(** An [async] function body: synchronous stretches over the process memory,
    separated by [await]s; it returns or throws. *)
Inductive Prog (R : Type) : Type :=
| Ret (r : R)
| Throw (err : string)
| Await {X : Type} (op : Op X) (k : X → Prog R)
| Sync {X : Type} (f : Mem → X * Mem) (k : X → Prog R).
Arguments Ret {R} r.
Arguments Throw {R} err.
Arguments Await {R X} op k.
Arguments Sync {R X} f k.

Fixpoint bind {A B : Type} (p : Prog A) (k : A → Prog B) : Prog B :=
  match p with
  | Ret r => k r
  | Throw e => Throw e
  | Await op k' => Await op (λ x, bind (k' x) k)
  | Sync f k' => Sync f (λ x, bind (k' x) k)
  end.

(** [try { p } catch (e) { h(e) }] *)
Fixpoint tryCatch {A : Type} (p : Prog A) (h : string → Prog A) : Prog A :=
  match p with
  | Ret r => Ret r
  | Throw e => h e
  | Await op k => Await op (λ x, tryCatch (k x) h)
  | Sync f k => Sync f (λ x, tryCatch (k x) h)
  end.

Definition await {X : Type} (op : Op X) : Prog X := Await op Ret.

(** [await] of a promise that may reject: the rejection is thrown. *)
Definition awaitReply {X : Type} (op : Op (Reply X)) : Prog X :=
  Await op (λ r, match r with Resolved x => Ret x | Rejected e => Throw e end).

Definition sync {X : Type} (f : Mem → X * Mem) : Prog X := Sync f Ret.
Definition read {X : Type} (f : Mem → X) : Prog X := sync (λ m, (f m, m)).
Definition update (f : Mem → Mem) : Prog unit := sync (λ m, (tt, f m)).

Global Instance prog_bind : MBind Prog := λ A B k p, bind p k.
Global Instance prog_ret : MRet Prog := λ A r, Ret r.

(** ** Field updates of the process memory *)

Definition setBots (f : gmap string nat → gmap string nat) (m : Mem) : Mem :=
  mkMem (f (bots m)) (heap m) (sockets m) (dataHandlers m) (waitHandlers m) (console m).
Definition setHeap (f : list Entry → list Entry) (m : Mem) : Mem :=
  mkMem (bots m) (f (heap m)) (sockets m) (dataHandlers m) (waitHandlers m) (console m).
Definition setSockets (f : list Socket → list Socket) (m : Mem) : Mem :=
  mkMem (bots m) (heap m) (f (sockets m)) (dataHandlers m) (waitHandlers m) (console m).
Definition setDataHandlers (f : list (string * nat) → list (string * nat)) (m : Mem) : Mem :=
  mkMem (bots m) (heap m) (sockets m) (f (dataHandlers m)) (waitHandlers m) (console m).
Definition setWaitHandlers
    (f : list (string * (nat * string)) → list (string * (nat * string))) (m : Mem) : Mem :=
  mkMem (bots m) (heap m) (sockets m) (dataHandlers m) (f (waitHandlers m)) (console m).
Definition setConsole (f : list string → list string) (m : Mem) : Mem :=
  mkMem (bots m) (heap m) (sockets m) (dataHandlers m) (waitHandlers m) (f (console m)).

(** [logs.push(msg)], followed by [after] (the eviction, if any). *)
Definition pushLog (msg : string) (after : list string → list string) (e : Entry)
  : Entry :=
  mkEntry (container e) (after (logs e ++ [msg])) (listeners e) (appended e ++ [msg]).
Definition setListeners (f : gset nat → gset nat) (e : Entry) : Entry :=
  mkEntry (container e) (logs e) (f (listeners e)) (appended e).

(** [bots.get(id)], dereferenced. *)
Definition lookupEntry (m : Mem) (id : string) : option Entry :=
  l ← bots m !! id; heap m !! l.

(** [bots.has(id) && bots.get(id).container], as the id of the handle. *)
Definition runningContainer (m : Mem) (id : string) : option string :=
  e ← lookupEntry m id; container e.

(** ** The log buffer and its listeners *)

Definition capacity : nat := 2000.
Definition replay : nat := 200.

(** [logs.slice(-n)] *)
Definition sliceLast {A : Type} (n : nat) (l : list A) : list A :=
  drop (length l - n) l.

(** [ws.send(JSON.stringify(msg))]; on a dead socket nothing goes out. *)
Definition send (msg : Msg) (s : Socket) : Socket :=
  if alive s then mkSocket true (inbox s ++ [msg]) (captured s) else s.

(** [for (const l of entry.listeners) { try { l(msg) } catch (e) {} }], where
    each [l] is the [onLog] closure of one socket. *)
Definition deliver (ls : gset nat) (msg : string) (socks : list Socket) : list Socket :=
  imap (λ ws s, if decide (ws ∈ ls) then send (MsgLog msg) s else s) socks.

Definition stamp (ts text : string) : string := "[" +:+ ts +:+ "] " +:+ text.

(** The ['data'] callback of a log stream; [l] is the entry it closes over,
    [ts] is [new Date().toISOString()]. *)
Definition onData (l : nat) (ts chunk : string) (m : Mem) : Mem :=
  match heap m !! l with
  | None => m
  | Some e =>
      let msg := stamp ts chunk in
      let shift logs := if decide (capacity < length logs) then tail logs else logs in
      setSockets (deliver (listeners e) msg)
        (setHeap (<[l := pushLog msg shift e]>) m)
  end.

(** The callback of [container.wait().then]; [res] is [JSON.stringify(res)]. *)
Definition onExited (l : nat) (id : string) (ts res : string) (m : Mem) : Mem :=
  match heap m !! l with
  | None => setBots (delete id) m
  | Some e =>
      let msg := stamp ts ("container exited " +:+ res) in
      setBots (delete id)
        (setSockets (deliver (listeners e) msg)
           (setHeap (<[l := pushLog msg (λ logs, logs) e]>) m))
  end.

(** [wss.on('connection')]; [botId] is [url.searchParams.get('botId')].  The
    new socket is the next one in [sockets]. *)
Definition onConnection (botId : option string) (m : Mem) : Mem :=
  match botId with
  | None | Some EmptyString =>
      setSockets (λ ss, ss ++ [mkSocket false [MsgError "Missing botId"] None]) m
  | Some botId =>
      let ws := length (sockets m) in
      match bots m !! botId with
      | None => setSockets (λ ss, ss ++ [mkSocket true [] None]) m
      | Some l =>
          match heap m !! l with
          | None => setSockets (λ ss, ss ++ [mkSocket true [] (Some l)]) m
          | Some e =>
              setHeap (<[l := setListeners (λ ls, ls ∪ {[ws]}) e]>)
                (setSockets
                   (λ ss, ss ++ [mkSocket true [MsgHistory (sliceLast replay (logs e))]
                                   (Some l)]) m)
          end
      end
  end.

(** [ws.on('close')] *)
Definition onClose (ws : nat) (m : Mem) : Mem :=
  match sockets m !! ws with
  | None => m
  | Some s =>
      let m' := setSockets (<[ws := mkSocket false (inbox s) (captured s)]>) m in
      match captured s with
      | None => m'
      | Some l =>
          match heap m' !! l with
          | None => m'
          | Some e => setHeap (<[l := setListeners (λ ls, ls ∖ {[ws]}) e]>) m'
          end
      end
  end.

(** The transport of a socket goes away before its [close] event is handled. *)
Definition onBroken (ws : nat) (m : Mem) : Mem :=
  match sockets m !! ws with
  | None => m
  | Some s => setSockets (<[ws := mkSocket false (inbox s) (captured s)]>) m
  end.

(** [GET /api/bots/:id/status] *)
Definition getStatus (m : Mem) (id : string) : bool * option string :=
  (bool_decide (is_Some (runningContainer m id)), runningContainer m id).

(** ** The code of server.js *)

Section Code.

(** [path.resolve('./data/bots')] and [process.env.SANDBOX_IMAGE]. *)
Variable DATA_DIR : string.
Variable SANDBOX_IMAGE : option string.

(** *** File endpoints, up to their first file-system call *)

Inductive FileOutcome : Type :=
| Status400 (error : string)
| FsAccess (filePath : string).

(** [GET /api/bots/:id/file]; [rel] is [req.query.path], [""] when absent. *)
Definition getFile (id rel : string) : FileOutcome :=
  if decide (rel = "") then Status400 "Missing file path"
  else
    let filePath := Path.join [DATA_DIR; id; rel] in
    if negb (Str.startsWith filePath (Path.join [DATA_DIR; id]))
    then Status400 "Invalid path"
    else FsAccess filePath.

(** [PUT /api/bots/:id/file]; [rel] is [req.body.path]. *)
Definition putFile (id rel : string) : FileOutcome :=
  if decide (rel = "") then Status400 "Missing file path"
  else
    let filePath := Path.join [DATA_DIR; id; rel] in
    if negb (Str.startsWith filePath (Path.join [DATA_DIR; id]))
    then Status400 "Invalid path"
    else FsAccess filePath.

(** *** startBot *)

Inductive StartResult : Type :=
| Started (containerId : string)
| AlreadyRunning (containerId : string).

Definition candidates : list string := ["index.js"; "app.js"; "server.js"].

Definition noEntryPoint : string :=
  "Error: No entry point found (index.js/app.js/server.js or package.json main)".

(** The [for (const c of candidates)] loop. *)
Fixpoint findCandidate (dir : string) (cs : list string) : Prog (option string) :=
  match cs with
  | [] => Ret None
  | c :: rest =>
      ex ← await (PathExists (Path.join [dir; c]));
      if ex : bool then Ret (Some ("/bot/" +:+ c)) else findCandidate dir rest
  end.

(** The [package.json] fallback. *)
Definition findMain (dir : string) : Prog (option string) :=
  let pkgPath := Path.join [dir; "package.json"] in
  ex ← await (PathExists pkgPath);
  if ex : bool then
    pkg ← await (ReadManifest pkgPath);
    match pkg with
    | ManifestThrows e => Throw e
    | ManifestMain (Some main) => Ret (Some ("/bot/" +:+ main))
    | ManifestMain None => Ret None
    end
  else Ret None.

(** The block under [// discover entry point]. *)
Definition discoverEntryPoint (dir : string) : Prog (option string) :=
  entryPoint ← findCandidate dir candidates;
  match entryPoint with
  | Some e => Ret (Some e)
  | None => findMain dir
  end.

(** What the resolver of the specification answers: a path relative to the
    bundle root, or not found; a manifest that cannot be read is kept apart. *)
Inductive Resolution : Type :=
| EntryFound (rel : string)
| EntryNotFound
| ManifestBroken (err : string).

(** The resolver in the words of the specification: the first of the
    conventional file names that exists at the bundle root, in the fixed order
    [index.js], [app.js], [server.js]; if none exists, the ["main"] field of
    the manifest at the root, if there is one. *)
Definition resolveSpec (fs : FS) (dir : string) : Resolution :=
  match list_find (λ c, pathExists fs (Path.join [dir; c]) = true)
          ["index.js"; "app.js"; "server.js"] with
  | Some (_, c) => EntryFound c
  | None =>
      if pathExists fs (Path.join [dir; "package.json"]) then
        match readManifest fs (Path.join [dir; "package.json"]) with
        | ManifestThrows e => ManifestBroken e
        | ManifestMain (Some main) => EntryFound main
        | ManifestMain None => EntryNotFound
        end
      else EntryNotFound
  end.

Definition image : string :=
  match SANDBOX_IMAGE with
  | Some (String a s) => String a s
  | _ => "node:20-slim"
  end.

Definition createOptions (id dir entryPoint : string) : CreateOptions :=
  {| Image := image;
     Cmd := ["node"; Str.removeFirst "/bot/" entryPoint];
     Tty := false;
     Binds := [dir +:+ ":/bot:rw"];
     AutoRemove := false;
     NetworkMode := "none";
     Memory := 256 * 1024 * 1024;
     PidsLimit := 100;
     WorkingDir := "/bot";
     name := "bot_" +:+ id |}.

(** [const entry = { container, logs: [], listeners: new Set() };
    bots.set(id, entry)] *)
Definition registerEntry (id cid : string) (m : Mem) : nat * Mem :=
  let l := length (heap m) in
  (l, setBots (<[id := l]>) (setHeap (λ h, h ++ [mkEntry (Some cid) [] ∅ []]) m)).

(** The blocks under [// create container], [// attach log stream] and
    [// cleanup on exit], up to the [return]. *)
Definition launch (id dir entryPoint : string) : Prog StartResult :=
  cid ← awaitReply (CreateContainer (createOptions id dir entryPoint));
  awaitReply (ContainerStart cid);;
  entry ← sync (registerEntry id cid);
  awaitReply (ContainerLogs cid);;
  update (setDataHandlers (λ hs, hs ++ [(cid, entry)]));;
  update (setWaitHandlers (λ hs, hs ++ [(cid, (entry, id))]));;
  Ret (Started cid).

Definition startBot (id : string) : Prog StartResult :=
  let dir := Path.join [DATA_DIR; id] in
  ex ← await (PathExists dir);
  if negb ex then Throw "Error: Bot not found"
  else
    running ← read (λ m, runningContainer m id);
    match running with
    | Some cid => Ret (AlreadyRunning cid)
    | None =>
        entryPoint ← discoverEntryPoint dir;
        match entryPoint with
        | None => Throw noEntryPoint
        | Some entryPoint => launch id dir entryPoint
        end
    end.

(** *** stopBot *)

Definition stopBot (id : string) : Prog unit :=
  running ← read (λ m, runningContainer m id);
  match running with
  | None => Ret tt
  | Some cid =>
      tryCatch (awaitReply (ContainerStop cid 5))
        (λ e, update (setConsole (λ c, c ++ ["stop err " +:+ e])));;
      update (setBots (delete id))
  end.

(** *** The lifecycle routes *)

Inductive Response : Type :=
| Json200 (result : option StartResult)
| Json500 (error : string).

Definition postStart (id : string) : Prog Response :=
  tryCatch (result ← startBot id; Ret (Json200 (Some result)))
    (λ err, Ret (Json500 err)).

Definition postStop (id : string) : Prog Response :=
  tryCatch (stopBot id;; Ret (Json200 None)) (λ err, Ret (Json500 err)).

Definition postRestart (id : string) : Prog Response :=
  tryCatch (stopBot id;; startBot id;; Ret (Json200 None)) (λ err, Ret (Json500 err)).

End Code.

End Server.

(* ===================================================================== *)
(** * Running the server                                                  *)
(* ===================================================================== *)

Module Run.
Import Server.

(** How the Docker daemon settles the calls of one request. *)
Record Adapter : Type := mkAdapter {
  createReply : Reply string;
  startReply : Reply unit;
  logsReply : Reply unit;
  stopReply : Reply unit
}.

Definition setDocker (f : list Sandbox → list Sandbox) (w : World) : World :=
  mkWorld (mem w) (fs w) (f (docker w)).

(** The value an awaited operation settles to, and what it did outside. *)
Definition answer {X : Type} (op : Op X) (ad : Adapter) (w : World) : X * World :=
  match op in Op X return X * World with
  | PathExists p => (pathExists (fs w) p, w)
  | ReadManifest p => (readManifest (fs w) p, w)
  | CreateContainer o =>
      match createReply ad with
      | Resolved cid => (Resolved cid, setDocker (λ d, d ++ [mkSandbox cid o Created]) w)
      | Rejected e => (Rejected e, w)
      end
  | ContainerStart cid =>
      match startReply ad with
      | Resolved _ => (Resolved tt, setDocker (map (setStatus cid Running)) w)
      | Rejected e => (Rejected e, w)
      end
  | ContainerLogs cid => (logsReply ad, w)
  | ContainerStop cid _ =>
      match stopReply ad with
      | Resolved _ => (Resolved tt, setDocker (map (setStatus cid Exited)) w)
      | Rejected e => (Rejected e, w)
      end
  end.

Inductive Outcome (R : Type) : Type :=
| Returned (r : R)
| Thrown (err : string).
Arguments Returned {R} r.
Arguments Thrown {R} err.

(** One call run from start to finish with nothing else in between. *)
Fixpoint exec {R : Type} (p : Prog R) (ad : Adapter) (w : World) : Outcome R * World :=
  match p with
  | Ret r => (Returned r, w)
  | Throw e => (Thrown e, w)
  | Await op k => let '(x, w') := answer op ad w in exec (k x) ad w'
  | Sync f k => let '(x, m') := f (mem w) in exec (k x) ad (setMem w m')
  end.

(** The synchronous stretch of a call up to its next [await]. *)
Fixpoint runSync {R : Type} (p : Prog R) (m : Mem) : Prog R * Mem :=
  match p with
  | Sync f k => let '(x, m') := f m in runSync (k x) m'
  | _ => (p, m)
  end.

(** The event loop: requests in flight are suspended at an [await]; one
    event is handled at a time. *)
Record Sys : Type := mkSys {
  world : World;
  tasks : list (Prog Response)
}.

Inductive Request : Type :=
| Start (id : string)
| Stop (id : string)
| Restart (id : string).

Inductive Event : Type :=
| Incoming (r : Request)
| Settle (task : nat) (ad : Adapter)
| Chunk (cid ts chunk : string)
| Exits (cid ts res : string)
| WaitFails (cid err : string)
| Connection (botId : option string)
| Close (ws : nat)
| Broken (ws : nat)
| Disk (fs' : FS).

Definition emptyMem : Mem := mkMem ∅ [] [] [] [] [].

Definition boot (disk : FS) : Sys := mkSys (mkWorld emptyMem disk []) [].

(** All ['data'] callbacks of the streams of container [cid]. *)
Definition fireData (cid ts chunk : string) (m : Mem) : Mem :=
  foldl (λ m h, if decide (h.1 = cid) then onData h.2 ts chunk m else m)
    m (dataHandlers m).

(** The [.catch] of a [wait] promise that rejects. *)
Definition fireWaitError (cid err : string) (m : Mem) : Mem :=
  setWaitHandlers (filter (λ h, h.1 ≠ cid))
    (foldl (λ m h, if decide (h.1 = cid)
                   then setConsole (λ c, c ++ ["wait err " +:+ err]) m else m)
       m (waitHandlers m)).

(** All [wait] callbacks of container [cid]; a promise settles once. *)
Definition fireExit (cid ts res : string) (m : Mem) : Mem :=
  setWaitHandlers (filter (λ h, h.1 ≠ cid))
    (foldl (λ m h, if decide (h.1 = cid) then onExited h.2.1 h.2.2 ts res m else m)
       m (waitHandlers m)).

Section Loop.

Variable DATA_DIR : string.
Variable SANDBOX_IMAGE : option string.

Definition handler (r : Request) : Prog Response :=
  match r with
  | Start id => postStart DATA_DIR SANDBOX_IMAGE id
  | Stop id => postStop id
  | Restart id => postRestart DATA_DIR SANDBOX_IMAGE id
  end.

Definition step (s : Sys) (ev : Event) : Sys :=
  let w := world s in
  match ev with
  | Incoming r =>
      let '(p, m) := runSync (handler r) (mem w) in
      mkSys (setMem w m) (tasks s ++ [p])
  | Settle t ad =>
      match tasks s !! t with
      | Some (Await op k) =>
          let '(x, w') := answer op ad w in
          let '(p, m) := runSync (k x) (mem w') in
          mkSys (setMem w' m) (<[t := p]> (tasks s))
      | _ => s
      end
  | Chunk cid ts chunk => mkSys (setMem w (fireData cid ts chunk (mem w))) (tasks s)
  | Exits cid ts res =>
      mkSys (setMem (setDocker (map (setStatus cid Exited)) w)
               (fireExit cid ts res (mem w))) (tasks s)
  | WaitFails cid err => mkSys (setMem w (fireWaitError cid err (mem w))) (tasks s)
  | Connection botId => mkSys (setMem w (onConnection botId (mem w))) (tasks s)
  | Close ws => mkSys (setMem w (onClose ws (mem w))) (tasks s)
  | Broken ws => mkSys (setMem w (onBroken ws (mem w))) (tasks s)
  | Disk fs' => mkSys (mkWorld (mem w) fs' (docker w)) (tasks s)
  end.

Definition run (s : Sys) (evs : list Event) : Sys := foldl step s evs.

End Loop.

End Run.

(* ===================================================================== *)
(** * Vocabulary of the properties                                        *)
(* ===================================================================== *)

Module Props.
Import Server Run.

(** The [containerId] field of what [startBot] returns. *)
Definition containerId (r : StartResult) : string :=
  match r with
  | Started cid => cid
  | AlreadyRunning cid => cid
  end.

(** A Docker daemon that grants every call of a request and names the
    container [cid]. *)
Definition grants (cid : string) : Adapter :=
  mkAdapter (Resolved cid) (Resolved tt) (Resolved tt) (Resolved tt).

(** The state of a bundle as the status route reports it. *)
Definition stopped (m : Mem) (id : string) : Prop := getStatus m id = (false, None).

(** The sandboxes the daemon holds under a name. *)
Definition sandboxesNamed (nm : string) (w : World) : list Sandbox :=
  filter (λ sb, name (options sb) = nm) (docker w).

(** The lines of an entry's buffer are the most recent ones ever pushed, and
    nothing was dropped before the buffer was full. *)
Definition bufferOk (e : Entry) : Prop :=
  ∃ dropped, appended e = dropped ++ logs e ∧ (dropped = [] ∨ capacity ≤ length (logs e)).

(** An entry as [startBot] creates it. *)
Definition freshEntry (e : Entry) : Prop :=
  logs e = [] ∧ appended e = [] ∧ listeners e = ∅.

(** A synchronous stretch that leaves the sockets and the existing entry
    objects alone; it may allocate fresh entries. *)
Definition tameSync {X : Type} (f : Mem → X * Mem) : Prop :=
  ∀ m, sockets (f m).2 = sockets m
       ∧ ∃ new, heap (f m).2 = heap m ++ new ∧ Forall freshEntry new.

Fixpoint tameProg {R : Type} (p : Prog R) : Prop :=
  match p with
  | Ret _ | Throw _ => True
  | Await _ k => ∀ x, tameProg (k x)
  | Sync f k => tameSync f ∧ ∀ x, tameProg (k x)
  end.

(** The listeners of an entry are among the first [n] sockets. *)
Definition listenersOk (n : nat) (e : Entry) : Prop :=
  ∀ ws, ws ∈ listeners e → ws < n.

Definition heapOk (m : Mem) : Prop :=
  Forall (λ e, bufferOk e ∧ listenersOk (length (sockets m)) e) (heap m).

(** What holds of the server at every moment: the requests in flight are
    tame, every buffer is a suffix of what was pushed onto it, and a listener
    is a socket that exists. *)
Definition wellFormed (s : Sys) : Prop :=
  Forall tameProg (tasks s) ∧ heapOk (mem (world s)).

(** How socket [ws] follows the log of an entry.  [from] is the entry it
    listens to, if any; it listens to no other.  Its inbox holds [hist] and
    then the lines [later], which are exactly the lines pushed onto that entry
    since it held [base]. *)
Definition follows (ws : nat) (from : option nat) (base : list string)
    (hist : list Msg) (later : list string) (m : Mem) : Prop :=
  (∃ sock, sockets m !! ws = Some sock
           ∧ inbox sock = hist ++ (MsgLog <$> later)
           ∧ (is_Some from → alive sock = true))
  ∧ (∀ l e, heap m !! l = Some e → ws ∈ listeners e → from = Some l)
  ∧ (∀ l, from = Some l →
       ∃ e, heap m !! l = Some e ∧ ws ∈ listeners e ∧ appended e = base ++ later).

(** A Docker daemon that rejects [createContainer] with error [e]. *)
Definition refuses (e : string) : Adapter :=
  mkAdapter (Rejected e) (Resolved tt) (Resolved tt) (Resolved tt).

(** The start route once its entry point is known: suspended at
    [docker.createContainer]. *)
Definition atCreate (DATA_DIR : string) (IMG : option string) (id entryPoint : string)
  : Prog Response :=
  tryCatch
    (result ← launch IMG id (Path.join [DATA_DIR; id]) entryPoint;
     Ret (Json200 (Some result)))
    (λ err, Ret (Json500 err)).

(** Whether a suspended request waits for [docker.createContainer] to make a
    container of the given name. *)
Definition creating {R : Type} (nm : string) (p : Prog R) : bool :=
  match p with
  | Await (CreateContainer o) _ => bool_decide (name o = nm)
  | _ => false
  end.

Definition pendingCreates (nm : string) (s : Sys) : nat :=
  length (filter (λ p, creating nm p = true) (tasks s)).

(** What a finished request answered, if it has finished. *)
Definition answered {R : Type} (p : Prog R) : option R :=
  match p with
  | Ret r => Some r
  | _ => None
  end.

(** A disk with a bundle [b1] that has an [index.js], a bundle [b2] without
    entry point and a bundle [b3] whose manifest names [bot.js]. *)
Definition sampleDisk : FS :=
  mkFS {[ "/srv/data/bots/b1"; "/srv/data/bots/b1/index.js"; "/srv/data/bots/b2";
          "/srv/data/bots/b3"; "/srv/data/bots/b3/package.json" ]}
       {[ "/srv/data/bots/b3/package.json" := ManifestMain (Some "bot.js") ]}.

Definition sampleWorld : World := mkWorld emptyMem sampleDisk [].

(** The server after it has started [b1] as container [c1] and a log socket
    has connected to it. *)
Definition sampleRunning : Sys :=
  run "/srv/data/bots" None (boot sampleDisk)
    [Incoming (Start "b1"); Settle 0 (grants "c1"); Settle 0 (grants "c1");
     Settle 0 (grants "c1"); Settle 0 (grants "c1"); Settle 0 (grants "c1");
     Connection (Some "b1")].

(** The events of the lifecycle routes. *)
Definition lifecycleEvent (ev : Event) : Prop :=
  match ev with
  | Incoming _ | Settle _ _ => True
  | _ => False
  end.

End Props.

(* ===================================================================== *)
(** * The log console of the browser (index.jsx)                          *)
(* ===================================================================== *)

Module Client.
Import Server.

(** The console keeps the last 1000 lines: [.slice(-1000)]. *)
Definition window : nat := 1000.

(** [ws.onopen = () => setLogs([])] *)
Definition onOpen (prev : list string) : list string := [].

(** [ws.onmessage]; [data] is [JSON.parse(ev.data)], [None] when it throws
    (the [catch] drops the message).  An object of another type than
    ['history'] or ['log'] changes nothing. *)
Definition onMessage (data : option Msg) (prev : list string) : list string :=
  match data with
  | Some (MsgHistory logs) => sliceLast window (prev ++ logs)
  | Some (MsgLog message) => sliceLast window (prev ++ [message])
  | Some (MsgError _) => prev
  | None => prev
  end.

(** The console after the socket opened and delivered [msgs]. *)
Definition console (msgs : list (option Msg)) : list string :=
  foldl (λ logs data, onMessage data logs) (onOpen []) msgs.

(** The log lines a message carries. *)
Definition linesOf (data : option Msg) : list string :=
  match data with
  | Some (MsgHistory logs) => logs
  | Some (MsgLog message) => [message]
  | _ => []
  end.

End Client.

(* ===================================================================== *)
(** * The delete route                                                    *)
(* ===================================================================== *)

Module Routes.
Import Server Run.

(** What becomes of a request whose handler has no [try]: it is answered, or
    the promise of the handler rejects. *)
Inductive Served : Type :=
| Answered (r : Response)
| Unhandled (err : string).

(** [p] is [dir] or lies below it, read on the segments of both. *)
Definition under (dir p : string) : Prop :=
  Path.lexical dir `prefix_of` Path.lexical p.

Global Instance under_dec dir p : Decision (under dir p).
Proof. unfold under. apply _. Defined.

(** [fs.remove(dir)]: the directory goes with all that is below it; a
    directory that does not exist is no error. *)
Definition removeTree (dir : string) (disk : FS) : FS :=
  mkFS (filter (λ p, ¬ under dir p) (paths disk))
       (filter (λ entry, ¬ under dir entry.1) (manifests disk)).

Section Code.

Variable DATA_DIR : string.

(** [app.delete('/api/bots/:id')], run alone. *)
Definition deleteBot (id : string) (ad : Adapter) (w : World) : Served * World :=
  let stop :=
    if bool_decide (is_Some (bots (mem w) !! id))
    then exec (stopBot id) ad w
    else (Returned tt, w) in
  match stop with
  | (Thrown err, w1) => (Unhandled err, w1)
  | (Returned _, w1) =>
      let dir := Path.join [DATA_DIR; id] in
      (Answered (Json200 None), mkWorld (mem w1) (removeTree dir (fs w1)) (docker w1))
  end.

End Code.

End Routes.

(* ===================================================================== *)
(** * More vocabulary                                                     *)
(* ===================================================================== *)

Module MoreProps.
Import Server Run Props.

(** Every id of the registry leads to an entry object that holds a
    container. *)
Definition registryOk (m : Mem) : Prop :=
  ∀ id l, bots m !! id = Some l → ∃ e, heap m !! l = Some e ∧ is_Some (container e).

(** A synchronous stretch, and a request, that keep the registry so. *)
Definition tidySync {X : Type} (f : Mem → X * Mem) : Prop :=
  ∀ m, registryOk m → registryOk (f m).2.

Fixpoint tidyProg {R : Type} (p : Prog R) : Prop :=
  match p with
  | Ret _ | Throw _ => True
  | Await _ k => ∀ x, tidyProg (k x)
  | Sync f k => tidySync f ∧ ∀ x, tidyProg (k x)
  end.

(** What a log socket was sent so far: nothing, or the refusal alone, or one
    history of at most 200 lines followed by log messages only. *)
Definition refused (sock : Socket) : Prop :=
  inbox sock = [MsgError "Missing botId"] ∧ alive sock = false ∧ captured sock = None.

Definition replayed (sock : Socket) : Prop :=
  ∃ history later,
    inbox sock = MsgHistory history :: (MsgLog <$> later) ∧ length history ≤ replay.

Definition inboxShape (sock : Socket) : Prop :=
  inbox sock = [] ∨ refused sock ∨ replayed sock.

(** The listeners of an entry are sockets that captured this entry when they
    connected, and were sent its history then. *)
Definition listenersCaptured (m : Mem) : Prop :=
  ∀ l e ws, heap m !! l = Some e → ws ∈ listeners e →
    ∃ sock, sockets m !! ws = Some sock ∧ captured sock = Some l ∧ replayed sock.

Definition socketsOk (m : Mem) : Prop :=
  Forall inboxShape (sockets m) ∧ listenersCaptured m.

(** Entry [l] is an entry object of container [cid]. *)
Definition entryOf (m : Mem) (l : nat) (cid : string) : Prop :=
  ∃ e, heap m !! l = Some e ∧ container e = Some cid.

(** The callbacks filed under a container close over an entry object of that
    container. *)
Definition handlersOk (m : Mem) : Prop :=
  (∀ cid l, (cid, l) ∈ dataHandlers m → entryOf m l cid)
  ∧ (∀ cid l id, (cid, (l, id)) ∈ waitHandlers m → entryOf m l cid).

(** The entry objects of [m] are still there in [m'], each with its
    container. *)
Definition grows (m m' : Mem) : Prop := ∀ l cid, entryOf m l cid → entryOf m' l cid.

(** From [m] to [m'] no entry object lost its container and no callback was
    installed. *)
Definition calm (m m' : Mem) : Prop :=
  grows m m' ∧ dataHandlers m' ⊆ dataHandlers m ∧ waitHandlers m' ⊆ waitHandlers m.

(** A request that, resumed in whatever memory has grown out of [m],
    installs callbacks only for entry objects of their container; [post]
    holds of what it returns. *)
Fixpoint installsOk {R : Type} (post : R → Mem → Prop) (p : Prog R) (m : Mem) : Prop :=
  match p with
  | Ret r => post r m
  | Throw _ => True
  | Await _ k => ∀ x m', grows m m' → installsOk post (k x) m'
  | Sync f k =>
      ∀ m', grows m m' → handlersOk m' →
        handlersOk (f m').2 ∧ grows m' (f m').2 ∧ installsOk post (k (f m').1) (f m').2
  end.

(** Every way the request can still go ends in an answer that is [good]; it
    cannot end in an exception. *)
Fixpoint answersOnly {R : Type} (good : R → Prop) (p : Prog R) : Prop :=
  match p with
  | Ret r => good r
  | Throw _ => False
  | Await _ k => ∀ x, answersOnly good (k x)
  | Sync _ k => ∀ x, answersOnly good (k x)
  end.

End MoreProps.

(* ===================================================================== *)
(** * The bundle files on disk                                            *)
(* ===================================================================== *)

Module Files.
Import Server.

Local Set Warnings "-register-all".

(** A disk without links, as a directory tree: the content of a file is
    its bytes, an entry of a directory is a name and what the name leads to,
    in the order of [fs.readdir].  The paths handed to [fs] are absolute and
    normalised: they come out of [path.join] on [DATA_DIR].  On such a disk
    a path leads where its segments say, and a file has one name.  What
    [fs] does at a symbolic link, or to the other names of a file that has
    several, is not described here: everything below is about disks that
    hold neither. *)
Inductive Node : Type :=
| File (content : string)
| Dir (entries : list (string * Node)).

(** A JavaScript string, as its UTF-16 code units: the [content] of the
    save request and of the load answer.  The bytes of a file are a
    [string], one character a byte. *)
Definition Text : Type := list N.

(** The entry of a directory under a name. *)
Fixpoint child (name : string) (entries : list (string * Node)) : option Node :=
  match entries with
  | [] => None
  | (n, c) :: rest => if decide (n = name) then Some c else child name rest
  end.

(** Put [new] under [name]: in place of the entry of that name, or as a new
    entry. *)
Fixpoint setChild (name : string) (new : Node) (entries : list (string * Node))
  : list (string * Node) :=
  match entries with
  | [] => [(name, new)]
  | (n, c) :: rest =>
      if decide (n = name) then (name, new) :: rest else (n, c) :: setChild name new rest
  end.

(** How a call of [fs] fails. *)
Inductive Failure : Type := ENOENT | ENOTDIR | EISDIR | EEXIST | InvalidArgType.

Inductive Try (A : Type) : Type :=
| Done (a : A)
| Failed (err : Failure).
Arguments Done {A} a.
Arguments Failed {A} err.

(** What the segments lead to, from the root of the disk. *)
Fixpoint find (segs : list string) (n : Node) : option Node :=
  match segs with
  | [] => Some n
  | s :: rest =>
      match n with
      | Dir entries => c ← child s entries; find rest c
      | File _ => None
      end
  end.

(** What an absolute path leads to ([fs.stat], [fs.access]); a path that
    ends in a slash does not lead to a file. *)
Definition locate (root : Node) (p : string) : option Node :=
  n ← find (Path.lexical p) root;
  match n with
  | File _ => if Str.endsWithChar p Path.slash then None else Some n
  | Dir _ => Some n
  end.

Definition pathExists (root : Node) (p : string) : bool := bool_decide (is_Some (locate root p)).

Section Codec.

(** The ['utf8'] codec of Node: [Buffer.from(text, 'utf8')], which writes a
    lone surrogate as the bytes of U+FFFD, and [buffer.toString('utf8')],
    which reads every ill-formed sequence as U+FFFD. *)
Variable utf8Encode : Text → string.
Variable utf8Decode : string → Text.

(** [fs.readFile(p, 'utf8')]: the bytes of the file, decoded. *)
Definition readFile (root : Node) (p : string) : Try Text :=
  match locate root p with
  | Some (File content) => Done (utf8Decode content)
  | Some (Dir _) => Failed EISDIR
  | None => Failed ENOENT
  end.

(** [fs.mkdirs(dir)], on the segments of [dir]: the directories that are
    missing on the way are made; a file on the way is an error. *)
Fixpoint mkdirs (segs : list string) (n : Node) : Try Node :=
  match n with
  | File _ => Failed (match segs with [] => EEXIST | _ => ENOTDIR end)
  | Dir entries =>
      match segs with
      | [] => Done n
      | s :: rest =>
          match mkdirs rest (default (Dir []) (child s entries)) with
          | Done c => Done (Dir (setChild s c entries))
          | Failed err => Failed err
          end
      end
  end.

(** [fs.writeFile] on the segments of the file, with the bytes to write:
    the directory of the file must be there, and the file must not be a
    directory. *)
Fixpoint writeAt (segs : list string) (text : string) (n : Node) : Try Node :=
  match n with
  | File _ => Failed ENOTDIR
  | Dir entries =>
      match segs with
      | [] => Failed EISDIR
      | [s] =>
          match child s entries with
          | Some (Dir _) => Failed EISDIR
          | _ => Done (Dir (setChild s (File text) entries))
          end
      | s :: rest =>
          match child s entries with
          | None => Failed ENOENT
          | Some c =>
              match writeAt rest text c with
              | Done c' => Done (Dir (setChild s c' entries))
              | Failed err => Failed err
              end
          end
      end
  end.

(** A path that ends in a slash names a directory: it cannot be opened for
    writing, whether it is there ([EISDIR], or [ENOTDIR] for a file) or
    not. *)
Definition writeFile (file text : string) (root : Node) : Try Node :=
  if Str.endsWithChar file Path.slash then
    Failed (match find (Path.lexical file) root with Some (File _) => ENOTDIR | _ => EISDIR end)
  else writeAt (Path.lexical file) text root.

(** [fs.outputFile(file, data, 'utf8')] of fs-extra: make the directory of
    the file unless it exists, then write the text, encoded.  [data] is
    [None] when it is not a string, which [fs.writeFile] refuses. *)
Definition outputFile (file : string) (data : option Text) (root : Node)
  : Try unit * Node :=
  let dir := removelast (Path.lexical file) in
  match (if bool_decide (is_Some (find dir root)) then Done root else mkdirs dir root) with
  | Failed err => (Failed err, root)
  | Done root1 =>
      match data with
      | None => (Failed InvalidArgType, root1)
      | Some text =>
          match writeFile file (utf8Encode text) root1 with
          | Done root2 => (Done tt, root2)
          | Failed err => (Failed err, root1)
          end
      end
  end.

End Codec.

(** [path.relative(from, to)] for absolute paths: [..] for every segment of
    [from] that [to] does not share, then what is left of [to]. *)
Fixpoint relativeSegments (from to : list string) : list string :=
  match from, to with
  | f :: from', t :: to' =>
      if decide (f = t) then relativeSegments from' to'
      else replicate (length from) ".." ++ to
  | _, _ => replicate (length from) ".." ++ to
  end.

Definition relative (from to : string) : string :=
  Str.join "/" (relativeSegments (Path.lexical from) (Path.lexical to)).

(** One element of the answer of [GET /api/bots/:id/files], and of
    [listBots]. *)
Record FileInfo : Type := mkFileInfo { path : string; size : nat }.

Record BotInfo : Type := mkBotInfo { id : string; botPath : string; running : bool }.

(** How a route without [try] ends: with an answer, or with a rejected
    promise that nothing handles. *)
Inductive Answer (A : Type) : Type :=
| Ok200 (body : A)
| Status (code : nat) (error : string)
| Rejects (err : Failure).
Arguments Ok200 {A} body.
Arguments Status {A} code error.
Arguments Rejects {A} err.

Section Code.

Variable DATA_DIR : string.

(** [mime.lookup] of mime-types. *)
Variable mimeLookup : string → option string.

(** The ['utf8'] codec, as above. *)
Variable utf8Encode : Text → string.
Variable utf8Decode : string → Text.

(** The body of the loop of [walk] for the entry at [full], which [fs.stat]
    shows as [node]: a file is pushed with the number of its bytes as
    [size], a directory is walked. *)
Fixpoint visit (dir full : string) (node : Node) : list FileInfo :=
  match node with
  | File content => [mkFileInfo (relative dir full) (String.length content)]
  | Dir entries =>
      flat_map (λ e, let '(name, c) := e in visit dir (Path.join [full; name]) c) entries
  end.

(** [walk(base)], where [entries] is what [fs.readdir(base)] gives. *)
Definition walk (dir base : string) (entries : list (string * Node)) : list FileInfo :=
  flat_map (λ e, let '(name, c) := e in visit dir (Path.join [base; name]) c) entries.

(** [GET /api/bots/:id/files] *)
Definition getFiles (id : string) (root : Node) : Answer (list FileInfo) :=
  let dir := Path.join [DATA_DIR; id] in
  match locate root dir with
  | None => Status 404 "Bot not found"
  | Some (File _) => Rejects ENOTDIR
  | Some (Dir entries) => Ok200 (walk dir dir entries)
  end.

Definition mimeOf (filePath : string) : string :=
  match mimeLookup filePath with
  | Some (String a s) => String a s
  | _ => "text/plain"
  end.

(** [GET /api/bots/:id/file]; the answer is the content and the mime type. *)
Definition getFileRoute (id rel : string) (root : Node) : Answer (Text * string) :=
  match getFile DATA_DIR id rel with
  | Status400 error => Status 400 error
  | FsAccess filePath =>
      if negb (pathExists root filePath) then Status 404 "File not found"
      else
        match readFile utf8Decode root filePath with
        | Done content => Ok200 (content, mimeOf filePath)
        | Failed err => Rejects err
        end
  end.

(** [PUT /api/bots/:id/file]; [content] is [req.body.content] when it is a
    string. *)
Definition putFileRoute (id rel : string) (content : option Text) (root : Node)
  : Answer unit * Node :=
  match putFile DATA_DIR id rel with
  | Status400 error => (Status 400 error, root)
  | FsAccess filePath =>
      match outputFile utf8Encode filePath content root with
      | (Done _, root') => (Ok200 tt, root')
      | (Failed err, root') => (Rejects err, root')
      end
  end.

(** [listBots] and [GET /api/bots]. *)
Definition listBots (m : Mem) (root : Node) : Try (list BotInfo) :=
  match locate root DATA_DIR with
  | Some (Dir entries) =>
      Done
        (flat_map
           (λ e, match e.2 with
                 | Dir _ =>
                     [mkBotInfo e.1 (Path.join [DATA_DIR; e.1])
                        (bool_decide (is_Some (runningContainer m e.1)))]
                 | File _ => []
                 end) entries)
  | Some (File _) => Failed ENOTDIR
  | None => Failed ENOENT
  end.

Definition getBots (m : Mem) (root : Node) : Answer (list BotInfo) :=
  match listBots m root with
  | Done list => Ok200 list
  | Failed err => Rejects err
  end.

End Code.

(** Every path of the tree, as segments, with what it leads to. *)
Fixpoint below (prefix : list string) (n : Node) : list (list string * Node) :=
  (prefix, n) ::
  match n with
  | File _ => []
  | Dir entries =>
      flat_map (λ e, let '(name, c) := e in below (prefix ++ [name]) c) entries
  end.

(** The disk as [startBot] looks at it: the paths that exist, and for every
    file what [JSON.parse] and the read of [main] would make of its bytes,
    read with ['utf8']. *)
Definition view (parseManifest : string → Manifest) (root : Node) : FS :=
  mkFS (list_to_set ((λ e, Path.absolute e.1) <$> below [] root))
       (list_to_map
          (omap (λ e, match e.2 with
                      | File content => Some (Path.absolute e.1, parseManifest content)
                      | Dir _ => None
                      end) (below [] root))).

(** The names of the entries of a directory are plain and differ, all the
    way down. *)
Inductive wf : Node → Prop :=
| wf_File content : wf (File content)
| wf_Dir entries :
    NoDup entries.*1 → Forall (λ e, Path.plain e.1 ∧ wf e.2) entries → wf (Dir entries).

(** The codec on ASCII text, which is all that the samples hold: a code
    unit below 128 is one byte, and back. *)
Definition asciiEncode (text : Text) : string :=
  String.string_of_list_ascii (Ascii.ascii_of_N <$> text).
Definition asciiDecode (bytes : string) : Text :=
  Ascii.N_of_ascii <$> String.list_ascii_of_string bytes.

(** A disk that holds the bundle [b1] of [/srv/data/bots]. *)
Definition sampleTree : Node :=
  Dir [("srv", Dir [("data", Dir [("bots", Dir [
    ("b1", Dir [("index.js", File "console.log(1)");
                ("src", Dir [("util.js", File "exports.x = 1")])]);
    ("notes.txt", File "keep")])])])].

End Files.

(* ===================================================================== *)
(** * Facts about strings and paths                                       *)
(* ===================================================================== *)

Module StrFacts.
Import Str.

Lemma sapp_cons a s t : String a s +:+ t = String a (s +:+ t).
Proof. reflexivity. Qed.

Lemma sapp_nil_l t : "" +:+ t = t.
Proof. reflexivity. Qed.

Lemma sapp_nil_r s : s +:+ "" = s.
Proof. induction s as [|a s IH]; [done|]. by rewrite sapp_cons, IH. Qed.

Lemma sapp_assoc s t u : (s +:+ t) +:+ u = s +:+ t +:+ u.
Proof. induction s as [|a s IH]; [done|]. by rewrite !sapp_cons, IH. Qed.

Lemma eqb_refl a : Ascii.eqb a a = true.
Proof. by apply Ascii.eqb_eq. Qed.

Lemma startsWith_cons b s a p :
  startsWith (String b s) (String a p) = if Ascii.eqb a b then startsWith s p else false.
Proof. reflexivity. Qed.

Lemma hasChar_cons c a s :
  hasChar c (String a s) = if Ascii.eqb a c then true else hasChar c s.
Proof. reflexivity. Qed.

Lemma startsWith_app s t : startsWith (s +:+ t) s = true.
Proof.
  induction s as [|a s IH]; [by destruct t|].
  rewrite sapp_cons. simpl. by rewrite eqb_refl.
Qed.

Lemma startsWith_app_l s t p :
  startsWith s p = true → startsWith (s +:+ t) p = true.
Proof.
  revert s. induction p as [|a p IH]; intros s; [reflexivity|].
  destruct s as [|b s]; [done|].
  rewrite sapp_cons. simpl. destruct (Ascii.eqb a b); [apply IH | done].
Qed.

Lemma startsWith_spec s p : startsWith s p = true ↔ ∃ t, s = p +:+ t.
Proof.
  split.
  - revert s. induction p as [|a p IH]; intros s H.
    + by exists s.
    + destruct s as [|b s]; [done|]. simpl in H.
      destruct (Ascii.eqb a b) eqn:E; [|done].
      apply Ascii.eqb_eq in E as ->. destruct (IH _ H) as [t ->]. by exists t.
  - intros [t ->]. apply startsWith_app.
Qed.

Lemma split_nonempty c s : split c s ≠ [].
Proof.
  destruct s as [|a s]; [done|]. simpl.
  destruct (Ascii.eqb a c); [done|]. by destruct (split c s).
Qed.

Lemma split_app c a b : split c (a +:+ String c b) = split c a ++ split c b.
Proof.
  induction a as [|x a IH].
  - rewrite sapp_nil_l. simpl. by rewrite eqb_refl.
  - rewrite sapp_cons. simpl. destruct (Ascii.eqb x c); [by rewrite IH|].
    rewrite IH. pose proof (split_nonempty c a). by destruct (split c a).
Qed.

Lemma split_plain c s : hasChar c s = false → split c s = [s].
Proof.
  induction s as [|a s IH]; [done|]. simpl.
  destruct (Ascii.eqb a c); [done|]. intros H. by rewrite IH.
Qed.

Lemma split_hasChar c s : Forall (λ seg, hasChar c seg = false) (split c s).
Proof.
  induction s as [|a s IH]; simpl; [by repeat constructor|].
  destruct (Ascii.eqb a c) eqn:E; [by constructor|].
  destruct (split c s) as [|seg rest]; [by repeat constructor; simpl; rewrite E|].
  inversion IH; subst. constructor; [simpl; by rewrite E | done].
Qed.

Lemma join_cons sep s rest :
  rest ≠ [] → join sep (s :: rest) = s +:+ sep +:+ join sep rest.
Proof. by destruct rest. Qed.

Lemma join_app sep l1 l2 :
  l1 ≠ [] → l2 ≠ [] → join sep (l1 ++ l2) = join sep l1 +:+ sep +:+ join sep l2.
Proof.
  induction l1 as [|s l1 IH]; [done|]. intros _ H2.
  destruct l1 as [|s' l1].
  - simpl app. by rewrite join_cons.
  - rewrite <- app_comm_cons. rewrite join_cons by done.
    rewrite IH by done. rewrite (join_cons _ s) by done.
    by rewrite !sapp_assoc.
Qed.

Lemma split_join c segs :
  segs ≠ [] → Forall (λ seg, hasChar c seg = false) segs →
  split c (join (String c "") segs) = segs.
Proof.
  induction segs as [|s segs IH]; [done|]. intros _ H.
  inversion H as [|? ? Hs Hrest]; subst.
  destruct segs as [|s' segs]; [by apply split_plain|].
  rewrite join_cons by done. rewrite sapp_cons, sapp_nil_l.
  rewrite split_app, split_plain by done. by rewrite IH.
Qed.

Lemma endsWithChar_app_plain c s t :
  t ≠ "" → hasChar c t = false → endsWithChar (s +:+ t) c = false.
Proof.
  intros Ht Hc. induction s as [|a s IH].
  - rewrite sapp_nil_l. induction t as [|b t IHt]; [done|].
    simpl in Hc. destruct (Ascii.eqb b c) eqn:E; [done|].
    destruct t as [|b' t]; [done|]. simpl. simpl in IHt. by apply IHt.
  - rewrite sapp_cons. simpl. destruct (s +:+ t) eqn:E; [|done].
    destruct s; [|done]. by rewrite sapp_nil_l in E.
Qed.

Lemma removeFirst_prefix pat s : removeFirst pat (pat +:+ s) = s.
Proof.
  assert (H : ∀ u, dropn (String.length pat) (pat +:+ u) = u).
  { induction pat as [|a p IH]; intros u; [done|]. rewrite sapp_cons. apply IH. }
  destruct (pat +:+ s) eqn:E.
  - destruct pat; [|done]. rewrite sapp_nil_l in E. by subst.
  - unfold removeFirst. fold removeFirst. rewrite <- E, startsWith_app. apply H.
Qed.

End StrFacts.

Module PathFacts.
Import Str StrFacts Path.

(** The examples of the Node.js documentation. *)
Example join_doc :
  Path.join ["/foo"; "bar"; "baz/asdf"; "quux"; ".."] = "/foo/bar/baz/asdf".
Proof. reflexivity. Qed.

Example normalize_doc :
  normalize "/foo/bar//baz/asdf/quux/.." = "/foo/bar/baz/asdf".
Proof. reflexivity. Qed.

Example normalize_relative :
  normalize "../a/./b/../../../c/" = "../../c/" ∧ normalize "a/.." = "."
  ∧ normalize "/.." = "/" ∧ Path.join [""; ""] = ".".
Proof. by split_and!. Qed.

Example removeFirst_entry : removeFirst "/bot/" "/bot/src/bot/main.js" = "src/bot/main.js".
Proof. reflexivity. Qed.

Lemma plain_noslash segs : Forall plain segs → Forall noslash segs.
Proof. intros H. eapply Forall_impl; [done|]. by intros ? [? _]. Qed.

Lemma pushSegment_plain b res seg : plain seg → pushSegment b res seg = seg :: res.
Proof.
  intros (_ & H1 & H2 & H3). unfold pushSegment.
  destruct (decide (seg = "" ∨ seg = ".")) as [[?|?]|_]; [done..|].
  by destruct (decide (seg = "..")).
Qed.

Lemma foldl_push_plain b res segs :
  Forall plain segs → foldl (pushSegment b) res segs = rev segs ++ res.
Proof.
  revert res. induction segs as [|s segs IH]; intros res H; [done|].
  inversion H; subst. simpl. rewrite pushSegment_plain, IH by done.
  by rewrite <- app_assoc.
Qed.

Lemma pushSegment_noslash b res seg :
  Forall noslash res → noslash seg → Forall noslash (pushSegment b res seg).
Proof.
  intros Hres Hseg. unfold pushSegment.
  destruct (decide (seg = "" ∨ seg = ".")); [done|].
  destruct (decide (seg = "..")); [|by constructor].
  destruct res as [|last res]; [by destruct b; repeat constructor|].
  destruct (decide (last = "..")); [destruct b; [by constructor|done]|].
  by inversion Hres.
Qed.

Lemma foldl_push_noslash b res segs :
  Forall noslash res → Forall noslash segs →
  Forall noslash (foldl (pushSegment b) res segs).
Proof.
  revert res. induction segs as [|s segs IH]; intros res Hres H; [done|].
  inversion H; subst. simpl. apply IH; [|done]. by apply pushSegment_noslash.
Qed.

(** Splitting an absolute normalised path gives an empty first segment and
    then its directories. *)
Lemma foldl_push_absolute res dd :
  Forall plain dd →
  foldl (pushSegment false) res (split slash (absolute dd)) = rev dd ++ res.
Proof.
  intros H. unfold absolute. rewrite sapp_cons, sapp_nil_l. simpl.
  destruct dd as [|d dd]; [done|].
  change "/" with (String slash "").
  rewrite split_join; [|done|by apply plain_noslash].
  by apply foldl_push_plain.
Qed.

Lemma join_snoc_nonempty segs s : s ≠ "" → Str.join "/" (segs ++ [s]) ≠ "".
Proof.
  intros Hs. destruct segs as [|s' segs]; [done|].
  rewrite join_app; [|done..].
  destruct (Str.join "/" (s' :: segs)); [by rewrite sapp_nil_l|by rewrite sapp_cons].
Qed.

(** [normalize] on an absolute path. *)
Lemma normalize_absolute p :
  isAbsolute p = true →
  normalize p =
    match Str.join "/" (normalizeSegments false p) with
    | "" => "/"
    | j => "/" +:+ (if endsWithChar p slash then j +:+ "/" else j)
    end.
Proof.
  intros H. destruct p as [|a p]; [done|].
  unfold normalize. rewrite H. simpl negb.
  by destruct (Str.join "/" (normalizeSegments false (String a p))).
Qed.

(** A slash-free name that is a prefix of [s/...] is a prefix of [s]. *)
Lemma startsWith_name s X name :
  noslash name → (X = "" ∨ ∃ X', X = String slash X') →
  startsWith (s +:+ X) name = true → ∃ t, s = name +:+ t.
Proof.
  unfold noslash. intros Hn HX. revert s. induction name as [|a name IH]; intros s H.
  - by exists s.
  - rewrite hasChar_cons in Hn. destruct (Ascii.eqb a slash) eqn:Ea; [done|].
    destruct s as [|b s].
    + rewrite sapp_nil_l in H. destruct HX as [->|[X' ->]]; [done|].
      rewrite startsWith_cons, Ea in H. done.
    + rewrite sapp_cons, startsWith_cons in H.
      destruct (Ascii.eqb a b) eqn:E; [|done].
      apply Ascii.eqb_eq in E as ->.
      destruct (IH Hn s H) as [t ->]. by exists t.
Qed.

(** A slash-free directory followed by a slash matches a whole segment. *)
Lemma startsWith_dir s X d R :
  noslash s → noslash d → (X = "" ∨ ∃ X', X = String slash X') →
  startsWith (s +:+ X) (d +:+ String slash R) = true →
  s = d ∧ ∃ X', X = String slash X' ∧ startsWith X' R = true.
Proof.
  unfold noslash. intros Hs Hd HX. revert s Hs.
  induction d as [|a d IH]; intros s Hs H.
  - rewrite sapp_nil_l in H. destruct s as [|b s].
    + rewrite sapp_nil_l in H. destruct HX as [->|[X' ->]]; [done|].
      rewrite startsWith_cons, eqb_refl in H. eauto.
    + rewrite sapp_cons, startsWith_cons in H. rewrite hasChar_cons in Hs.
      destruct (Ascii.eqb slash b) eqn:E; [|done].
      apply Ascii.eqb_eq in E as <-. by rewrite eqb_refl in Hs.
  - rewrite hasChar_cons in Hd. destruct (Ascii.eqb a slash) eqn:Ea; [done|].
    rewrite sapp_cons in H. destruct s as [|b s].
    + rewrite sapp_nil_l in H. destruct HX as [->|[X' ->]]; [done|].
      rewrite startsWith_cons, Ea in H. done.
    + rewrite sapp_cons, startsWith_cons in H. rewrite hasChar_cons in Hs.
      destruct (Ascii.eqb a b) eqn:E; [|done].
      apply Ascii.eqb_eq in E as ->. rewrite Ea in Hs.
      destruct (IH Hd s Hs H) as [-> ?]. done.
Qed.

(** The string-prefix test, read on segments: the text up to the last
    directory must match segment by segment, the last name only as a prefix
    of a segment. *)
Lemma startsWith_segments dd name segs tail :
  Forall plain dd → noslash name → name ≠ "" → Forall noslash segs →
  (tail = "" ∨ tail = "/") →
  startsWith (Str.join "/" segs +:+ tail) (Str.join "/" (dd ++ [name])) = true →
  ∃ t rest, segs = dd ++ (name +:+ t) :: rest.
Proof.
  intros Hdd Hn Hne. revert segs tail.
  assert (Htail : ∀ tail : string, tail = "" ∨ tail = "/" →
            tail = "" ∨ ∃ X', tail = String slash X').
  { intros ? [->| ->]; eauto. }
  assert (Hshape : ∀ segs tail, Forall noslash segs → tail = "" ∨ tail = "/" →
            ∃ s rest' tail' X, Str.join "/" segs +:+ tail = s +:+ X ∧ noslash s ∧
              Forall noslash rest' ∧ (tail' = "" ∨ tail' = "/") ∧
              (X = "" ∨ ∃ X', X = String slash X') ∧
              (∀ X', X = String slash X' → X' = Str.join "/" rest' +:+ tail') ∧
              (segs = [] ∧ s = "" ∨ segs = s :: rest')).
  { intros segs tail Hs Ht.
    assert (Hcut : ∀ X', tail = String slash X' → X' = Str.join "/" [] +:+ "").
    { intros X' ->. by destruct Ht as [?| [= <-]]. }
    destruct segs as [|s [|s' rest]].
    - exists "", [], "", tail.
      split; [done|]. split; [done|]. split; [done|]. split; [by left|].
      split; [by apply Htail|]. split; [done|]. by left.
    - exists s, [], "", tail. inversion Hs; subst.
      split; [done|]. split; [done|]. split; [done|]. split; [by left|].
      split; [by apply Htail|]. split; [done|]. by right.
    - exists s, (s' :: rest), tail, ("/" +:+ Str.join "/" (s' :: rest) +:+ tail).
      inversion Hs; subst.
      split; [by rewrite join_cons, !sapp_assoc|].
      split; [done|]. split; [done|]. split; [done|].
      split; [right; eexists; by rewrite sapp_cons, sapp_nil_l|].
      split; [|by right].
      intros X'. rewrite sapp_cons, sapp_nil_l. by intros [= <-]. }
  induction dd as [|d dd IH]; intros segs tail Hsegs Ht H.
  - simpl in H.
    destruct (Hshape segs tail Hsegs Ht) as (s & rest' & tail' & X & E & _ & _ & _ & HX & _ & Hs).
    rewrite E in H. destruct (startsWith_name _ _ _ Hn HX H) as [t ->].
    destruct Hs as [[_ Hs]|Hs].
    + destruct name; [done|]. by rewrite sapp_cons in Hs.
    + exists t, rest'. done.
  - inversion Hdd as [|? ? Hd Hdd']; subst.
    rewrite <- app_comm_cons, join_cons in H by (by destruct dd).
    rewrite sapp_cons, sapp_nil_l in H.
    destruct (Hshape segs tail Hsegs Ht)
      as (s & rest' & tail' & X & E & Hs' & Hrest' & Ht' & HX & HX' & Hs).
    rewrite E in H.
    destruct (startsWith_dir _ _ _ _ Hs' (proj1 Hd) HX H) as (-> & X' & -> & H').
    rewrite (HX' _ eq_refl) in H'.
    destruct (IH Hdd' rest' tail' Hrest' Ht' H') as (t & rest & ->).
    destruct Hs as [[_ Hs]|Hs].
    + destruct Hd as (_ & ? & _). done.
    + exists t, rest. by rewrite Hs.
Qed.

End PathFacts.

(* ===================================================================== *)
(** * The path guard of the file endpoints                                *)
(* ===================================================================== *)

Module FileGuard.
Import Str StrFacts Path PathFacts Server.

Section Guard.

Variable dd : list string.
Variable id : string.
Hypothesis Hdd : Forall plain dd.
Hypothesis Hid : plain id.

(** The bundle directory, as [path.join(DATA_DIR, id)] prints it. *)
Lemma join_root : Path.join [absolute dd; id] = absolute (dd ++ [id]).
Proof using Hdd Hid.
  destruct Hid as (Hns & Hne & _).
  assert (E : joinArgs None [absolute dd; id] = Some (absolute dd +:+ String slash id)).
  { unfold absolute. rewrite sapp_cons. by destruct id. }
  unfold Path.join. rewrite E, normalize_absolute by done.
  unfold normalizeSegments. rewrite split_app, foldl_app, foldl_push_absolute by done.
  rewrite split_plain by done. simpl foldl. rewrite pushSegment_plain by done.
  rewrite app_nil_r. simpl rev. rewrite rev_involutive.
  change (absolute dd +:+ String slash id) with (absolute dd +:+ "/" +:+ id).
  rewrite <- sapp_assoc, (endsWithChar_app_plain slash _ id Hne Hns).
  pose proof (join_snoc_nonempty dd id Hne).
  unfold absolute. by destruct (Str.join "/" (dd ++ [id])).
Qed.

(** The segments of the requested path after [normalizeString]. *)
Lemma lexical_requested rel :
  lexical (requested (absolute dd) id rel)
  = rev (foldl (pushSegment false) (id :: rev dd) (split slash rel)).
Proof using Hdd Hid.
  destruct Hid as (Hns & Hne & _).
  unfold lexical, requested, normalizeSegments.
  assert (isAbsolute (absolute dd +:+ "/" +:+ id +:+ "/" +:+ rel) = true) as -> by done.
  simpl negb.
  change (absolute dd +:+ "/" +:+ id +:+ "/" +:+ rel)
    with (absolute dd +:+ String slash (id +:+ String slash rel)).
  rewrite !split_app, !foldl_app, foldl_push_absolute by done.
  rewrite split_plain by done. simpl foldl at 2. rewrite pushSegment_plain by done.
  by rewrite app_nil_r.
Qed.

Lemma resolved_noslash rel : Forall noslash (lexical (requested (absolute dd) id rel)).
Proof using Hdd Hid.
  rewrite lexical_requested. apply Forall_rev, foldl_push_noslash; [|apply split_hasChar].
  constructor; [apply Hid|]. apply Forall_rev. by apply plain_noslash.
Qed.

(** The file path, as [path.join(DATA_DIR, id, rel)] prints it. *)
Lemma join_requested rel :
  rel ≠ "" →
  Path.join [absolute dd; id; rel] =
    match Str.join "/" (lexical (requested (absolute dd) id rel)) with
    | "" => "/"
    | j => "/" +:+ j +:+ (if endsWithChar (requested (absolute dd) id rel) slash
                          then "/" else "")
    end.
Proof using Hdd Hid.
  intros Hrel. destruct Hid as (Hns & Hne & _).
  assert (E : joinArgs None [absolute dd; id; rel]
              = Some (requested (absolute dd) id rel)).
  { unfold absolute, requested. rewrite sapp_cons. destruct id as [|a i]; [done|].
    destruct rel as [|b r]; [done|]. simpl joinArgs. f_equal.
    by rewrite !sapp_assoc. }
  unfold Path.join. rewrite E, normalize_absolute by done.
  change (normalizeSegments false (requested (absolute dd) id rel))
    with (lexical (requested (absolute dd) id rel)).
  destruct (Str.join "/" (lexical (requested (absolute dd) id rel))); [done|].
  destruct (endsWithChar _ _); [done|]. by rewrite sapp_nil_r.
Qed.

(** What the test [filePath.startsWith(path.join(DATA_DIR, id))] lets through,
    read on the segments of the requested path. *)
Lemma startsWith_root rel :
  rel ≠ "" →
  startsWith (Path.join [absolute dd; id; rel]) (Path.join [absolute dd; id]) = true →
  ∃ t rest, lexical (requested (absolute dd) id rel) = dd ++ (id +:+ t) :: rest.
Proof using Hdd Hid.
  intros Hrel. rewrite join_root, join_requested by done.
  pose proof (join_snoc_nonempty dd id (proj1 (proj2 Hid))) as Hroot.
  destruct (Str.join "/" (lexical (requested (absolute dd) id rel))) as [|a j] eqn:E.
  - unfold absolute. rewrite sapp_cons, sapp_nil_l, startsWith_cons, eqb_refl.
    by destruct (Str.join "/" (dd ++ [id])).
  - rewrite <- E. unfold absolute at 3.
    rewrite !sapp_cons, !sapp_nil_l, startsWith_cons, eqb_refl.
    apply startsWith_segments; [done|apply Hid|apply Hid|apply resolved_noslash|].
    destruct (endsWithChar _ _); auto.
Qed.

Lemma startsWith_nested rel :
  rel ≠ "" → (dd ++ [id]) `prefix_of` lexical (requested (absolute dd) id rel) →
  startsWith (Path.join [absolute dd; id; rel]) (Path.join [absolute dd; id]) = true.
Proof using Hdd Hid.
  intros Hrel [rest E]. rewrite join_root, join_requested by done.
  pose proof (join_snoc_nonempty dd id (proj1 (proj2 Hid))) as Hroot.
  assert (∃ u, Str.join "/" (lexical (requested (absolute dd) id rel)) = Str.join "/" (dd ++ [id]) +:+ u) as [u Eu].
  { rewrite E. destruct rest as [|r rest].
    - exists "". by rewrite app_nil_r, sapp_nil_r.
    - eexists. rewrite join_app; [done| |done]. by destruct dd. }
  rewrite Eu.
  destruct (Str.join "/" (dd ++ [id]) +:+ u) as [|a j] eqn:Ej.
  - destruct (Str.join "/" (dd ++ [id])); [done|]. by rewrite sapp_cons in Ej.
  - rewrite <- Ej. unfold absolute at 2.
    rewrite !sapp_cons, !sapp_nil_l, startsWith_cons, eqb_refl.
    rewrite sapp_assoc. apply startsWith_app.
Qed.

End Guard.

Ltac solve_plain :=
  repeat match goal with
         | |- Forall _ [] => constructor
         | |- Forall _ (_ :: _) => constructor
         | |- plain _ => unfold plain, noslash; split; [reflexivity|]
         | |- _ ∧ _ => split
         | |- _ ≠ _ => discriminate
         end.

Lemma putFile_getFile DATA_DIR id rel : putFile DATA_DIR id rel = getFile DATA_DIR id rel.
Proof. reflexivity. Qed.

(** C1, as amended.  The guard of [GET] and [PUT /api/bots/:id/file] is
    textual: the requested path is normalised by [path.join] (no symbolic
    link is followed, and a leading slash does not override the bundle
    directory) and compared with the bundle directory as a string.  An empty
    path is answered "Missing file path"; a non-empty path whose normalised
    segments are the bundle directory or lie below it reaches the file system;
    a path whose normalised segments leave [DATA_DIR], or enter a directory of
    [DATA_DIR] whose name does not begin with the bundle id, is answered
    "Invalid path" before any file-system call. *)
Theorem file_guard_lexical (dd : list string) (id rel : string) :
  Forall plain dd → plain id →
  let DATA_DIR := absolute dd in
  let resolved := lexical (requested DATA_DIR id rel) in
  putFile DATA_DIR id rel = getFile DATA_DIR id rel ∧
  (rel = "" → getFile DATA_DIR id rel = Status400 "Missing file path") ∧
  (rel ≠ "" → (dd ++ [id]) `prefix_of` resolved →
   getFile DATA_DIR id rel = FsAccess (Path.join [DATA_DIR; id; rel])) ∧
  (rel ≠ "" → (∀ t rest, resolved ≠ dd ++ (id +:+ t) :: rest) →
   getFile DATA_DIR id rel = Status400 "Invalid path").
Proof.
  intros Hdd Hid DATA_DIR resolved. split; [reflexivity|]. split; [|split].
  - intros ->. reflexivity.
  - intros Hrel Hin. unfold getFile. destruct (decide (rel = "")); [done|].
    subst DATA_DIR. by rewrite startsWith_nested.
  - intros Hrel Hout. unfold getFile. destruct (decide (rel = "")); [done|].
    destruct (startsWith _ _) eqn:E; [|done].
    destruct (startsWith_root dd id Hdd Hid rel Hrel E) as (t & rest & Eq).
    by destruct (Hout t rest).
Qed.

Lemma file_guard_lexical_witness :
  getFile "/srv/data/bots" "b1" "src/../index.js"
    = FsAccess "/srv/data/bots/b1/index.js"
  ∧ getFile "/srv/data/bots" "b1" "../../../etc/passwd" = Status400 "Invalid path".
Proof.
  split.
  - apply (file_guard_lexical ["srv"; "data"; "bots"] "b1" "src/../index.js");
      [solve_plain | solve_plain | discriminate | by exists ["index.js"]].
  - apply (file_guard_lexical ["srv"; "data"; "bots"] "b1" "../../../etc/passwd");
      [solve_plain | solve_plain | discriminate | ].
    intros t rest. vm_compute. discriminate.
Defined.

(** C1, as stated, fails: the bundle directory of [b1] holds a symbolic link
    [link] to [/etc]; the request for [link/passwd] leads outside the bundle
    directory, and both endpoints go on to the file system with it. *)
Lemma file_guard_follows_links :
  ¬ (∀ (links : Links.Table) (dd : list string) (id rel : string),
       Forall plain dd → plain id →
       let DATA_DIR := absolute dd in
       let root := Links.realpath links (dd ++ [id]) in
       let target := Links.reached links (Path.join [DATA_DIR; id; rel]) in
       (¬ root `prefix_of` target →
        getFile DATA_DIR id rel = Status400 "Invalid path"
        ∧ putFile DATA_DIR id rel = Status400 "Invalid path")
       ∧ (root `prefix_of` target →
          ∃ p, getFile DATA_DIR id rel = FsAccess p ∧ putFile DATA_DIR id rel = FsAccess p)).
Proof.
  intros H.
  destruct (H [(["srv"; "data"; "bots"; "b1"; "link"], ["etc"])]
              ["srv"; "data"; "bots"] "b1" "link/passwd") as [Hout _];
    [solve_plain | solve_plain |].
  destruct Hout as [Hget _]; [|discriminate Hget].
  intros [k Hk]. vm_compute in Hk. discriminate Hk.
Qed.

(** The string test also lets a neighbour of the bundle directory through
    when its name begins with the bundle id. *)
Example sibling_prefix_accepted :
  getFile "/srv/data/bots" "b1" "../b10/secret.txt"
    = FsAccess "/srv/data/bots/b10/secret.txt"
  ∧ putFile "/srv/data/bots" "b1" "../b10/secret.txt"
    = FsAccess "/srv/data/bots/b10/secret.txt".
Proof. split; reflexivity. Qed.

Example absolute_looking_is_nested :
  getFile "/srv/data/bots" "b1" "/etc/passwd" = FsAccess "/srv/data/bots/b1/etc/passwd".
Proof. reflexivity. Qed.

End FileGuard.

(* ===================================================================== *)
(** * One request at a time                                               *)
(* ===================================================================== *)

Module Lifecycle.
Import Server Run Props.

Lemma exec_bind {A B : Type} (p : Prog A) (k : A → Prog B) ad w :
  exec (bind p k) ad w =
    match exec p ad w with
    | (Returned r, w') => exec (k r) ad w'
    | (Thrown e, w') => (Thrown e, w')
    end.
Proof.
  revert w. induction p as [r|e|X op k' IH|X f k' IH]; intros w; try done.
  - simpl. destruct (answer op ad w) as [x w']. apply IH.
  - simpl. destruct (f (mem w)) as [x m']. apply IH.
Qed.

Lemma exec_await {X : Type} (op : Op X) ad w :
  exec (await op) ad w = (Returned (answer op ad w).1, (answer op ad w).2).
Proof. simpl. by destruct (answer op ad w). Qed.

Lemma exec_awaitReply {X : Type} (op : Op (Reply X)) ad w :
  exec (awaitReply op) ad w =
    (match (answer op ad w).1 with Resolved x => Returned x | Rejected e => Thrown e end,
     (answer op ad w).2).
Proof. simpl. by destruct (answer op ad w) as [[?|?] ?]. Qed.

Lemma exec_sync {X : Type} (f : Mem → X * Mem) ad w :
  exec (sync f) ad w = (Returned (f (mem w)).1, setMem w (f (mem w)).2).
Proof. simpl. by destruct (f (mem w)). Qed.

Lemma setMem_mem w : setMem w (mem w) = w.
Proof. by destruct w. Qed.

(** Run a program one statement further. *)
Ltac exec_reduce := cbv beta iota; simpl fst; simpl snd; cbv beta iota.

Ltac exec_step :=
  exec_reduce;
  rewrite exec_bind, ?exec_await, ?exec_awaitReply, ?exec_sync;
  simpl answer; exec_reduce.

Lemma exec_tryCatch {A : Type} (p : Prog A) (h : string → Prog A) ad w :
  exec (tryCatch p h) ad w =
    match exec p ad w with
    | (Returned r, w') => (Returned r, w')
    | (Thrown e, w') => exec (h e) ad w'
    end.
Proof.
  revert w. induction p as [r|e|X op k' IH|X f k' IH]; intros w; try done.
  - simpl. destruct (answer op ad w) as [x w']. apply IH.
  - simpl. destruct (f (mem w)) as [x m']. apply IH.
Qed.

Lemma exec_discoverEntryPoint dir ad w :
  exec (discoverEntryPoint dir) ad w =
    (match resolveSpec (fs w) dir with
     | EntryFound rel => Returned (Some ("/bot/" +:+ rel))
     | EntryNotFound => Returned None
     | ManifestBroken e => Thrown e
     end, w).
Proof.
  unfold discoverEntryPoint, resolveSpec, findMain, mbind, prog_bind.
  rewrite exec_bind. simpl.
  repeat (destruct (pathExists (fs w) _); simpl; [done|]).
  destruct (pathExists (fs w) _); [|done]. simpl.
  by destruct (readManifest _ _) as [?|[?|]].
Qed.

(** [startBot], run alone, in closed form. *)
Lemma exec_startBot DATA_DIR IMG id ad w :
  exec (startBot DATA_DIR IMG id) ad w =
    let dir := Path.join [DATA_DIR; id] in
    if pathExists (fs w) dir then
      match runningContainer (mem w) id with
      | Some cid => (Returned (AlreadyRunning cid), w)
      | None =>
          match resolveSpec (fs w) dir with
          | ManifestBroken e => (Thrown e, w)
          | EntryNotFound => (Thrown noEntryPoint, w)
          | EntryFound rel =>
              match createReply ad with
              | Rejected e => (Thrown e, w)
              | Resolved cid =>
                  let opts := createOptions IMG id dir ("/bot/" +:+ rel) in
                  let w1 := setDocker (λ d, d ++ [mkSandbox cid opts Created]) w in
                  match startReply ad with
                  | Rejected e => (Thrown e, w1)
                  | Resolved _ =>
                      let w2 := setDocker (map (setStatus cid Running)) w1 in
                      let m3 := (registerEntry id cid (mem w2)).2 in
                      let l := length (heap (mem w)) in
                      match logsReply ad with
                      | Rejected e => (Thrown e, setMem w2 m3)
                      | Resolved _ =>
                          (Returned (Started cid),
                           setMem w2
                             (setWaitHandlers (λ hs, hs ++ [(cid, (l, id))])
                                (setDataHandlers (λ hs, hs ++ [(cid, l)]) m3)))
                      end
                  end
              end
          end
      end
    else (Thrown "Error: Bot not found", w).
Proof.
  unfold startBot, launch, mbind, prog_bind, read, update.
  exec_step. destruct (pathExists (fs w) _); [|done]. simpl negb. cbv iota.
  exec_step. rewrite setMem_mem.
  destruct (runningContainer (mem w) id); [done|].
  rewrite exec_bind, exec_discoverEntryPoint.
  destruct (resolveSpec _ _); [|done..].
  exec_step. destruct (createReply ad) as [cid|e]; [|done]. exec_step.
  destruct (startReply ad) as [[]|e]; [|done]. do 2 exec_step.
  destruct (logsReply ad) as [[]|e]; [|done]. do 2 exec_step. reflexivity.
Qed.

(** [stopBot], run alone, in closed form. *)
Lemma exec_stopBot id ad w :
  exec (stopBot id) ad w =
    match runningContainer (mem w) id with
    | None => (Returned tt, w)
    | Some cid =>
        match stopReply ad with
        | Resolved _ =>
            (Returned tt,
             setMem (setDocker (map (setStatus cid Exited)) w)
               (setBots (delete id) (mem w)))
        | Rejected e =>
            (Returned tt,
             setMem w (setBots (delete id)
                         (setConsole (λ c, c ++ ["stop err " +:+ e]) (mem w))))
        end
    end.
Proof.
  unfold stopBot, mbind, prog_bind, read, update.
  exec_step. rewrite setMem_mem.
  destruct (runningContainer (mem w) id) as [cid|]; [|done].
  rewrite exec_bind, exec_tryCatch, exec_awaitReply. simpl answer.
  destruct (stopReply ad) as [[]|e]; exec_reduce.
  - by rewrite exec_sync.
  - by rewrite !exec_sync.
Qed.

Lemma exec_postStart DATA_DIR IMG id ad w :
  exec (postStart DATA_DIR IMG id) ad w =
    match exec (startBot DATA_DIR IMG id) ad w with
    | (Returned r, w') => (Returned (Json200 (Some r)), w')
    | (Thrown e, w') => (Returned (Json500 e), w')
    end.
Proof.
  unfold postStart, mbind, prog_bind. rewrite exec_tryCatch, exec_bind.
  by destruct (exec (startBot DATA_DIR IMG id) ad w) as [[r|e] w'].
Qed.

Lemma exec_postStop id ad w :
  exec (postStop id) ad w = (Returned (Json200 None), (exec (stopBot id) ad w).2).
Proof.
  unfold postStop, mbind, prog_bind. rewrite exec_tryCatch, exec_bind, exec_stopBot.
  destruct (runningContainer (mem w) id); [|done]. by destruct (stopReply ad) as [[]|].
Qed.

(** What the registry says once [bots.delete(id)] has run. *)
Lemma stopped_delete id m : stopped (setBots (delete id) m) id.
Proof.
  unfold stopped, getStatus, runningContainer, lookupEntry. simpl.
  by rewrite lookup_delete_eq.
Qed.

Lemma stopped_iff m id : stopped m id ↔ runningContainer m id = None.
Proof.
  unfold stopped, getStatus. destruct (runningContainer m id); [|done].
  split; [by intros [=]|done].
Qed.

(** The entry that [registerEntry] allocates is the one the registry shows. *)
Lemma runningContainer_registerEntry id cid m :
  runningContainer (registerEntry id cid m).2 id = Some cid.
Proof.
  unfold runningContainer, lookupEntry, registerEntry. simpl.
  rewrite lookup_insert_eq. simpl. by rewrite list_lookup_middle.
Qed.

(** A start that the daemon grants, for a bundle that is not running and has
    an entry point, registers the new container. *)
Lemma start_granted DATA_DIR IMG id cid rel w :
  pathExists (fs w) (Path.join [DATA_DIR; id]) = true →
  runningContainer (mem w) id = None →
  resolveSpec (fs w) (Path.join [DATA_DIR; id]) = EntryFound rel →
  ∃ w', exec (startBot DATA_DIR IMG id) (grants cid) w = (Returned (Started cid), w')
        ∧ runningContainer (mem w') id = Some cid
        ∧ docker w' = map (setStatus cid Running)
                        (docker w ++ [mkSandbox cid
                           (createOptions IMG id (Path.join [DATA_DIR; id]) ("/bot/" +:+ rel))
                           Created]).
Proof.
  intros Hdir Hrun Hres. rewrite exec_startBot. simpl. rewrite Hdir, Hrun, Hres.
  eexists. split; [done|]. split; [|done].
  apply (runningContainer_registerEntry id cid (mem w)).
Qed.

(** C8.  The entry point is looked for under the names [index.js], [app.js]
    and [server.js], in this order, and the first that exists wins; when none
    exists the ["main"] field of [package.json] is taken.  When nothing is found
    [startBot] throws the no-entry-point error, the start route answers it as
    an error, and the world is as before: the bundle is still stopped and no
    container was asked for. *)
Theorem entry_point_resolution DATA_DIR IMG id ad w :
  let dir := Path.join [DATA_DIR; id] in
  let has c := pathExists (fs w) (Path.join [dir; c]) in
  let found rel := (Returned (Some ("/bot/" +:+ rel)), w) in
  (has "index.js" = true → exec (discoverEntryPoint dir) ad w = found "index.js")
  ∧ (has "index.js" = false → has "app.js" = true →
     exec (discoverEntryPoint dir) ad w = found "app.js")
  ∧ (has "index.js" = false → has "app.js" = false → has "server.js" = true →
     exec (discoverEntryPoint dir) ad w = found "server.js")
  ∧ (has "index.js" = false → has "app.js" = false → has "server.js" = false →
     (∀ main, has "package.json" = true →
        readManifest (fs w) (Path.join [dir; "package.json"]) = ManifestMain (Some main) →
        exec (discoverEntryPoint dir) ad w = found main)
     ∧ (has "package.json" = false
        ∨ readManifest (fs w) (Path.join [dir; "package.json"]) = ManifestMain None →
        pathExists (fs w) dir = true → stopped (mem w) id →
        exec (discoverEntryPoint dir) ad w = (Returned None, w)
        ∧ exec (startBot DATA_DIR IMG id) ad w = (Thrown noEntryPoint, w)
        ∧ exec (postStart DATA_DIR IMG id) ad w = (Returned (Json500 noEntryPoint), w))).
Proof.
  intros dir has found. subst has found. cbv beta.
  split; [|split; [|split]].
  - intros H. rewrite exec_discoverEntryPoint. unfold resolveSpec. simpl. by rewrite H.
  - intros H1 H2. rewrite exec_discoverEntryPoint. unfold resolveSpec. simpl.
    by rewrite H1, H2.
  - intros H1 H2 H3. rewrite exec_discoverEntryPoint. unfold resolveSpec. simpl.
    by rewrite H1, H2, H3.
  - intros H1 H2 H3.
    assert (Hres : resolveSpec (fs w) dir =
              if pathExists (fs w) (Path.join [dir; "package.json"]) then
                match readManifest (fs w) (Path.join [dir; "package.json"]) with
                | ManifestThrows e => ManifestBroken e
                | ManifestMain (Some main) => EntryFound main
                | ManifestMain None => EntryNotFound
                end
              else EntryNotFound).
    { unfold resolveSpec. simpl. by rewrite H1, H2, H3. }
    split.
    + intros main H4 H5. rewrite exec_discoverEntryPoint, Hres. by rewrite H4, H5.
    + intros Hnone Hdir Hstop.
      assert (Hnf : resolveSpec (fs w) dir = EntryNotFound).
      { rewrite Hres. destruct Hnone as [-> | ->]; [done|]. by case_match. }
      apply stopped_iff in Hstop.
      rewrite exec_postStart, exec_discoverEntryPoint, exec_startBot. simpl.
      fold dir. by rewrite Hdir, Hstop, Hnf.
Qed.

Lemma entry_point_resolution_witness :
  exec (startBot "/srv/data/bots" None "b2") (grants "c1") sampleWorld
    = (Thrown noEntryPoint, sampleWorld)
  ∧ exec (discoverEntryPoint "/srv/data/bots/b3") (grants "c1") sampleWorld
    = (Returned (Some "/bot/bot.js"), sampleWorld).
Proof.
  split.
  - destruct (entry_point_resolution "/srv/data/bots" None "b2" (grants "c1") sampleWorld)
      as (_ & _ & _ & H).
    destruct H as [_ H]; [reflexivity..|].
    destruct H as (_ & H & _); [by left|reflexivity|reflexivity|exact H].
  - destruct (entry_point_resolution "/srv/data/bots" None "b3" (grants "c1") sampleWorld)
      as (_ & _ & _ & H).
    destruct H as [H _]; [reflexivity..|].
    exact (H "bot.js" eq_refl eq_refl).
Defined.

(** The registry lookup only reads [bots] and [heap]. *)
Lemma runningContainer_handlers f g m id :
  runningContainer (setWaitHandlers f (setDataHandlers g m)) id = runningContainer m id.
Proof. reflexivity. Qed.

(** C3.  When [startBot] has returned for a bundle, a second call with no
    stop in between changes nothing and returns the container id of the
    first, marked as already running; so of the two calls only the first can
    have created a sandbox, and it created exactly one. *)
Theorem start_twice_is_idempotent DATA_DIR IMG id ad1 ad2 w r1 w1 :
  exec (startBot DATA_DIR IMG id) ad1 w = (Returned r1, w1) →
  exec (startBot DATA_DIR IMG id) ad2 w1 = (Returned (AlreadyRunning (containerId r1)), w1)
  ∧ (∀ cid, r1 = Started cid →
       ∃ opts, docker w1 = map (setStatus cid Running) (docker w ++ [mkSandbox cid opts Created])
               ∧ name opts = "bot_" +:+ id)
  ∧ (∀ cid, r1 = AlreadyRunning cid → w1 = w).
Proof.
  rewrite !exec_startBot. cbv zeta.
  destruct (pathExists (fs w) _) eqn:Hdir; [|done].
  destruct (runningContainer (mem w) id) as [cid|] eqn:Hrun.
  { intros [= <- <-]. rewrite Hdir, Hrun. by split_and!. }
  destruct (resolveSpec (fs w) _) as [rel| |]; [|done..].
  destruct (createReply ad1) as [cid|]; [|done].
  destruct (startReply ad1) as [[]|]; [|done].
  destruct (logsReply ad1) as [[]|]; [|done].
  intros [= <- <-]. cbn [fs mem docker setMem setDocker containerId]. rewrite Hdir.
  rewrite runningContainer_handlers.
  pose proof (runningContainer_registerEntry id cid (mem w)) as Hreg.
  unfold registerEntry in Hreg. cbn [snd] in Hreg. rewrite Hreg.
  split_and!; [done| |done].
  intros ? [= <-]. by eexists.
Qed.

Lemma start_twice_is_idempotent_witness :
  ∃ w1, exec (startBot "/srv/data/bots" None "b1") (grants "c1") sampleWorld
          = (Returned (Started "c1"), w1)
        ∧ exec (startBot "/srv/data/bots" None "b1") (grants "c2") w1
          = (Returned (AlreadyRunning "c1"), w1)
        ∧ length (docker w1) = 1.
Proof.
  eexists. split; [reflexivity|]. split; [|reflexivity].
  apply (start_twice_is_idempotent "/srv/data/bots" None "b1" (grants "c1") (grants "c2")
           sampleWorld (Started "c1")).
  reflexivity.
Defined.

(** C6.  [stopBot] returns at once, leaving everything as it is, when the
    bundle has no registry entry or its entry holds no container.  Otherwise
    it never throws, whatever the daemon answers to the stop call: the registry
    entry is removed and the bundle reports as stopped; a rejected stop only
    leaves a warning on the console.  A start that the daemon grants then goes
    through. *)
Theorem stop_always_converges DATA_DIR IMG id ad w :
  (bots (mem w) !! id = None
   ∨ (∃ e, lookupEntry (mem w) id = Some e ∧ container e = None) →
   exec (stopBot id) ad w = (Returned tt, w))
  ∧ (∀ cid, runningContainer (mem w) id = Some cid →
     ∃ w', exec (stopBot id) ad w = (Returned tt, w')
       ∧ exec (postStop id) ad w = (Returned (Json200 None), w')
       ∧ bots (mem w') !! id = None
       ∧ stopped (mem w') id
       ∧ (∀ e, stopReply ad = Rejected e →
            console (mem w') = console (mem w) ++ ["stop err " +:+ e]
            ∧ docker w' = docker w)
       ∧ (∀ cid' rel,
            pathExists (fs w) (Path.join [DATA_DIR; id]) = true →
            resolveSpec (fs w) (Path.join [DATA_DIR; id]) = EntryFound rel →
            ∃ w'', exec (startBot DATA_DIR IMG id) (grants cid') w'
                     = (Returned (Started cid'), w'')
                   ∧ runningContainer (mem w'') id = Some cid')).
Proof.
  split.
  - intros H. rewrite exec_stopBot.
    assert (runningContainer (mem w) id = None) as ->; [|done].
    unfold runningContainer. destruct H as [H|(e & -> & He)]; [|done].
    unfold lookupEntry. by rewrite H.
  - intros cid Hrun. rewrite exec_postStop, exec_stopBot, Hrun.
    assert (Hnext : ∀ w', fs w' = fs w → stopped (mem w') id →
              ∀ cid' rel,
                pathExists (fs w) (Path.join [DATA_DIR; id]) = true →
                resolveSpec (fs w) (Path.join [DATA_DIR; id]) = EntryFound rel →
                ∃ w'', exec (startBot DATA_DIR IMG id) (grants cid') w'
                         = (Returned (Started cid'), w'')
                       ∧ runningContainer (mem w'') id = Some cid').
    { intros w' Hfs Hst cid' rel Hdir Hres. apply stopped_iff in Hst.
      destruct (start_granted DATA_DIR IMG id cid' rel w') as (w'' & ? & ? & _);
        [by rewrite Hfs..|done|by rewrite Hfs|]. eauto. }
    destruct (stopReply ad) as [[]|e'] eqn:Hreply; eexists; (split; [reflexivity|]);
      (split; [reflexivity|]); (split; [apply lookup_delete_eq|]);
      (split; [apply stopped_delete|]); (split; [|by apply Hnext, stopped_delete]).
    + by intros.
    + by intros ? [= <-].
Qed.

Lemma stop_always_converges_witness :
  ∃ w1 w2,
    exec (startBot "/srv/data/bots" None "b1") (grants "c1") sampleWorld
      = (Returned (Started "c1"), w1)
    ∧ exec (stopBot "b1")
        (mkAdapter (Resolved "c1") (Resolved tt) (Resolved tt) (Rejected "Error: no such container"))
        w1 = (Returned tt, w2)
    ∧ stopped (mem w2) "b1"
    ∧ exec (stopBot "b1") (grants "c1") w2 = (Returned tt, w2).
Proof.
  eexists. eexists. split; [reflexivity|].
  match goal with
  | |- exec _ ?ad ?w1 = _ ∧ _ =>
      destruct (stop_always_converges "/srv/data/bots" None "b1" ad w1) as [_ H];
      destruct (H "c1" eq_refl) as (w' & Hstop & _ & Hbots & Hst & _)
  end.
  vm_compute in Hstop. injection Hstop as <-.
  split; [reflexivity|]. split; [reflexivity|].
  match goal with
  | |- exec _ ?ad ?w2 = _ =>
      apply (stop_always_converges "/srv/data/bots" None "b1" ad w2); by left
  end.
Defined.

(** C2, as amended.  When the daemon rejects [createContainer] or [start] for
    a stopped bundle, the start route answers the daemon's error and the
    memory of the server is what it was: [startBot] has not yet written to
    the registry, so the bundle is still stopped.  After a rejected
    [createContainer] the daemon holds what it held before.  After a rejected
    [start] the container that was created stays with the daemon, in the
    created state and under the name of the bundle: [startBot] has no
    clean-up path.  A later start is not held back by the registry: it asks
    the daemon for a container again. *)
Theorem start_failure_keeps_registry DATA_DIR IMG id ad w rel e :
  pathExists (fs w) (Path.join [DATA_DIR; id]) = true →
  stopped (mem w) id →
  resolveSpec (fs w) (Path.join [DATA_DIR; id]) = EntryFound rel →
  let opts := createOptions IMG id (Path.join [DATA_DIR; id]) ("/bot/" +:+ rel) in
  let retry w' := ∀ cid', ∃ w'', exec (startBot DATA_DIR IMG id) (grants cid') w'
                                   = (Returned (Started cid'), w'')
                                 ∧ length (docker w'') = S (length (docker w')) in
  (createReply ad = Rejected e →
   exec (postStart DATA_DIR IMG id) ad w = (Returned (Json500 e), w) ∧ retry w)
  ∧ (∀ cid, createReply ad = Resolved cid → startReply ad = Rejected e →
     let w' := setDocker (λ d, d ++ [mkSandbox cid opts Created]) w in
     exec (postStart DATA_DIR IMG id) ad w = (Returned (Json500 e), w')
     ∧ mem w' = mem w ∧ stopped (mem w') id ∧ retry w').
Proof.
  intros Hdir Hstop Hres opts retry.
  assert (Hretry : ∀ w', fs w' = fs w → mem w' = mem w → retry w').
  { intros w' Hfs Hmem cid'. apply stopped_iff in Hstop.
    destruct (start_granted DATA_DIR IMG id cid' rel w') as (w'' & ? & _ & Hd);
      [by rewrite Hfs|by rewrite Hmem|by rewrite Hfs|].
    exists w''. split; [done|]. rewrite Hd, length_map, length_app. simpl. lia. }
  pose proof Hstop as Hrun. apply stopped_iff in Hrun.
  split.
  - intros Hc. split; [|by apply Hretry].
    rewrite exec_postStart, exec_startBot. cbv zeta. by rewrite Hdir, Hrun, Hres, Hc.
  - intros cid Hc Hs w'. split; [|split; [done|split; [done|by apply Hretry]]].
    rewrite exec_postStart, exec_startBot. cbv zeta. by rewrite Hdir, Hrun, Hres, Hc, Hs.
Qed.

Lemma start_failure_keeps_registry_witness :
  exec (postStart "/srv/data/bots" None "b1") (refuses "Error: no such image") sampleWorld
  = (Returned (Json500 "Error: no such image"), sampleWorld)
  ∧ ∃ w', exec (postStart "/srv/data/bots" None "b1")
            (mkAdapter (Resolved "c1") (Rejected "Error: OCI runtime create failed")
               (Resolved tt) (Resolved tt))
            sampleWorld
          = (Returned (Json500 "Error: OCI runtime create failed"), w')
          ∧ stopped (mem w') "b1"
          ∧ (status <$> sandboxesNamed "bot_b1" w') = [Created].
Proof.
  split.
  - apply (start_failure_keeps_registry "/srv/data/bots" None "b1" _ sampleWorld "index.js");
      reflexivity.
  - eexists. split.
    + match goal with
      | |- exec _ ?ad _ = _ =>
          destruct (start_failure_keeps_registry "/srv/data/bots" None "b1" ad sampleWorld
                      "index.js" "Error: OCI runtime create failed") as [_ H];
            [reflexivity..|]
      end.
      destruct (H "c1" eq_refl eq_refl) as [Hexec _]. exact Hexec.
    + split; reflexivity.
Defined.

(** C2, as stated, fails: the daemon creates the container of [b1] and then
    rejects its start; the start route answers the error, and the daemon is
    left with a container that it did not hold before. *)
Lemma start_failure_leaks_container :
  ¬ (∀ DATA_DIR IMG id ad w e,
       (createReply ad = Rejected e ∨ startReply ad = Rejected e) →
       (exec (startBot DATA_DIR IMG id) ad w).1 = Thrown e →
       let w' := (exec (startBot DATA_DIR IMG id) ad w).2 in
       docker w' = docker w ∧ stopped (mem w') id).
Proof.
  intros H.
  destruct (H "/srv/data/bots" None "b1"
              (mkAdapter (Resolved "c1") (Rejected "Error: OCI runtime create failed")
                 (Resolved tt) (Resolved tt))
              sampleWorld "Error: OCI runtime create failed") as [Hd _];
    [by right|reflexivity|].
  vm_compute in Hd. discriminate Hd.
Qed.

End Lifecycle.

(* ===================================================================== *)
(** * The callbacks of a running container                                *)
(* ===================================================================== *)

Module Callbacks.
Import Server Run Props Lifecycle.

Lemma deliver_lookup ls msg socks ws :
  deliver ls msg socks !! ws =
    (λ s, if decide (ws ∈ ls) then send (MsgLog msg) s else s) <$> socks !! ws.
Proof. unfold deliver. by rewrite list_lookup_imap. Qed.

Lemma deliver_length ls msg socks : length (deliver ls msg socks) = length socks.
Proof. unfold deliver. by rewrite length_imap. Qed.

(** A fold that fires the callbacks filed under [key]: with none filed it does
    nothing, with one filed it runs that one. *)
Lemma fire_none {H M : Type} (key : string) (F : H → M → M) (m : M) (hs : list (string * H)) :
  filter (λ h, h.1 = key) hs = [] →
  foldl (λ m h, if decide (h.1 = key) then F h.2 m else m) m hs = m.
Proof.
  revert m. induction hs as [|h hs IH]; intros m Hf; [done|].
  rewrite filter_cons in Hf. simpl. destruct (decide (h.1 = key)); [done|]. by apply IH.
Qed.




Lemma fireExit_none cid ts res m :
  filter (λ h, h.1 = cid) (waitHandlers m) = [] →
  fireExit cid ts res m = setWaitHandlers (filter (λ h, h.1 ≠ cid)) m.
Proof.
  intros Hf. unfold fireExit.
  by rewrite (fire_none cid (λ h, onExited h.1 h.2 ts res) m (waitHandlers m) Hf).
Qed.




(** A start that succeeded left the bundle as the theorem above wants it: an
    entry of its own behind the registry, and one exit callback for it. *)
Lemma start_registers_observer DATA_DIR IMG id ad w cid w1 :
  exec (startBot DATA_DIR IMG id) ad w = (Returned (Started cid), w1) →
  filter (λ h, h.1 = cid) (waitHandlers (mem w)) = [] →
  let l := length (heap (mem w)) in
  bots (mem w1) !! id = Some l
  ∧ heap (mem w1) !! l = Some (mkEntry (Some cid) [] ∅ [])
  ∧ filter (λ h, h.1 = cid) (waitHandlers (mem w1)) = [(cid, (l, id))].
Proof.
  rewrite exec_startBot. cbv zeta.
  destruct (pathExists (fs w) _); [|done].
  destruct (runningContainer (mem w) id); [done|].
  destruct (resolveSpec (fs w) _); [|done..].
  destruct (createReply ad) as [c|]; [|done].
  destruct (startReply ad) as [[]|]; [|done].
  destruct (logsReply ad) as [[]|]; [|done].
  intros [= -> <-] Hf. simpl. split; [apply lookup_insert_eq|].
  split; [by rewrite list_lookup_middle|].
  rewrite filter_app, Hf. simpl. rewrite filter_cons. simpl.
  by destruct (decide (cid = cid)).
Qed.

(** The exit callback deletes by bot id.  When it runs only after the bundle
    was stopped and started again, it removes the entry of the new container:
    the sandbox runs and the registry reports the bundle as stopped. *)
Example late_exit_clears_new_entry :
  let s := run "/srv/data/bots" None sampleRunning
             [Incoming (Stop "b1"); Settle 1 (grants "c1");
              Incoming (Start "b1"); Settle 2 (grants "c2"); Settle 2 (grants "c2");
              Settle 2 (grants "c2"); Settle 2 (grants "c2"); Settle 2 (grants "c2")] in
  let s' := step "/srv/data/bots" None s (Exits "c1" "t9" "{}") in
  getStatus (mem (world s)) "b1" = (true, Some "c2")
  ∧ getStatus (mem (world s')) "b1" = (false, None).
Proof. vm_compute. by split. Qed.


(** [stopBot] deletes by bot id as well, after its [await].  A stop of [c1]
    is in flight when [c1] exits and [b1] is started again as [c2]; when the
    stop resumes it removes the entry of [c2], whose sandbox keeps running. *)
Example late_stop_clears_new_entry :
  let s := run "/srv/data/bots" None sampleRunning
             [Incoming (Stop "b1"); Exits "c1" "t9" "{}";
              Incoming (Start "b1"); Settle 2 (grants "c2"); Settle 2 (grants "c2");
              Settle 2 (grants "c2"); Settle 2 (grants "c2"); Settle 2 (grants "c2")] in
  let s' := step "/srv/data/bots" None s (Settle 1 (grants "c1")) in
  getStatus (mem (world s)) "b1" = (true, Some "c2")
  ∧ getStatus (mem (world s')) "b1" = (false, None)
  ∧ (status <$> sandboxesNamed "bot_b1" (world s')) = [Exited; Running].
Proof. vm_compute. by repeat split. Qed.

End Callbacks.

(* ===================================================================== *)
(** * The event loop keeps the server well formed                         *)
(* ===================================================================== *)

Module Invariants.
Import Server Run Props Lifecycle Callbacks.

(** ** Requests are tame *)

Lemma tameProg_bind {A B : Type} (p : Prog A) (k : A → Prog B) :
  tameProg p → (∀ r, tameProg (k r)) → tameProg (bind p k).
Proof.
  intros Hp Hk. induction p as [r|e|X op k' IH|X f k' IH]; simpl in *; [done..| |].
  - intros x. by apply IH.
  - destruct Hp as [Hf Hp]. split; [done|]. intros x. by apply IH.
Qed.

Lemma tameProg_tryCatch {A : Type} (p : Prog A) (h : string → Prog A) :
  tameProg p → (∀ e, tameProg (h e)) → tameProg (tryCatch p h).
Proof.
  intros Hp Hh. induction p as [r|e|X op k' IH|X f k' IH]; simpl in *; [done..| |].
  - intros x. by apply IH.
  - destruct Hp as [Hf Hp]. split; [done|]. intros x. by apply IH.
Qed.

Lemma tameSync_keep {X : Type} (f : Mem → X * Mem) :
  (∀ m, sockets (f m).2 = sockets m ∧ heap (f m).2 = heap m) → tameSync f.
Proof.
  intros H m. destruct (H m) as [Hs Hh]. split; [done|].
  exists []. by rewrite app_nil_r.
Qed.

Lemma tameProg_findCandidate dir cs : tameProg (findCandidate dir cs).
Proof. induction cs as [|c cs IH]; [done|]. simpl. by intros []. Qed.

Lemma tameProg_discoverEntryPoint dir : tameProg (discoverEntryPoint dir).
Proof.
  unfold discoverEntryPoint. apply tameProg_bind; [apply tameProg_findCandidate|].
  intros [e|]; [done|]. unfold findMain. simpl. intros []; [|done].
  simpl. by intros [?|[?|]].
Qed.

Lemma tameProg_awaitReply {X : Type} (op : Op (Reply X)) : tameProg (awaitReply op).
Proof. by intros [?|?]. Qed.

Lemma tameProg_startBot DATA_DIR IMG id : tameProg (startBot DATA_DIR IMG id).
Proof.
  unfold startBot. apply tameProg_bind; [done|]. intros ex.
  destruct (negb ex); [done|].
  apply tameProg_bind; [split; [by apply tameSync_keep|done]|]. intros [cid|]; [done|].
  apply tameProg_bind; [apply tameProg_discoverEntryPoint|]. intros [entryPoint|]; [|done].
  unfold launch.
  apply tameProg_bind; [apply tameProg_awaitReply|]. intros cid.
  apply tameProg_bind; [apply tameProg_awaitReply|]. intros _.
  apply tameProg_bind.
  { split; [|done]. intros m. split; [done|]. eexists. split; [done|].
    by repeat constructor. }
  intros entry. apply tameProg_bind; [apply tameProg_awaitReply|]. intros _.
  apply tameProg_bind; [split; [by apply tameSync_keep|done]|]. intros _.
  apply tameProg_bind; [split; [by apply tameSync_keep|done]|]. done.
Qed.

Lemma tameProg_stopBot id : tameProg (stopBot id).
Proof.
  unfold stopBot. apply tameProg_bind; [split; [by apply tameSync_keep|done]|].
  intros [cid|]; [|done].
  apply tameProg_bind; [|intros _; split; [by apply tameSync_keep|done]].
  apply tameProg_tryCatch; [apply tameProg_awaitReply|].
  intros e. split; [by apply tameSync_keep|done].
Qed.

Lemma tameProg_handler DATA_DIR IMG r : tameProg (handler DATA_DIR IMG r).
Proof.
  destruct r as [id|id|id]; unfold handler, postStart, postStop, postRestart.
  - apply tameProg_tryCatch; [|done].
    apply tameProg_bind; [apply tameProg_startBot|done].
  - apply tameProg_tryCatch; [|done].
    apply tameProg_bind; [apply tameProg_stopBot|done].
  - apply tameProg_tryCatch; [|done].
    apply tameProg_bind; [apply tameProg_stopBot|]. intros _.
    apply tameProg_bind; [apply tameProg_startBot|done].
Qed.

(** What a tame synchronous stretch does to the memory. *)
Lemma runSync_tame {R : Type} (p : Prog R) m :
  tameProg p →
  tameProg (runSync p m).1
  ∧ sockets (runSync p m).2 = sockets m
  ∧ ∃ new, heap (runSync p m).2 = heap m ++ new ∧ Forall freshEntry new.
Proof.
  revert m. induction p as [r|e|X op k IH|X f k IH]; intros m Hp.
  1-3: (split; [done|]; split; [done|]; exists []; by rewrite app_nil_r).
  destruct Hp as [Hf Hk]. simpl. destruct (Hf m) as (Hs & new & Hh & Hnew).
  destruct (f m) as [x m1]. simpl in *.
  destruct (IH x m1 (Hk x)) as (Ht & Hs' & new' & Hh' & Hnew').
  split; [done|]. split; [congruence|].
  exists (new ++ new'). rewrite Hh', Hh, app_assoc. split; [done|]. by apply Forall_app.
Qed.

Lemma answer_mem {X : Type} (op : Op X) ad w : mem (answer op ad w).2 = mem w.
Proof.
  destruct op; simpl; try done.
  - by destruct (createReply ad).
  - by destruct (startReply ad) as [[]|].
  - by destruct (stopReply ad) as [[]|].
Qed.

(** ** The heap stays in order *)

Lemma bufferOk_fresh e : freshEntry e → bufferOk e.
Proof. intros (Hl & Ha & _). exists []. rewrite Hl, Ha. by split; [|left]. Qed.

Lemma bufferOk_push_shift msg e :
  bufferOk e →
  bufferOk (pushLog msg (λ logs, if decide (capacity < length logs) then tail logs else logs) e).
Proof.
  intros (dropped & Ha & Hd). unfold bufferOk. simpl.
  destruct (decide (capacity < length (logs e ++ [msg]))) as [Hfull|Hroom].
  - destruct (logs e ++ [msg]) as [|x t] eqn:E; [by destruct (logs e)|].
    exists (dropped ++ [x]). simpl. split.
    + by rewrite Ha, <- !app_assoc, E.
    + right. simpl in Hfull. lia.
  - exists dropped. split; [by rewrite Ha, app_assoc|].
    destruct Hd as [Hd|Hd]; [by left|right]. rewrite length_app. lia.
Qed.

Lemma bufferOk_push_keep msg e : bufferOk e → bufferOk (pushLog msg (λ logs, logs) e).
Proof.
  intros (dropped & Ha & Hd). exists dropped. simpl. split; [by rewrite Ha, app_assoc|].
  destruct Hd as [Hd|Hd]; [by left|right]. rewrite length_app. lia.
Qed.

Lemma heapOk_frame m m' new :
  sockets m' = sockets m → heap m' = heap m ++ new → Forall freshEntry new →
  heapOk m → heapOk m'.
Proof.
  unfold heapOk. intros -> -> Hnew Hm. apply Forall_app. split; [done|].
  eapply Forall_impl; [done|]. intros e He. split; [by apply bufferOk_fresh|].
  intros ws. destruct He as (_ & _ & ->). set_solver.
Qed.

(** A push onto entry [l], with the delivery to its listeners. *)
Lemma heapOk_push m l e msg after :
  heap m !! l = Some e → bufferOk (pushLog msg after e) → heapOk m →
  heapOk (setSockets (deliver (listeners e) msg)
            (setHeap (<[l := pushLog msg after e]>) m)).
Proof.
  unfold heapOk. simpl. intros He Hb Hm. rewrite deliver_length.
  apply Forall_insert; [done|]. split; [done|].
  by destruct (proj1 (Forall_lookup _ _) Hm l e He).
Qed.

Lemma heapOk_onData l ts chunk m : heapOk m → heapOk (onData l ts chunk m).
Proof.
  intros Hm. unfold onData. destruct (heap m !! l) as [e|] eqn:He; [|done].
  apply heapOk_push; [done| |done]. apply bufferOk_push_shift.
  by destruct (proj1 (Forall_lookup _ _) Hm l e He).
Qed.

Lemma heapOk_onExited l id ts res m : heapOk m → heapOk (onExited l id ts res m).
Proof.
  intros Hm. unfold onExited. destruct (heap m !! l) as [e|] eqn:He; [|done].
  apply (heapOk_push m l e); [done| |done]. apply bufferOk_push_keep.
  by destruct (proj1 (Forall_lookup _ _) Hm l e He).
Qed.

Lemma heapOk_grow m sock :
  heapOk m → heapOk (setSockets (λ ss, ss ++ [sock]) m).
Proof.
  unfold heapOk. simpl. intros Hm. eapply Forall_impl; [done|].
  intros e [Hb Hl]. split; [done|]. intros ws Hws. rewrite length_app. simpl.
  specialize (Hl ws Hws). lia.
Qed.

Lemma heapOk_onConnection botId m : heapOk m → heapOk (onConnection botId m).
Proof.
  intros Hm. unfold onConnection.
  destruct botId as [[|a botId]|]; [by apply heapOk_grow| |by apply heapOk_grow].
  destruct (bots m !! String a botId) as [l|]; [|by apply heapOk_grow].
  destruct (heap m !! l) as [e|] eqn:He; [|by apply heapOk_grow].
  match goal with |- heapOk (setHeap _ (setSockets (λ ss, ss ++ [?sock]) m)) =>
    pose proof (heapOk_grow m sock Hm) as Hg end.
  unfold heapOk in *. simpl in *. apply Forall_insert; [done|].
  destruct (proj1 (Forall_lookup _ _) Hm l e He) as [Hb Hl].
  split; [done|]. intros ws. simpl. rewrite length_app. simpl.
  intros [Hws| ->%elem_of_singleton]%elem_of_union; [|lia].
  specialize (Hl ws Hws). lia.
Qed.

Lemma heapOk_onBroken ws m : heapOk m → heapOk (onBroken ws m).
Proof.
  intros Hm. unfold onBroken. destruct (sockets m !! ws); [|done].
  unfold heapOk in *. simpl. by rewrite length_insert.
Qed.

Lemma heapOk_onClose ws m : heapOk m → heapOk (onClose ws m).
Proof.
  intros Hm. unfold onClose. destruct (sockets m !! ws) as [s|]; [|done].
  assert (Hm' : heapOk (setSockets (<[ws := mkSocket false (inbox s) (captured s)]>) m)).
  { unfold heapOk in *. simpl. by rewrite length_insert. }
  destruct (captured s) as [l|]; [|done]. simpl.
  destruct (heap m !! l) as [e|] eqn:He; [|done].
  unfold heapOk in *. simpl in *. apply Forall_insert; [done|].
  destruct (proj1 (Forall_lookup _ _) Hm' l e He) as [Hb Hl].
  split; [done|]. intros ws'. simpl. intros [Hws _]%elem_of_difference. by apply Hl.
Qed.

Lemma heapOk_fold {H : Type} (F : H → Mem → Mem) (P : H → Prop)
    `{∀ h, Decision (P h)} (hs : list H) m :
  (∀ h m, heapOk m → heapOk (F h m)) →
  heapOk m → heapOk (foldl (λ m h, if decide (P h) then F h m else m) m hs).
Proof.
  intros HF. revert m. induction hs as [|h hs IH]; intros m Hm; [done|].
  simpl. apply IH. destruct (decide (P h)); [by apply HF|done].
Qed.

Lemma wellFormed_boot disk : wellFormed (boot disk).
Proof. split; [done|]. by apply Forall_nil. Qed.

Lemma wellFormed_step DATA_DIR IMG s ev :
  wellFormed s → wellFormed (step DATA_DIR IMG s ev).
Proof.
  intros [Ht Hm].
  destruct ev as [r|t ad|cid ts chunk|cid ts res|cid err|botId|ws|ws|fs']; simpl.
  - pose proof (runSync_tame (handler DATA_DIR IMG r) (mem (world s))
                  (tameProg_handler DATA_DIR IMG r)) as (Hp & Hs & new & Hh & Hnew).
    destruct (runSync _ _) as [p m]. split; simpl in *.
    + apply Forall_app. split; [done|]. by constructor.
    + by eapply heapOk_frame.
  - destruct (tasks s !! t) as [[r|e|X op k|X f k]|] eqn:Etask; try done.
    pose proof (proj1 (Forall_lookup _ _) Ht t _ Etask) as Hk. simpl in Hk.
    pose proof (answer_mem op ad (world s)) as Hmem.
    destruct (answer op ad (world s)) as [x w']. simpl in Hmem.
    pose proof (runSync_tame (k x) (mem w') (Hk x)) as (Hp & Hs & new & Hh & Hnew).
    destruct (runSync _ _) as [p m]. split; simpl in *.
    + by apply Forall_insert.
    + rewrite Hmem in *. by eapply heapOk_frame.
  - split; [done|]. simpl. unfold fireData.
    apply (heapOk_fold (λ h, onData h.2 ts chunk) (λ h, h.1 = cid)); [|done].
    intros. by apply heapOk_onData.
  - split; [done|]. simpl. unfold fireExit.
    pose proof (heapOk_fold (λ h, onExited h.2.1 h.2.2 ts res) (λ h, h.1 = cid)
                  (waitHandlers (mem (world s))) (mem (world s))) as Hf.
    apply Hf; [|done]. intros. by apply heapOk_onExited.
  - split; [done|]. simpl. unfold fireWaitError.
    pose proof (heapOk_fold (λ _, setConsole (λ c, c ++ ["wait err " +:+ err]))
                  (λ h, h.1 = cid) (waitHandlers (mem (world s))) (mem (world s))) as Hf.
    by apply Hf.
  - split; [done|]. simpl. by apply heapOk_onConnection.
  - split; [done|]. simpl. by apply heapOk_onClose.
  - split; [done|]. simpl. by apply heapOk_onBroken.
  - done.
Qed.

Lemma wellFormed_run DATA_DIR IMG s evs :
  wellFormed s → wellFormed (run DATA_DIR IMG s evs).
Proof.
  revert s. induction evs as [|ev evs IH]; intros s Hs; [done|].
  simpl. apply IH. by apply wellFormed_step.
Qed.

End Invariants.

(* ===================================================================== *)
(** * What a log socket receives                                          *)
(* ===================================================================== *)

Module Fanout.
Import Server Run Props Lifecycle Callbacks Invariants.

Section Follows.

Variable ws : nat.
Variable from : option nat.
Variable base : list string.
Variable hist : list Msg.

Lemma follows_frame later m m' new :
  sockets m' = sockets m → heap m' = heap m ++ new → Forall freshEntry new →
  follows ws from base hist later m → follows ws from base hist later m'.
Proof.
  intros Hs Hh Hnew (H1 & H2 & H3). unfold follows. rewrite Hs, Hh.
  split; [done|]. split.
  - intros l e [He|[_ He]]%lookup_app_Some; [by eauto|].
    apply list_elem_of_lookup_2 in He.
    destruct (proj1 (Forall_forall _ _) Hnew e He) as (_ & _ & ->). set_solver.
  - intros l Hl. destruct (H3 l Hl) as (e & He & ?). exists e.
    split; [|done]. by apply lookup_app_l_Some.
Qed.

(** A push onto entry [l'], with the delivery to its listeners. *)
Lemma follows_push later m l' e' msg after :
  heap m !! l' = Some e' →
  follows ws from base hist later m →
  ∃ later',
    follows ws from base hist later'
      (setSockets (deliver (listeners e') msg)
         (setHeap (<[l' := pushLog msg after e']>) m))
    ∧ (from = None → later' = later).
Proof.
  intros He' ((sock & Hsock & Hin & Hal) & H2 & H3).
  destruct (decide (ws ∈ listeners e')) as [Hws|Hws].
  - pose proof (H2 l' e' He' Hws) as Hfrom.
    exists (later ++ [msg]). split; [|by rewrite Hfrom]. split; [|split].
    + exists (send (MsgLog msg) sock). simpl. rewrite deliver_lookup, Hsock. simpl.
      rewrite decide_True by done. split; [done|].
      unfold send. rewrite Hal by (by rewrite Hfrom). simpl.
      split; [|done]. by rewrite Hin, fmap_app, app_assoc.
    + simpl. intros l e [(<- & <- & _)|[? He]]%list_lookup_insert_Some; [done|by eauto].
    + simpl. intros l Hl. rewrite Hfrom in Hl. injection Hl as <-.
      destruct (H3 l' Hfrom) as (e & He & _ & Ha). rewrite He' in He. injection He as <-.
      exists (pushLog msg after e'). split; [|split; [done|]].
      * apply list_lookup_insert_eq. by eapply lookup_lt_Some.
      * simpl. by rewrite Ha, app_assoc.
  - exists later. split; [|done]. split; [|split].
    + exists sock. simpl. rewrite deliver_lookup, Hsock. simpl.
      by rewrite decide_False by done.
    + simpl. intros l e [(<- & <- & _)|[? He]]%list_lookup_insert_Some; [done|by eauto].
    + simpl. intros l Hl. destruct (H3 l Hl) as (e & He & Hin' & Ha).
      exists e. split; [|done]. rewrite list_lookup_insert_ne; [done|].
      intros <-. rewrite He' in He. by injection He as <-.
Qed.

Lemma follows_onData later m l ts chunk :
  follows ws from base hist later m →
  ∃ later', follows ws from base hist later' (onData l ts chunk m)
            ∧ (from = None → later' = later).
Proof.
  intros H. unfold onData. destruct (heap m !! l) as [e|] eqn:He; [|by eauto].
  by apply follows_push.
Qed.

Lemma follows_onExited later m l id ts res :
  follows ws from base hist later m →
  ∃ later', follows ws from base hist later' (onExited l id ts res m)
            ∧ (from = None → later' = later).
Proof.
  intros H. unfold onExited. destruct (heap m !! l) as [e|] eqn:He; [|by eauto].
  by apply (follows_push later m l e).
Qed.

Lemma follows_fold {H : Type} (F : H → Mem → Mem) (P : H → Prop)
    `{∀ h, Decision (P h)} (hs : list H) later m :
  (∀ h later m, follows ws from base hist later m →
     ∃ later', follows ws from base hist later' (F h m) ∧ (from = None → later' = later)) →
  follows ws from base hist later m →
  ∃ later', follows ws from base hist later'
              (foldl (λ m h, if decide (P h) then F h m else m) m hs)
            ∧ (from = None → later' = later).
Proof.
  intros HF. revert later m. induction hs as [|h hs IH]; intros later m Hm; [by eauto|].
  simpl. destruct (decide (P h)); [|by apply IH].
  destruct (HF h later m Hm) as (later1 & H1 & E1).
  destruct (IH later1 _ H1) as (later2 & H2 & E2).
  exists later2. split; [done|]. intros Hn. by rewrite E2, E1.
Qed.

Lemma follows_grow later m sock :
  follows ws from base hist later m →
  follows ws from base hist later (setSockets (λ ss, ss ++ [sock]) m).
Proof.
  intros ((s & Hs & ?) & H2 & H3). split; [|done].
  exists s. split; [|done]. simpl. by apply lookup_app_l_Some.
Qed.

Lemma follows_onConnection later m botId :
  follows ws from base hist later m →
  follows ws from base hist later (onConnection botId m).
Proof.
  intros Hm. unfold onConnection.
  destruct botId as [[|a botId]|]; [by apply follows_grow| |by apply follows_grow].
  destruct (bots m !! String a botId) as [l|]; [|by apply follows_grow].
  destruct (heap m !! l) as [e|] eqn:He; [|by apply follows_grow].
  destruct Hm as ((s & Hs & Hrest) & H2 & H3).
  assert (Hne : ws ≠ length (sockets m)).
  { apply lookup_lt_Some in Hs. lia. }
  split; [|split].
  - exists s. split; [|done]. simpl. by apply lookup_app_l_Some.
  - simpl. intros l0 e0 [(<- & <- & _)|[? He0]]%list_lookup_insert_Some; [|by eauto].
    simpl. intros [Hin|Hin%elem_of_singleton]%elem_of_union; [by eauto|done].
  - simpl. intros l0 Hl0. destruct (H3 l0 Hl0) as (e0 & He0 & Hin & Ha).
    destruct (decide (l0 = l)) as [->|Hl].
    + rewrite He in He0. injection He0 as <-. eexists. split; [|split].
      * apply list_lookup_insert_eq. by eapply lookup_lt_Some.
      * simpl. by apply elem_of_union_l.
      * done.
    + exists e0. by rewrite list_lookup_insert_ne.
Qed.

Lemma follows_onBroken later m ws' :
  (is_Some from → ws' ≠ ws) →
  follows ws from base hist later m →
  follows ws from base hist later (onBroken ws' m).
Proof.
  intros Hne ((s & Hs & Hin & Hal) & H2 & H3). unfold onBroken.
  destruct (sockets m !! ws') as [s'|] eqn:Hs'; [|by split; eauto].
  split; [|done]. simpl. destruct (decide (ws' = ws)) as [->|Hws].
  - rewrite Hs in Hs'. injection Hs' as <-. eexists. split; [|split].
    + apply list_lookup_insert_eq. by eapply lookup_lt_Some.
    + done.
    + intros Hf. by destruct (Hne Hf).
  - exists s. by rewrite list_lookup_insert_ne.
Qed.

Lemma follows_onClose later m ws' :
  (is_Some from → ws' ≠ ws) →
  follows ws from base hist later m →
  follows ws from base hist later (onClose ws' m).
Proof.
  intros Hne Hm. unfold onClose.
  destruct (sockets m !! ws') as [s'|] eqn:Hs'; [|done].
  pose proof (follows_onBroken later m ws' Hne Hm) as Hb.
  unfold onBroken in Hb. rewrite Hs' in Hb.
  destruct (captured s') as [l|]; [|done]. simpl.
  destruct (heap m !! l) as [e|] eqn:He; [|done].
  destruct Hb as (H1 & H2 & H3). split; [done|]. split.
  - simpl in *. intros l0 e0 [(<- & <- & _)|[? He0]]%list_lookup_insert_Some; [|by eauto].
    simpl. intros [Hin _]%elem_of_difference. by eauto.
  - simpl in *. intros l0 Hl0. destruct (H3 l0 Hl0) as (e0 & He0 & Hin & Ha).
    destruct (decide (l0 = l)) as [->|Hl].
    + rewrite He in He0. injection He0 as <-. eexists. split; [|split].
      * apply list_lookup_insert_eq. by eapply lookup_lt_Some.
      * simpl. apply elem_of_difference. split; [done|].
        intros ->%elem_of_singleton. by destruct (Hne (mk_is_Some _ _ Hl0)).
      * done.
    + exists e0. by rewrite list_lookup_insert_ne.
Qed.

Lemma follows_step DATA_DIR IMG s ev later :
  Forall tameProg (tasks s) →
  (is_Some from → ev ≠ Close ws ∧ ev ≠ Broken ws) →
  follows ws from base hist later (mem (world s)) →
  ∃ later', follows ws from base hist later' (mem (world (step DATA_DIR IMG s ev)))
            ∧ (from = None → later' = later).
Proof.
  intros Ht Hev Hm.
  destruct ev as [r|t ad|cid ts chunk|cid ts res|cid err|botId|ws'|ws'|fs']; simpl.
  - pose proof (runSync_tame (handler DATA_DIR IMG r) (mem (world s))
                  (tameProg_handler DATA_DIR IMG r)) as (Hp & Hs & new & Hh & Hnew).
    destruct (runSync _ _) as [p m]. simpl in *. exists later. split; [|done].
    by eapply follows_frame.
  - destruct (tasks s !! t) as [[r|e|X op k|X f k]|] eqn:Etask; try by eauto.
    pose proof (proj1 (Forall_lookup _ _) Ht t _ Etask) as Hk. simpl in Hk.
    pose proof (answer_mem op ad (world s)) as Hmem.
    destruct (answer op ad (world s)) as [x w']. simpl in Hmem.
    pose proof (runSync_tame (k x) (mem w') (Hk x)) as (Hp & Hs & new & Hh & Hnew).
    destruct (runSync _ _) as [p m]. simpl in *. exists later. split; [|done].
    rewrite Hmem in *. by eapply follows_frame.
  - unfold fireData.
    apply (follows_fold (λ h, onData h.2 ts chunk) (λ h, h.1 = cid)); [|done].
    intros. by apply follows_onData.
  - unfold fireExit.
    pose proof (follows_fold (λ h, onExited h.2.1 h.2.2 ts res) (λ h, h.1 = cid)
                  (waitHandlers (mem (world s))) later (mem (world s))) as Hf.
    destruct Hf as (later' & Hf & E); [|done|by exists later'].
    intros. by apply follows_onExited.
  - unfold fireWaitError.
    pose proof (follows_fold (λ _, setConsole (λ c, c ++ ["wait err " +:+ err]))
                  (λ h, h.1 = cid) (waitHandlers (mem (world s))) later (mem (world s)))
      as Hf.
    destruct Hf as (later' & Hf & E); [by eauto|done|by exists later'].
  - exists later. split; [|done]. by apply follows_onConnection.
  - exists later. split; [|done]. apply follows_onClose; [|done].
    intros Hf <-. by destruct (Hev Hf).
  - exists later. split; [|done]. apply follows_onBroken; [|done].
    intros Hf <-. by destruct (Hev Hf) as [_ ?].
  - by eauto.
Qed.

Lemma follows_run DATA_DIR IMG evs s later :
  wellFormed s →
  (is_Some from → Forall (λ ev, ev ≠ Close ws ∧ ev ≠ Broken ws) evs) →
  follows ws from base hist later (mem (world s)) →
  ∃ later', follows ws from base hist later' (mem (world (run DATA_DIR IMG s evs)))
            ∧ (from = None → later' = later).
Proof.
  revert s later. induction evs as [|ev evs IH]; intros s later Hwf Hevs Hm; [by eauto|].
  simpl.
  destruct (follows_step DATA_DIR IMG s ev later) as (later1 & H1 & E1); [apply Hwf| |done|].
  { intros Hf. by destruct (proj1 (Forall_cons _ _ _) (Hevs Hf)). }
  destruct (IH (step DATA_DIR IMG s ev) later1) as (later2 & H2 & E2);
    [by apply wellFormed_step| |done|].
  { intros Hf. by destruct (proj1 (Forall_cons _ _ _) (Hevs Hf)). }
  exists later2. split; [done|]. intros Hn. by rewrite E2, E1.
Qed.

End Follows.

(** [slice(-n)] of a buffer in order shows the last [n] lines ever pushed. *)
Lemma sliceLast_length {A : Type} n (l : list A) :
  length (sliceLast n l) = length l `min` n.
Proof. unfold sliceLast. rewrite length_drop. lia. Qed.

Lemma sliceLast_bufferOk e :
  bufferOk e → sliceLast replay (logs e) = sliceLast replay (appended e).
Proof.
  intros (dropped & -> & [->|Hfull]); [done|].
  unfold sliceLast. rewrite length_app.
  assert (Hr : replay ≤ length (logs e)).
  { unfold capacity in Hfull. unfold replay. lia. }
  rewrite drop_app_ge by lia. f_equal. lia.
Qed.

(** C5.  A socket that connects to the log endpoint of a running bundle, after
    N lines have been pushed onto the buffer of the bundle, is sent at once a
    history message with the min(N, 200) most recent of them, in order, and is
    added to the listeners in the same turn of the event loop.  As long as it
    stays open it then receives one log message for every line pushed onto
    that buffer afterwards, in the order of the pushes, and nothing else:
    whatever the server does in between, its inbox is the history followed by
    exactly the later lines. *)
Theorem subscriber_replay_then_live DATA_DIR IMG disk pre post id l e :
  id ≠ "" →
  let s1 := run DATA_DIR IMG (boot disk) pre in
  bots (mem (world s1)) !! id = Some l →
  heap (mem (world s1)) !! l = Some e →
  let ws := length (sockets (mem (world s1))) in
  Forall (λ ev, ev ≠ Close ws ∧ ev ≠ Broken ws) post →
  let s3 := run DATA_DIR IMG (step DATA_DIR IMG s1 (Connection (Some id))) post in
  ∃ e3 later sock,
    heap (mem (world s3)) !! l = Some e3
    ∧ appended e3 = appended e ++ later
    ∧ sockets (mem (world s3)) !! ws = Some sock
    ∧ inbox sock = MsgHistory (sliceLast replay (appended e)) :: (MsgLog <$> later)
    ∧ length (sliceLast replay (appended e)) = length (appended e) `min` replay.
Proof.
  intros Hid s1 Hbots He ws Hpost s3.
  assert (Hwf : wellFormed s1) by apply wellFormed_run, wellFormed_boot.
  destruct (proj1 (Forall_lookup _ _) (proj2 Hwf) l e He) as [Hbuf Hls].
  set (s2 := step DATA_DIR IMG s1 (Connection (Some id))).
  assert (Hstart : follows ws (Some l) (appended e)
                     [MsgHistory (sliceLast replay (appended e))] [] (mem (world s2))).
  { subst s2. simpl. unfold onConnection. destruct id as [|a i]; [done|].
    rewrite Hbots, He, (sliceLast_bufferOk e Hbuf). split; [|split].
    - eexists. simpl. split; [by apply list_lookup_middle|]. done.
    - simpl. intros l0 e0 [(<- & <- & _)|[Hne He0]]%list_lookup_insert_Some; [done|].
      intros Hin.
      destruct (proj1 (Forall_lookup _ _) (proj2 Hwf) l0 e0 He0) as [_ Hl0].
      specialize (Hl0 _ Hin). subst ws. lia.
    - simpl. intros l0 [= <-]. eexists. split; [|split].
      + apply list_lookup_insert_eq. by eapply lookup_lt_Some.
      + simpl. apply elem_of_union_r. by apply elem_of_singleton.
      + simpl. by rewrite app_nil_r. }
  destruct (follows_run ws (Some l) (appended e)
              [MsgHistory (sliceLast replay (appended e))] DATA_DIR IMG post s2 [])
    as (later & ((sock & Hsock & Hin & _) & _ & H3) & _);
    [by apply wellFormed_step|done|done|].
  destruct (H3 l eq_refl) as (e3 & He3 & _ & Ha).
  exists e3, later, sock. split_and!; [done|done|done|done|apply sliceLast_length].
Qed.

(** C10.  A socket that connects to the log endpoint of a bundle that has no
    registry entry at that moment is sent no history and is added to no
    listener set: the heap is as before.  Whatever happens afterwards, a new
    start of the bundle included, nothing is ever sent on it and no entry
    takes it as a listener. *)
Theorem unregistered_subscriber_hears_nothing DATA_DIR IMG disk pre post id :
  id ≠ "" →
  let s1 := run DATA_DIR IMG (boot disk) pre in
  bots (mem (world s1)) !! id = None →
  let ws := length (sockets (mem (world s1))) in
  let s2 := step DATA_DIR IMG s1 (Connection (Some id)) in
  let s3 := run DATA_DIR IMG s2 post in
  heap (mem (world s2)) = heap (mem (world s1))
  ∧ sockets (mem (world s2)) !! ws = Some (mkSocket true [] None)
  ∧ (∃ sock, sockets (mem (world s3)) !! ws = Some sock ∧ inbox sock = [])
  ∧ (∀ l e, heap (mem (world s3)) !! l = Some e → ws ∉ listeners e).
Proof.
  intros Hid s1 Hbots ws s2 s3.
  assert (Hwf : wellFormed s1) by apply wellFormed_run, wellFormed_boot.
  assert (E2 : mem (world s2)
               = setSockets (λ ss, ss ++ [mkSocket true [] None]) (mem (world s1))).
  { subst s2. simpl. unfold onConnection. destruct id as [|a i]; [done|]. by rewrite Hbots. }
  assert (Hstart : follows ws None [] [] [] (mem (world s2))).
  { rewrite E2. split; [|split].
    - eexists. simpl. split; [by apply list_lookup_middle|]. by split; [|intros []].
    - simpl. intros l0 e0 He0 Hin.
      destruct (proj1 (Forall_lookup _ _) (proj2 Hwf) l0 e0 He0) as [_ Hl0].
      specialize (Hl0 _ Hin). subst ws. lia.
    - done. }
  destruct (follows_run ws None [] [] DATA_DIR IMG post s2 [])
    as (later & ((sock & Hsock & Hin & _) & H2 & _) & Hl);
    [by apply wellFormed_step|by intros []|done|].
  rewrite (Hl eq_refl) in Hin.
  split_and!.
  - by rewrite E2.
  - rewrite E2. simpl. by apply list_lookup_middle.
  - by exists sock.
  - intros l e He Hws. by specialize (H2 l e He Hws).
Qed.

Lemma subscriber_replay_then_live_witness :
  let pre := [Incoming (Start "b1"); Settle 0 (grants "c1"); Settle 0 (grants "c1");
              Settle 0 (grants "c1"); Settle 0 (grants "c1"); Settle 0 (grants "c1");
              Chunk "c1" "t1" "a"; Chunk "c1" "t2" "b"] in
  let post := [Chunk "c1" "t3" "c"; Connection (Some "b1"); Incoming (Stop "b1");
               Exits "c1" "t4" "{}"] in
  let s1 := run "/srv/data/bots" None (boot sampleDisk) pre in
  let s3 := run "/srv/data/bots" None
              (step "/srv/data/bots" None s1 (Connection (Some "b1"))) post in
  sockets (mem (world s3)) !! 0
  = Some (mkSocket true
            [MsgHistory ["[t1] a"; "[t2] b"]; MsgLog "[t3] c";
             MsgLog "[t4] container exited {}"] (Some 0)).
Proof.
  intros pre post s1 s3.
  destruct (subscriber_replay_then_live "/srv/data/bots" None sampleDisk pre post "b1" 0
              (mkEntry (Some "c1") ["[t1] a"; "[t2] b"] ∅ ["[t1] a"; "[t2] b"]))
    as (e3 & later & sock & He3 & Ha & Hsock & Hin & Hlen);
    [discriminate | reflexivity | reflexivity | repeat constructor; discriminate |].
  reflexivity.
Defined.

Lemma unregistered_subscriber_hears_nothing_witness :
  let post := [Incoming (Start "b1"); Settle 0 (grants "c1"); Settle 0 (grants "c1");
               Settle 0 (grants "c1"); Settle 0 (grants "c1"); Settle 0 (grants "c1");
               Chunk "c1" "t1" "a"; Exits "c1" "t2" "{}"] in
  let s2 := step "/srv/data/bots" None (boot sampleDisk) (Connection (Some "b1")) in
  ∃ sock, sockets (mem (world (run "/srv/data/bots" None s2 post))) !! 0 = Some sock
          ∧ inbox sock = [].
Proof.
  intros post s2.
  destruct (unregistered_subscriber_hears_nothing "/srv/data/bots" None sampleDisk [] post "b1")
    as (_ & _ & H & _); [discriminate | reflexivity | exact H].
Defined.

(** ** The capacity of the buffer *)

(** The ['data'] callback keeps a buffer within its capacity: it pushes the new
    line at the end and, when that makes 2001 lines, drops the oldest. *)
Lemma data_append_keeps_capacity m l e ts chunk :
  heap m !! l = Some e → length (logs e) ≤ capacity →
  ∃ e', heap (onData l ts chunk m) !! l = Some e'
        ∧ logs e' = sliceLast capacity (logs e ++ [stamp ts chunk])
        ∧ length (logs e') ≤ capacity.
Proof.
  intros He Hlen. unfold onData. rewrite He. simpl. eexists. split.
  { apply list_lookup_insert_eq. by eapply lookup_lt_Some. }
  simpl. unfold sliceLast. rewrite length_app. simpl.
  destruct (decide (capacity < length (logs e) + 1)) as [Hfull|Hroom].
  - assert (length (logs e) = capacity) as Heq by lia.
    replace (length (logs e) + 1 - capacity) with 1 by lia.
    destruct (logs e ++ [stamp ts chunk]) as [|x t] eqn:E; [by destruct (logs e)|].
    simpl. rewrite drop_0. split; [done|].
    assert (length (x :: t) = S capacity) as Hl.
    { rewrite <- E, length_app. simpl. lia. }
    simpl in Hl. lia.
  - replace (length (logs e) + 1 - capacity) with 0 by lia.
    rewrite drop_0. split; [done|]. rewrite length_app. simpl. lia.
Qed.

(** C4, where the code departs from it.  Bundle [b1] runs as container [c1];
    its log stream delivers 2000 chunks, which fill the buffer; then the
    container exits.  The exit callback pushes its line without the eviction
    that the ['data'] callback performs, and the buffer holds 2001 lines. *)
Theorem exit_line_overflows_buffer :
  let s := run "/srv/data/bots" None sampleRunning (replicate 2000 (Chunk "c1" "t" "x")) in
  let s' := step "/srv/data/bots" None s (Exits "c1" "t" "{}") in
  (∃ e, heap (mem (world s)) !! 0 = Some e ∧ length (logs e) = capacity)
  ∧ (∃ e', heap (mem (world s')) !! 0 = Some e' ∧ length (logs e') = S capacity).
Proof.
  split; eexists; (split; [vm_compute; reflexivity|vm_compute; reflexivity]).
Qed.

End Fanout.

(* ===================================================================== *)
(** * Two starts at once                                                  *)
(* ===================================================================== *)

Module Race.
Import Server Run Props Lifecycle.

Lemma run_cons DATA_DIR IMG s ev evs :
  run DATA_DIR IMG s (ev :: evs) = run DATA_DIR IMG (step DATA_DIR IMG s ev) evs.
Proof. reflexivity. Qed.

Lemma run_nil DATA_DIR IMG s : run DATA_DIR IMG s [] = s.
Proof. reflexivity. Qed.

Lemma run_app DATA_DIR IMG s evs1 evs2 :
  run DATA_DIR IMG s (evs1 ++ evs2) = run DATA_DIR IMG (run DATA_DIR IMG s evs1) evs2.
Proof. apply foldl_app. Qed.

(** Handle the next event of a run. *)
Ltac calm := cbn -[Path.join String.append run atCreate].

Ltac fire :=
  rewrite run_cons;
  match goal with
  | |- context [step ?D ?I ?s ?ev] =>
      let s' := eval cbn -[Path.join String.append] in (step D I s ev) in
      change (step D I s ev) with s'
  end.

Section TwoStarts.

Variable DATA_DIR : string.
Variable IMG : option string.
Variable w : World.
Variable id : string.
Hypothesis Hdir : pathExists (fs w) (Path.join [DATA_DIR; id]) = true.
Hypothesis Hrun : runningContainer (mem w) id = None.

Ltac probe H := fire; rewrite ?Hdir, ?H; calm; rewrite ?Hrun; calm.

(** Settling the two requests in turn brings both to [createContainer]. *)
Lemma both_reach_create rel :
  resolveSpec (fs w) (Path.join [DATA_DIR; id]) = EntryFound rel →
  ∃ evs, Forall lifecycleEvent evs
    ∧ run DATA_DIR IMG (mkSys w []) (Incoming (Start id) :: Incoming (Start id) :: evs)
      = mkSys w [atCreate DATA_DIR IMG id ("/bot/" +:+ rel);
                 atCreate DATA_DIR IMG id ("/bot/" +:+ rel)].
Proof using Hdir Hrun.
  unfold resolveSpec. simpl list_find.
  set (turn := [Settle 0 (grants ""); Settle 1 (grants "")]).
  destruct (pathExists (fs w) (Path.join [Path.join [DATA_DIR; id]; "index.js"])) eqn:H1.
  { intros Hres. simpl in Hres. injection Hres as <-. exists (turn ++ turn). split; [by repeat constructor|].
    subst turn. simpl app. fire. fire. probe H1. probe H1. probe H1. probe H1.
    by rewrite run_nil, !setMem_mem. }
  destruct (pathExists (fs w) (Path.join [Path.join [DATA_DIR; id]; "app.js"])) eqn:H2.
  { intros Hres. simpl in Hres. injection Hres as <-. exists (turn ++ turn ++ turn). split; [by repeat constructor|].
    subst turn. simpl app. fire. fire. probe H1. probe H1. probe H1. probe H1.
    probe H2. probe H2. by rewrite run_nil, !setMem_mem. }
  destruct (pathExists (fs w) (Path.join [Path.join [DATA_DIR; id]; "server.js"])) eqn:H3.
  { intros Hres. simpl in Hres. injection Hres as <-. exists (turn ++ turn ++ turn ++ turn).
    split; [by repeat constructor|].
    subst turn. simpl app. fire. fire. probe H1. probe H1. probe H1. probe H1.
    probe H2. probe H2. probe H3. probe H3. by rewrite run_nil, !setMem_mem. }
  intros Hres. simpl in Hres.
  destruct (pathExists (fs w) (Path.join [Path.join [DATA_DIR; id]; "package.json"])) eqn:H4;
    [|done].
  destruct (readManifest (fs w) _) as [?|[main|]] eqn:H5; [done| |done].
  injection Hres as <-. exists (turn ++ turn ++ turn ++ turn ++ turn ++ turn).
  split; [by repeat constructor|].
  subst turn. simpl app. fire. fire. probe H1. probe H1. probe H1. probe H1.
  probe H2. probe H2. probe H3. probe H3. probe H4. probe H4. probe H5. probe H5.
  by rewrite run_nil, !setMem_mem.
Qed.

Lemma creating_atCreate ep :
  creating ("bot_" +:+ id) (atCreate DATA_DIR IMG id ep) = true.
Proof. unfold atCreate, launch. simpl. by apply bool_decide_eq_true. Qed.

(** The daemon grants the first creation and refuses the second. *)
Lemma second_create_refused ep cid e :
  ∃ w',
    run DATA_DIR IMG (mkSys w [atCreate DATA_DIR IMG id ep; atCreate DATA_DIR IMG id ep])
      [Settle 0 (grants cid); Settle 1 (refuses e); Settle 0 (grants cid);
       Settle 0 (grants cid)]
    = mkSys w' [Ret (Json200 (Some (Started cid))); Ret (Json500 e)]
    ∧ docker w' = map (setStatus cid Running)
                    (docker w ++ [mkSandbox cid
                       (createOptions IMG id (Path.join [DATA_DIR; id]) ep) Created])
    ∧ runningContainer (mem w') id = Some cid.
Proof using Type.
  eexists. split.
  - fire. fire. fire. fire. rewrite run_nil. reflexivity.
  - split; [reflexivity|]. apply (runningContainer_registerEntry id cid (mem w)).
Qed.

End TwoStarts.

(** C9, as amended.  [startBot] holds no lock: between its already-running
    test and its write to the registry it awaits the disk and the daemon.  Two
    start requests for the same stopped bundle whose steps interleave both
    pass the test and both come to ask the daemon for a container of the name
    of the bundle, with nothing written yet.  What follows is the daemon's
    doing: when it refuses the second container because the name is taken,
    the first request finishes as a start of its own, exactly one sandbox
    exists and the registry shows it, and the second request is answered with
    the daemon's error. *)
Theorem concurrent_starts_not_serialized DATA_DIR IMG w id rel :
  pathExists (fs w) (Path.join [DATA_DIR; id]) = true →
  stopped (mem w) id →
  resolveSpec (fs w) (Path.join [DATA_DIR; id]) = EntryFound rel →
  let opts := createOptions IMG id (Path.join [DATA_DIR; id]) ("/bot/" +:+ rel) in
  ∃ evs, Forall lifecycleEvent evs ∧
    let s := run DATA_DIR IMG (mkSys w [])
               (Incoming (Start id) :: Incoming (Start id) :: evs) in
    world s = w
    ∧ pendingCreates ("bot_" +:+ id) s = 2
    ∧ ∀ cid e,
        let s' := run DATA_DIR IMG s
                    [Settle 0 (grants cid); Settle 1 (refuses e); Settle 0 (grants cid);
                     Settle 0 (grants cid)] in
        answered <$> tasks s' = [Some (Json200 (Some (Started cid))); Some (Json500 e)]
        ∧ docker (world s')
          = map (setStatus cid Running) (docker w ++ [mkSandbox cid opts Created])
        ∧ runningContainer (mem (world s')) id = Some cid.
Proof.
  intros Hdir Hstop%stopped_iff Hres opts.
  destruct (both_reach_create DATA_DIR IMG w id Hdir Hstop rel Hres) as (evs & Hevs & E).
  exists evs. split; [done|]. rewrite E. split; [done|]. split.
  - unfold pendingCreates. simpl tasks.
    rewrite !filter_cons, !creating_atCreate. simpl. reflexivity.
  - intros cid e.
    destruct (second_create_refused DATA_DIR IMG w id ("/bot/" +:+ rel) cid e)
      as (w' & E' & Hd & Hr).
    rewrite E'. by split_and!.
Qed.

Lemma concurrent_starts_not_serialized_witness :
  ∃ evs, Forall lifecycleEvent evs ∧
    pendingCreates "bot_b1"
      (run "/srv/data/bots" None (mkSys sampleWorld [])
         (Incoming (Start "b1") :: Incoming (Start "b1") :: evs)) = 2.
Proof.
  destruct (concurrent_starts_not_serialized "/srv/data/bots" None sampleWorld "b1" "index.js")
    as (evs & Hevs & _ & Hpending & _); [reflexivity..|].
  exists evs. split; [exact Hevs|exact Hpending].
Defined.

(** C9, as stated, fails: two start requests for [b1] arrive together and are
    served in turn; after the second round both are suspended in
    [docker.createContainer] for the same name. *)
Lemma concurrent_starts_race :
  ¬ (∀ disk evs id,
       Forall lifecycleEvent evs →
       pendingCreates ("bot_" +:+ id) (run "/srv/data/bots" None (boot disk) evs) ≤ 1).
Proof.
  intros H.
  specialize (H sampleDisk
                [Incoming (Start "b1"); Incoming (Start "b1");
                 Settle 0 (grants ""); Settle 1 (grants "");
                 Settle 0 (grants ""); Settle 1 (grants "")] "b1").
  assert (Hevs : Forall lifecycleEvent
                   [Incoming (Start "b1"); Incoming (Start "b1");
                    Settle 0 (grants ""); Settle 1 (grants "");
                    Settle 0 (grants ""); Settle 1 (grants "")]) by by repeat constructor.
  specialize (H Hevs). vm_compute in H. lia.
Qed.

(** With a daemon that grants both creations the race shows: two sandboxes
    of the same name run, and the registry knows the second only. *)
Example racing_starts_two_sandboxes :
  let s := run "/srv/data/bots" None (boot sampleDisk)
             [Incoming (Start "b1"); Incoming (Start "b1");
              Settle 0 (grants "c1"); Settle 1 (grants "c2");
              Settle 0 (grants "c1"); Settle 1 (grants "c2");
              Settle 0 (grants "c1"); Settle 1 (grants "c2");
              Settle 0 (grants "c1"); Settle 1 (grants "c2");
              Settle 0 (grants "c1"); Settle 1 (grants "c2")] in
  (sandboxId <$> sandboxesNamed "bot_b1" (world s) = ["c1"; "c2"])
  ∧ (status <$> sandboxesNamed "bot_b1" (world s) = [Running; Running])
  ∧ getStatus (mem (world s)) "b1" = (true, Some "c2").
Proof. vm_compute. by split_and!. Qed.

End Race.


(* ===================================================================== *)
(** * The console of the browser                                          *)
(* ===================================================================== *)

Module ClientFacts.
Import Server Run Props Invariants Fanout Client.

(** A window over a window: what was cut off stays cut off. *)
Lemma sliceLast_sliceLast_app {A : Type} n (a b : list A) :
  sliceLast n (sliceLast n a ++ b) = sliceLast n (a ++ b).
Proof.
  unfold sliceLast. rewrite !length_app, length_drop.
  set (k := length a - n).
  replace (a ++ b) with (take k a ++ (drop k a ++ b))
    by (by rewrite app_assoc, take_drop).
  rewrite (drop_app_ge (take k a)) by (rewrite length_take; lia).
  rewrite length_take. f_equal. lia.
Qed.

Lemma onMessage_window data prev :
  onMessage data (sliceLast window prev) = sliceLast window (prev ++ linesOf data).
Proof.
  destruct data as [[m|logs|m]|]; simpl; rewrite ?app_nil_r; try done.
  - apply sliceLast_sliceLast_app.
  - apply sliceLast_sliceLast_app.
Qed.

Lemma foldl_onMessage prev msgs :
  foldl (λ logs data, onMessage data logs) (sliceLast window prev) msgs
  = sliceLast window (prev ++ concat (linesOf <$> msgs)).
Proof.
  revert prev. induction msgs as [|data msgs IH]; intros prev; simpl.
  - by rewrite app_nil_r.
  - by rewrite onMessage_window, IH, <- app_assoc.
Qed.

Lemma console_window msgs : console msgs = sliceLast window (concat (linesOf <$> msgs)).
Proof.
  unfold console, onOpen. change (@nil string) with (sliceLast window (@nil string)) at 1.
  by rewrite foldl_onMessage.
Qed.

(** X1.  Whatever the socket delivers after it opened, the console shows the
    last 1000 of the lines received, in the order received: the lines of the
    history messages and of the log messages; error messages and data that
    is not JSON leave it as it is.  It never holds more than 1000 lines. *)
Theorem console_is_last_thousand (msgs : list (option Msg)) :
  console msgs = sliceLast window (concat (linesOf <$> msgs))
  ∧ length (console msgs) ≤ window.
Proof.
  split; [apply console_window|]. rewrite console_window, sliceLast_length. lia.
Qed.

Lemma linesOf_logs later : concat (linesOf <$> (Some <$> (MsgLog <$> later))) = later.
Proof. induction later as [|x later IH]; [done|]. rewrite !fmap_cons. simpl. by f_equal. Qed.

(** The socket that connects to a running bundle follows its entry. *)
Lemma follows_connect DATA_DIR IMG s1 id l e :
  wellFormed s1 → id ≠ "" →
  bots (mem (world s1)) !! id = Some l →
  heap (mem (world s1)) !! l = Some e →
  follows (length (sockets (mem (world s1)))) (Some l) (appended e)
    [MsgHistory (sliceLast replay (appended e))] []
    (mem (world (step DATA_DIR IMG s1 (Connection (Some id))))).
Proof.
  intros Hwf Hid Hbots He.
  destruct (proj1 (Forall_lookup _ _) (proj2 Hwf) l e He) as [Hbuf Hls].
  simpl. unfold onConnection. destruct id as [|a i]; [done|].
  rewrite Hbots, He, (sliceLast_bufferOk e Hbuf). split; [|split].
  - eexists. simpl. split; [by apply list_lookup_middle|]. done.
  - simpl. intros l0 e0 [(<- & <- & _)|[Hne He0]]%list_lookup_insert_Some; [done|].
    intros Hin.
    destruct (proj1 (Forall_lookup _ _) (proj2 Hwf) l0 e0 He0) as [_ Hl0].
    specialize (Hl0 _ Hin). lia.
  - simpl. intros l0 [= <-]. eexists. split; [|split].
    + apply list_lookup_insert_eq. by eapply lookup_lt_Some.
    + simpl. apply elem_of_union_r. by apply elem_of_singleton.
    + simpl. by rewrite app_nil_r.
Qed.

(** X2.  The operator selects a running bundle that has produced N lines.
    As long as the socket of the browser stays open, the console shows the
    last 1000 lines of: the min(N, 200) most recent lines of before, followed
    by every line pushed onto the buffer of that instance since. *)
Theorem console_after_connect DATA_DIR IMG disk pre post id l e :
  id ≠ "" →
  let s1 := run DATA_DIR IMG (boot disk) pre in
  bots (mem (world s1)) !! id = Some l →
  heap (mem (world s1)) !! l = Some e →
  let ws := length (sockets (mem (world s1))) in
  Forall (λ ev, ev ≠ Close ws ∧ ev ≠ Broken ws) post →
  let s3 := run DATA_DIR IMG (step DATA_DIR IMG s1 (Connection (Some id))) post in
  ∃ e3 later sock,
    heap (mem (world s3)) !! l = Some e3
    ∧ appended e3 = appended e ++ later
    ∧ sockets (mem (world s3)) !! ws = Some sock
    ∧ console (Some <$> inbox sock)
      = sliceLast window (sliceLast replay (appended e) ++ later).
Proof.
  intros Hid s1 Hbots He ws Hpost s3.
  assert (Hwf : wellFormed s1) by apply wellFormed_run, wellFormed_boot.
  pose proof (follows_connect DATA_DIR IMG s1 id l e Hwf Hid Hbots He) as Hstart.
  destruct (follows_run ws (Some l) (appended e)
              [MsgHistory (sliceLast replay (appended e))] DATA_DIR IMG post
              (step DATA_DIR IMG s1 (Connection (Some id))) [])
    as (later & ((sock & Hsock & Hin & _) & _ & H3) & _);
    [by apply wellFormed_step|done|exact Hstart|].
  destruct (H3 l eq_refl) as (e3 & He3 & _ & Ha).
  exists e3, later, sock. split_and!; [done..|].
  rewrite console_window, Hin. simpl. by rewrite linesOf_logs.
Qed.

Lemma console_after_connect_witness :
  let pre := [Incoming (Start "b1"); Settle 0 (grants "c1"); Settle 0 (grants "c1");
              Settle 0 (grants "c1"); Settle 0 (grants "c1"); Settle 0 (grants "c1");
              Chunk "c1" "t1" "a"] in
  let post := [Chunk "c1" "t2" "b"; Exits "c1" "t3" "0"] in
  let s1 := run "/srv/data/bots" None (boot sampleDisk) pre in
  let s3 := run "/srv/data/bots" None
              (step "/srv/data/bots" None s1 (Connection (Some "b1"))) post in
  ∃ sock, sockets (mem (world s3)) !! 0 = Some sock
          ∧ console (Some <$> inbox sock)
            = ["[t1] a"; "[t2] b"; "[t3] container exited 0"].
Proof.
  intros pre post s1 s3.
  destruct (console_after_connect "/srv/data/bots" None sampleDisk pre post "b1" 0
              (mkEntry (Some "c1") ["[t1] a"] ∅ ["[t1] a"]))
    as (e3 & later & sock & He3 & Ha & Hsock & Hc);
    [discriminate | reflexivity | reflexivity | repeat constructor; discriminate |].
  exists sock. split; [exact Hsock|].
  rewrite Hc. vm_compute in He3. injection He3 as <-.
  vm_compute in Ha. injection Ha as <-. reflexivity.
Defined.

End ClientFacts.

(* ===================================================================== *)
(** * Restart, and starts that fail late                                  *)
(* ===================================================================== *)

Module RestartFacts.
Import Server Run Props StrFacts Lifecycle Callbacks.

(** What [stopBot] leaves behind, whatever the daemon answers. *)
Lemma stopBot_effects id ad w :
  let w1 := (exec (stopBot id) ad w).2 in
  (exec (stopBot id) ad w).1 = Returned tt
  ∧ fs w1 = fs w
  ∧ runningContainer (mem w1) id = None
  ∧ heap (mem w1) = heap (mem w)
  ∧ sockets (mem w1) = sockets (mem w)
  ∧ dataHandlers (mem w1) = dataHandlers (mem w)
  ∧ waitHandlers (mem w1) = waitHandlers (mem w)
  ∧ length (docker w1) = length (docker w).
Proof.
  rewrite exec_stopBot. destruct (runningContainer (mem w) id) as [cid|] eqn:Hrun.
  - assert (Hdel : ∀ m, runningContainer (setBots (delete id) m) id = None).
    { intros m. apply stopped_iff, stopped_delete. }
    destruct (stopReply ad) as [[]|e]; simpl; rewrite Hdel, ?length_map; by split_and!.
  - simpl. by split_and!.
Qed.

(** The restart route, run alone, in closed form. *)
Lemma exec_postRestart DATA_DIR IMG id ad w :
  exec (postRestart DATA_DIR IMG id) ad w =
    match exec (startBot DATA_DIR IMG id) ad (exec (stopBot id) ad w).2 with
    | (Returned _, w') => (Returned (Json200 None), w')
    | (Thrown e, w') => (Returned (Json500 e), w')
    end.
Proof.
  unfold postRestart, mbind, prog_bind. rewrite exec_tryCatch, exec_bind.
  destruct (stopBot_effects id ad w) as [Hret _]. revert Hret.
  destruct (exec (stopBot id) ad w) as [[[]|e] w1]; cbn [fst snd]; [intros _|discriminate].
  rewrite exec_bind. by destruct (exec (startBot DATA_DIR IMG id) ad w1) as [[r|e] w'].
Qed.

(** X3.  A restart that the daemon grants, of a bundle whose directory and
    entry point exist, answers ok whether the bundle ran or not and whatever
    the daemon said to the stop.  The registry then holds a new entry object
    for the new container: its log buffer is empty and it has no listener.
    The entry objects of earlier runs are as they were, listeners included, so
    no socket that was open before the restart is subscribed to the new run.
    The daemon holds one sandbox more than before. *)
Theorem restart_registers_fresh_entry DATA_DIR IMG id ad w cid rel :
  pathExists (fs w) (Path.join [DATA_DIR; id]) = true →
  resolveSpec (fs w) (Path.join [DATA_DIR; id]) = EntryFound rel →
  createReply ad = Resolved cid → startReply ad = Resolved tt → logsReply ad = Resolved tt →
  ∃ w', exec (postRestart DATA_DIR IMG id) ad w = (Returned (Json200 None), w')
    ∧ bots (mem w') !! id = Some (length (heap (mem w)))
    ∧ heap (mem w') = heap (mem w) ++ [mkEntry (Some cid) [] ∅ []]
    ∧ lookupEntry (mem w') id = Some (mkEntry (Some cid) [] ∅ [])
    ∧ sockets (mem w') = sockets (mem w)
    ∧ length (docker w') = S (length (docker w)).
Proof.
  intros Hdir Hres Hc Hs Hl.
  destruct (stopBot_effects id ad w) as (_ & Hfs & Hrun & Hheap & Hsock & _ & _ & Hd).
  rewrite exec_postRestart, exec_startBot. cbv zeta.
  set (w1 := (exec (stopBot id) ad w).2) in *.
  rewrite Hfs, Hdir, Hrun, Hres, Hc, Hs, Hl.
  eexists. split; [reflexivity|].
  cbn [mem fs docker setMem setDocker registerEntry snd setWaitHandlers setDataHandlers
       setBots setHeap bots heap sockets].
  rewrite Hheap, Hsock.
  split; [apply lookup_insert_eq|]. split; [done|]. split; [|split; [done|]].
  - clearbody w1. unfold lookupEntry. simpl. rewrite Hheap, lookup_insert_eq. simpl.
    by rewrite list_lookup_middle.
  - rewrite length_map, length_app, Hd. simpl. lia.
Qed.

Lemma restart_registers_fresh_entry_witness :
  ∃ w', exec (postRestart "/srv/data/bots" None "b1")
          (mkAdapter (Resolved "c2") (Resolved tt) (Resolved tt) (Rejected "Error: gone"))
          (world sampleRunning)
        = (Returned (Json200 None), w')
    ∧ heap (mem w') = [mkEntry (Some "c1") [] {[0]} []; mkEntry (Some "c2") [] ∅ []]
    ∧ bots (mem w') !! "b1" = Some 1.
Proof.
  destruct (restart_registers_fresh_entry "/srv/data/bots" None "b1"
              (mkAdapter (Resolved "c2") (Resolved tt) (Resolved tt) (Rejected "Error: gone"))
              (world sampleRunning) "c2" "index.js")
    as (w' & Hexec & Hbots & Hheap & _); [reflexivity..|].
  exists w'. split; [exact Hexec|]. split; [|exact Hbots].
  rewrite Hheap. vm_compute. reflexivity.
Defined.

(** X4.  A restart that answers an error has stopped the bundle all the
    same: afterwards the bundle reports as stopped, whether no directory, no
    entry point or the daemon was the cause.  The one exception is a failure
    to attach the log stream: then the bundle is registered with the container
    that was just created. *)
Theorem restart_failure_leaves_stopped DATA_DIR IMG id ad w e w' :
  exec (postRestart DATA_DIR IMG id) ad w = (Returned (Json500 e), w') →
  stopped (mem w') id
  ∨ (logsReply ad = Rejected e
     ∧ ∃ cid, createReply ad = Resolved cid ∧ runningContainer (mem w') id = Some cid).
Proof.
  destruct (stopBot_effects id ad w) as (_ & _ & Hrun & _).
  rewrite exec_postRestart, exec_startBot. cbv zeta.
  set (w1 := (exec (stopBot id) ad w).2) in *. rewrite Hrun.
  apply stopped_iff in Hrun.
  destruct (pathExists (fs w1) _); [|by intros [= <- <-]; left].
  destruct (resolveSpec (fs w1) _); [|by intros [= <- <-]; left..].
  destruct (createReply ad) as [cid|]; [|by intros [= <- <-]; left].
  destruct (startReply ad) as [[]|]; [|by intros [= <- <-]; left].
  destruct (logsReply ad) as [[]|e']; [done|].
  intros [= <- <-]. right. split; [done|]. exists cid. split; [done|].
  apply (runningContainer_registerEntry id cid (mem w1)).
Qed.

Lemma restart_failure_leaves_stopped_witness :
  ∃ w', exec (postRestart "/srv/data/bots" None "b1") (refuses "Error: conflict")
          (world sampleRunning)
        = (Returned (Json500 "Error: conflict"), w')
    ∧ runningContainer (mem (world sampleRunning)) "b1" = Some "c1"
    ∧ stopped (mem w') "b1".
Proof.
  eexists. split; [reflexivity|]. split; [reflexivity|].
  destruct (restart_failure_leaves_stopped "/srv/data/bots" None "b1"
              (refuses "Error: conflict") (world sampleRunning) "Error: conflict" _ eq_refl)
    as [H|[H _]]; [exact H|discriminate H].
Defined.

(** X5.  When the log stream cannot be attached, the start route answers
    the error although the container runs and is registered: the bundle
    reports as running and a further start answers that it runs already.
    Neither the data callback nor the exit callback was installed, so the
    exit of that container does not take the bundle out of the registry. *)
Theorem start_without_log_stream DATA_DIR IMG id ad w cid rel e :
  pathExists (fs w) (Path.join [DATA_DIR; id]) = true →
  runningContainer (mem w) id = None →
  resolveSpec (fs w) (Path.join [DATA_DIR; id]) = EntryFound rel →
  createReply ad = Resolved cid → startReply ad = Resolved tt → logsReply ad = Rejected e →
  ∃ w', exec (postStart DATA_DIR IMG id) ad w = (Returned (Json500 e), w')
    ∧ runningContainer (mem w') id = Some cid
    ∧ dataHandlers (mem w') = dataHandlers (mem w)
    ∧ waitHandlers (mem w') = waitHandlers (mem w)
    ∧ (∀ ad', exec (postStart DATA_DIR IMG id) ad' w'
              = (Returned (Json200 (Some (AlreadyRunning cid))), w'))
    ∧ (filter (λ h, h.1 = cid) (waitHandlers (mem w)) = [] →
       ∀ ts res, runningContainer (fireExit cid ts res (mem w')) id = Some cid).
Proof.
  intros Hdir Hrun Hres Hc Hs Hl.
  rewrite exec_postStart, exec_startBot. cbv zeta. rewrite Hdir, Hrun, Hres, Hc, Hs, Hl.
  eexists. split; [reflexivity|].
  pose proof (runningContainer_registerEntry id cid (mem w)) as Hreg.
  cbn [mem fs docker setMem setDocker]. split; [exact Hreg|].
  split; [done|]. split; [done|]. split.
  - intros ad'. rewrite exec_postStart, exec_startBot. cbv zeta.
    cbn [mem fs docker setMem setDocker]. by rewrite Hdir, Hreg.
  - intros Hnone ts res. rewrite fireExit_none; [exact Hreg|exact Hnone].
Qed.

Lemma start_without_log_stream_witness :
  ∃ w', exec (postStart "/srv/data/bots" None "b1")
          (mkAdapter (Resolved "c1") (Resolved tt) (Rejected "Error: socket hang up")
             (Resolved tt)) sampleWorld
        = (Returned (Json500 "Error: socket hang up"), w')
    ∧ getStatus (mem w') "b1" = (true, Some "c1")
    ∧ waitHandlers (mem w') = [].
Proof.
  destruct (start_without_log_stream "/srv/data/bots" None "b1"
              (mkAdapter (Resolved "c1") (Resolved tt) (Rejected "Error: socket hang up")
                 (Resolved tt)) sampleWorld "c1" "index.js" "Error: socket hang up")
    as (w' & Hexec & Hrun & _ & Hw & _); [reflexivity..|].
  exists w'. split; [exact Hexec|]. split; [|exact Hw].
  unfold getStatus. rewrite Hrun. reflexivity.
Defined.

(** X6.  The sandbox that [startBot] asks for runs [node] on the file that
    the resolver found, named relative to the bundle root: the prefix
    [/bot/] that the resolver puts in front is taken off again.  The bundle
    directory is mounted at [/bot], which is the working directory; the
    sandbox is named after the bundle and has no network. *)
Theorem sandbox_runs_resolved_file DATA_DIR IMG id ad w cid rel :
  pathExists (fs w) (Path.join [DATA_DIR; id]) = true →
  runningContainer (mem w) id = None →
  resolveSpec (fs w) (Path.join [DATA_DIR; id]) = EntryFound rel →
  createReply ad = Resolved cid →
  ∃ sb, sb ∈ docker (exec (startBot DATA_DIR IMG id) ad w).2
    ∧ sandboxId sb = cid
    ∧ Cmd (options sb) = ["node"; rel]
    ∧ Binds (options sb) = [Path.join [DATA_DIR; id] +:+ ":/bot:rw"]
    ∧ WorkingDir (options sb) = "/bot"
    ∧ NetworkMode (options sb) = "none"
    ∧ name (options sb) = "bot_" +:+ id.
Proof.
  intros Hdir Hrun Hres Hc.
  set (opts := createOptions IMG id (Path.join [DATA_DIR; id]) ("/bot/" +:+ rel)).
  assert (Hcmd : Cmd opts = ["node"; rel]).
  { unfold opts, createOptions. cbn [Cmd]. by rewrite removeFirst_prefix. }
  assert (Hin : ∃ st, mkSandbox cid opts st ∈ docker (exec (startBot DATA_DIR IMG id) ad w).2).
  { rewrite exec_startBot. cbv zeta. rewrite Hdir, Hrun, Hres, Hc. fold opts.
    assert (Hrunning : mkSandbox cid opts Running
                       ∈ map (setStatus cid Running) (docker w ++ [mkSandbox cid opts Created])).
    { rewrite map_app. apply elem_of_app. right. simpl. unfold setStatus. simpl.
      rewrite decide_True by done. by apply list_elem_of_singleton. }
    destruct (startReply ad) as [[]|].
    - exists Running. by destruct (logsReply ad) as [[]|].
    - exists Created. simpl. apply elem_of_app. right. by apply list_elem_of_singleton. }
  destruct Hin as [st Hin]. exists (mkSandbox cid opts st). by split_and!.
Qed.

Lemma sandbox_runs_resolved_file_witness :
  ∃ sb, sb ∈ docker (exec (startBot "/srv/data/bots" None "b3") (grants "c3") sampleWorld).2
    ∧ Cmd (options sb) = ["node"; "bot.js"]
    ∧ Binds (options sb) = ["/srv/data/bots/b3:/bot:rw"].
Proof.
  destruct (sandbox_runs_resolved_file "/srv/data/bots" None "b3" (grants "c3") sampleWorld
              "c3" "bot.js") as (sb & Hin & _ & Hcmd & Hb & _); [reflexivity..|].
  exists sb. split; [exact Hin|]. split; [exact Hcmd|]. rewrite Hb. reflexivity.
Defined.






End RestartFacts.

(* ===================================================================== *)
(** * Deleting a bundle                                                   *)
(* ===================================================================== *)

Module DeleteFacts.
Import Str StrFacts Path PathFacts Server Run Props Routes Lifecycle RestartFacts.

Lemma lexical_absolute segs : Forall plain segs → lexical (absolute segs) = segs.
Proof.
  intros H. unfold lexical, normalizeSegments.
  assert (isAbsolute (absolute segs) = true) as -> by done. simpl negb.
  by rewrite foldl_push_absolute, app_nil_r, rev_involutive.
Qed.

(** [path.join(DATA_DIR, '..')] is the directory above the data directory. *)
Lemma join_parent dd d :
  Forall plain (dd ++ [d]) → Path.join [absolute (dd ++ [d]); ".."] = absolute dd.
Proof.
  intros H.
  assert (E : joinArgs None [absolute (dd ++ [d]); ".."]
              = Some (absolute (dd ++ [d]) +:+ String slash "..")).
  { unfold absolute. by rewrite sapp_cons. }
  unfold Path.join. rewrite E, normalize_absolute by done.
  unfold normalizeSegments. rewrite split_app, foldl_app, foldl_push_absolute by done.
  rewrite app_nil_r, rev_app_distr.
  assert (foldl (pushSegment false) (rev [d] ++ rev dd) (split slash "..") = rev dd) as ->.
  { apply Forall_app in H as [_ Hd]. inversion Hd as [|? ? (_ & _ & _ & Hne) _]; subst.
    change (split slash "..") with [".."]. simpl. unfold pushSegment.
    rewrite decide_False by (by intros [?|?]). rewrite decide_True by done.
    by rewrite decide_False. }
  rewrite rev_involutive.
  assert (endsWithChar (absolute (dd ++ [d]) +:+ String slash "..") slash = false) as ->.
  { change (String slash "..") with ("/" +:+ "..").
    rewrite <- sapp_assoc. by apply endsWithChar_app_plain. }
  unfold absolute. by destruct (Str.join "/" dd).
Qed.

Lemma removeTree_paths dir disk p :
  p ∈ paths (removeTree dir disk) ↔ p ∈ paths disk ∧ ¬ under dir p.
Proof. unfold removeTree. simpl. rewrite elem_of_filter. tauto. Qed.

(** The delete route always answers, and what it leaves. *)
Lemma deleteBot_closed DATA_DIR id ad w :
  let w1 := if bool_decide (is_Some (bots (mem w) !! id))
            then (exec (stopBot id) ad w).2 else w in
  deleteBot DATA_DIR id ad w
  = (Answered (Json200 None),
     mkWorld (mem w1) (removeTree (Path.join [DATA_DIR; id]) (fs w)) (docker w1))
  ∧ runningContainer (mem w1) id = None
  ∧ length (docker w1) = length (docker w).
Proof.
  unfold deleteBot. destruct (bool_decide (is_Some (bots (mem w) !! id))) eqn:Hhas.
  - destruct (stopBot_effects id ad w) as (Hret & Hfs & Hrun & _ & _ & _ & _ & Hd).
    revert Hret Hfs Hrun Hd.
    destruct (exec (stopBot id) ad w) as [[[]|e] w1]; cbn [fst snd]; [|discriminate].
    by intros _ -> ? ?.
  - split; [done|]. split; [|done].
    apply bool_decide_eq_false in Hhas. unfold runningContainer, lookupEntry.
    destruct (bots (mem w) !! id) eqn:E; [|done]. destruct Hhas. by eexists.
Qed.



(** X9.  The delete route does not look at the id.  With the id [..] the
    directory it removes is the one above the data directory: the data
    directory and every bundle in it are gone, and the route answers ok. *)
Theorem delete_parent_directory (dd : list string) (d : string) ad w :
  Forall plain (dd ++ [d]) →
  let DATA_DIR := absolute (dd ++ [d]) in
  ∃ w', deleteBot DATA_DIR ".." ad w = (Answered (Json200 None), w')
    ∧ (DATA_DIR ∉ paths (fs w'))
    ∧ (∀ rest, Forall plain rest → absolute (dd ++ d :: rest) ∉ paths (fs w')).
Proof.
  intros Hdd DATA_DIR. subst DATA_DIR.
  destruct (deleteBot_closed (absolute (dd ++ [d])) ".." ad w) as (Hdel & _).
  eexists. split; [exact Hdel|]. cbn [fs].
  assert (Hgone : ∀ rest, Forall plain rest →
            absolute (dd ++ d :: rest)
            ∉ paths (removeTree (Path.join [absolute (dd ++ [d]); ".."]) (fs w))).
  { intros rest Hrest [_ Hout]%removeTree_paths. apply Hout.
    unfold under. rewrite join_parent by done.
    apply Forall_app in Hdd as [Hdd Hd].
    rewrite (lexical_absolute dd Hdd), (lexical_absolute (dd ++ d :: rest)); [by eexists|].
    apply Forall_app. split; [done|]. inversion Hd; by constructor. }
  split; [|exact Hgone].
  apply (Hgone []). constructor.
Qed.

Lemma delete_parent_directory_witness :
  ∃ w', deleteBot "/srv/data/bots" ".." (grants "c1") sampleWorld
        = (Answered (Json200 None), w')
    ∧ ("/srv/data/bots/b1/index.js" ∉ paths (fs w'))
    ∧ ("/srv/data/bots" ∉ paths (fs w')).
Proof.
  assert (Hdd : Forall plain (["srv"; "data"] ++ ["bots"])) by (simpl; FileGuard.solve_plain).
  destruct (delete_parent_directory ["srv"; "data"] "bots" (grants "c1") sampleWorld Hdd)
    as (w' & Hdel & Hdata & Hgone).
  exists w'. split; [exact Hdel|]. split; [|exact Hdata].
  apply (Hgone ["b1"; "index.js"]). FileGuard.solve_plain.
Defined.

End DeleteFacts.

(* ===================================================================== *)
(** * What holds of the registry and of the sockets at every moment       *)
(* ===================================================================== *)

Module RunInvariants.
Import Server Run Props MoreProps Lifecycle Callbacks Invariants Fanout.

(** ** A property of the memory that every event keeps *)

Section Preserved.

Variable DATA_DIR : string.
Variable IMG : option string.

(** [Inv] is the property of the memory, [Safe] what is asked of the requests
    in flight. *)
Variable Inv : Mem → Prop.
Variable Safe : Prog Response → Prop.

Hypothesis Safe_handler : ∀ r, Safe (handler DATA_DIR IMG r).
Hypothesis Safe_resume : ∀ X (op : Op X) k x, Safe (Await op k) → Safe (k x).
Hypothesis Inv_runSync : ∀ p m, Safe p → Inv m → Safe (runSync p m).1 ∧ Inv (runSync p m).2.
Hypothesis Inv_onData : ∀ l ts chunk m, Inv m → Inv (onData l ts chunk m).
Hypothesis Inv_onExited : ∀ l id ts res m, Inv m → Inv (onExited l id ts res m).
Hypothesis Inv_waitHandlers : ∀ f m, Inv m → Inv (setWaitHandlers f m).
Hypothesis Inv_console : ∀ f m, Inv m → Inv (setConsole f m).
Hypothesis Inv_onConnection : ∀ botId m, Inv m → Inv (onConnection botId m).
Hypothesis Inv_onClose : ∀ ws m, Inv m → Inv (onClose ws m).
Hypothesis Inv_onBroken : ∀ ws m, Inv m → Inv (onBroken ws m).

Lemma preserved_fold {H : Type} (F : H → Mem → Mem) (P : H → Prop)
    `{∀ h, Decision (P h)} (hs : list H) m :
  (∀ h m, Inv m → Inv (F h m)) →
  Inv m → Inv (foldl (λ m h, if decide (P h) then F h m else m) m hs).
Proof using Type.
  intros HF. revert m. induction hs as [|h hs IH]; intros m Hm; [done|].
  simpl. apply IH. destruct (decide (P h)); [by apply HF|done].
Qed.

Lemma preserved_step s ev :
  Forall Safe (tasks s) ∧ Inv (mem (world s)) →
  Forall Safe (tasks (step DATA_DIR IMG s ev)) ∧ Inv (mem (world (step DATA_DIR IMG s ev))).
Proof using All.
  intros [Ht Hm].
  destruct ev as [r|t ad|cid ts chunk|cid ts res|cid err|botId|ws|ws|fs']; simpl.
  - destruct (Inv_runSync (handler DATA_DIR IMG r) (mem (world s))) as [Hp Hi]; [done..|].
    destruct (runSync _ _) as [p m]. simpl in *. split; [|done].
    apply Forall_app. split; [done|]. by constructor.
  - destruct (tasks s !! t) as [[r|e|X op k|X f k]|] eqn:Etask; try done.
    pose proof (proj1 (Forall_lookup _ _) Ht t _ Etask) as Hk.
    pose proof (answer_mem op ad (world s)) as Hmem.
    destruct (answer op ad (world s)) as [x w']. simpl in Hmem.
    destruct (Inv_runSync (k x) (mem w')) as [Hp Hi];
      [by eapply Safe_resume|by rewrite Hmem|].
    destruct (runSync _ _) as [p m]. simpl in *. split; [|done].
    by apply Forall_insert.
  - split; [done|]. unfold fireData.
    apply (preserved_fold (λ h, onData h.2 ts chunk) (λ h, h.1 = cid)); [|done].
    intros. by apply Inv_onData.
  - split; [done|]. unfold fireExit. apply Inv_waitHandlers.
    apply (preserved_fold (λ h, onExited h.2.1 h.2.2 ts res) (λ h, h.1 = cid)); [|done].
    intros. by apply Inv_onExited.
  - split; [done|]. unfold fireWaitError. apply Inv_waitHandlers.
    apply (preserved_fold (λ _, setConsole (λ c, c ++ ["wait err " +:+ err]))
             (λ h, h.1 = cid)); [|done].
    intros. by apply Inv_console.
  - split; [done|]. by apply Inv_onConnection.
  - split; [done|]. by apply Inv_onClose.
  - split; [done|]. by apply Inv_onBroken.
  - done.
Qed.

Lemma preserved_run s evs :
  Forall Safe (tasks s) ∧ Inv (mem (world s)) →
  Forall Safe (tasks (run DATA_DIR IMG s evs)) ∧ Inv (mem (world (run DATA_DIR IMG s evs))).
Proof using All.
  revert s. induction evs as [|ev evs IH]; intros s Hs; [done|].
  simpl. apply IH. by apply preserved_step.
Qed.

End Preserved.

(** ** The registry *)

Lemma registryOk_update m m' :
  (∀ id l, bots m' !! id = Some l →
     bots m !! id = Some l ∨ ∃ e, heap m' !! l = Some e ∧ is_Some (container e)) →
  (∀ l e, heap m !! l = Some e → ∃ e', heap m' !! l = Some e' ∧ container e' = container e) →
  registryOk m → registryOk m'.
Proof.
  intros Hb Hh Hm id l Hl. destruct (Hb id l Hl) as [Hold|Hnew]; [|done].
  destruct (Hm id l Hold) as (e & He & Hc). destruct (Hh l e He) as (e' & He' & Hc').
  exists e'. by rewrite Hc'.
Qed.

Lemma registryOk_same m m' :
  bots m' = bots m → heap m' = heap m → registryOk m → registryOk m'.
Proof. unfold registryOk. by intros -> ->. Qed.

(** One entry is replaced by one with the same container. *)
Lemma registryOk_entry m l e e' :
  heap m !! l = Some e → container e' = container e →
  registryOk m → registryOk (setHeap (<[l := e']>) m).
Proof.
  intros He Hc. apply registryOk_update; [by left|]. simpl.
  intros l0 e0 He0. destruct (decide (l0 = l)) as [->|Hne].
  - exists e'. rewrite list_lookup_insert_eq by (by eapply lookup_lt_Some). by simplify_eq.
  - exists e0. by rewrite list_lookup_insert_ne.
Qed.

Lemma registryOk_delete id m : registryOk m → registryOk (setBots (delete id) m).
Proof.
  apply registryOk_update; [|by eauto]. simpl.
  intros id' l [_ H]%lookup_delete_Some. by left.
Qed.

Lemma tidyProg_bind {A B : Type} (p : Prog A) (k : A → Prog B) :
  tidyProg p → (∀ r, tidyProg (k r)) → tidyProg (bind p k).
Proof.
  intros Hp Hk. induction p as [r|e|X op k' IH|X f k' IH]; simpl in *; [done..| |].
  - intros x. by apply IH.
  - destruct Hp as [Hf Hp]. split; [done|]. intros x. by apply IH.
Qed.

Lemma tidyProg_tryCatch {A : Type} (p : Prog A) (h : string → Prog A) :
  tidyProg p → (∀ e, tidyProg (h e)) → tidyProg (tryCatch p h).
Proof.
  intros Hp Hh. induction p as [r|e|X op k' IH|X f k' IH]; simpl in *; [done..| |].
  - intros x. by apply IH.
  - destruct Hp as [Hf Hp]. split; [done|]. intros x. by apply IH.
Qed.

Lemma tidySync_same {X : Type} (f : Mem → X * Mem) :
  (∀ m, bots (f m).2 = bots m ∧ heap (f m).2 = heap m) → tidySync f.
Proof. intros H m. destruct (H m). by apply registryOk_same. Qed.

Lemma tidyProg_awaitReply {X : Type} (op : Op (Reply X)) : tidyProg (awaitReply op).
Proof. by intros [?|?]. Qed.

Lemma tidyProg_discoverEntryPoint dir : tidyProg (discoverEntryPoint dir).
Proof.
  unfold discoverEntryPoint. apply tidyProg_bind.
  - induction candidates as [|c cs IH]; [done|]. simpl. by intros [].
  - intros [e|]; [done|]. unfold findMain. simpl. intros []; [|done].
    simpl. by intros [?|[?|]].
Qed.

Lemma tidySync_registerEntry id cid : tidySync (registerEntry id cid).
Proof.
  intros m. apply registryOk_update; simpl.
  - intros id' l [[<- <-]|[_ H]]%lookup_insert_Some; [right|by left].
    eexists. by rewrite list_lookup_middle.
  - intros l e He. exists e. split; [|done]. by apply lookup_app_l_Some.
Qed.

Lemma tidyProg_startBot DATA_DIR IMG id : tidyProg (startBot DATA_DIR IMG id).
Proof.
  unfold startBot. apply tidyProg_bind; [done|]. intros ex.
  destruct (negb ex); [done|].
  apply tidyProg_bind; [split; [by apply tidySync_same|done]|]. intros [cid|]; [done|].
  apply tidyProg_bind; [apply tidyProg_discoverEntryPoint|]. intros [entryPoint|]; [|done].
  unfold launch.
  apply tidyProg_bind; [apply tidyProg_awaitReply|]. intros cid.
  apply tidyProg_bind; [apply tidyProg_awaitReply|]. intros _.
  apply tidyProg_bind; [split; [apply tidySync_registerEntry|done]|].
  intros entry. apply tidyProg_bind; [apply tidyProg_awaitReply|]. intros _.
  apply tidyProg_bind; [split; [by apply tidySync_same|done]|]. intros _.
  apply tidyProg_bind; [split; [by apply tidySync_same|done]|]. done.
Qed.

Lemma tidyProg_stopBot id : tidyProg (stopBot id).
Proof.
  unfold stopBot. apply tidyProg_bind; [split; [by apply tidySync_same|done]|].
  intros [cid|]; [|done].
  apply tidyProg_bind.
  - apply tidyProg_tryCatch; [apply tidyProg_awaitReply|].
    intros e. split; [by apply tidySync_same|done].
  - intros _. split; [|done]. intros m. apply registryOk_delete.
Qed.

Lemma tidyProg_handler DATA_DIR IMG r : tidyProg (handler DATA_DIR IMG r).
Proof.
  destruct r as [id|id|id]; unfold handler, postStart, postStop, postRestart.
  - apply tidyProg_tryCatch; [|done].
    apply tidyProg_bind; [apply tidyProg_startBot|done].
  - apply tidyProg_tryCatch; [|done].
    apply tidyProg_bind; [apply tidyProg_stopBot|done].
  - apply tidyProg_tryCatch; [|done].
    apply tidyProg_bind; [apply tidyProg_stopBot|]. intros _.
    apply tidyProg_bind; [apply tidyProg_startBot|done].
Qed.

Lemma runSync_tidy {R : Type} (p : Prog R) m :
  tidyProg p → registryOk m → tidyProg (runSync p m).1 ∧ registryOk (runSync p m).2.
Proof.
  revert m. induction p as [r|e|X op k IH|X f k IH]; intros m Hp Hm; [done..|].
  destruct Hp as [Hf Hk]. simpl. specialize (Hf m Hm).
  destruct (f m) as [x m1]. by apply IH.
Qed.

Lemma registryOk_onData l ts chunk m : registryOk m → registryOk (onData l ts chunk m).
Proof.
  intros Hm. unfold onData. destruct (heap m !! l) as [e|] eqn:He; [|done].
  exact (registryOk_entry m l e (pushLog _ _ e) He eq_refl Hm).
Qed.

Lemma registryOk_onExited l id ts res m : registryOk m → registryOk (onExited l id ts res m).
Proof.
  intros Hm. unfold onExited.
  destruct (heap m !! l) as [e|] eqn:He; [|by apply registryOk_delete].
  apply registryOk_delete. exact (registryOk_entry m l e (pushLog _ _ e) He eq_refl Hm).
Qed.

Lemma registryOk_onConnection botId m : registryOk m → registryOk (onConnection botId m).
Proof.
  intros Hm. unfold onConnection.
  destruct botId as [[|a botId]|]; [done| |done].
  destruct (bots m !! String a botId) as [l|]; [|done].
  destruct (heap m !! l) as [e|] eqn:He; [|done].
  by apply (registryOk_entry _ l e).
Qed.

Lemma registryOk_onClose ws m : registryOk m → registryOk (onClose ws m).
Proof.
  intros Hm. unfold onClose. destruct (sockets m !! ws) as [s|]; [|done].
  destruct (captured s) as [l|]; [|done]. simpl.
  destruct (heap m !! l) as [e|] eqn:He; [|done].
  by apply (registryOk_entry _ l e).
Qed.

Lemma registryOk_onBroken ws m : registryOk m → registryOk (onBroken ws m).
Proof. intros Hm. unfold onBroken. by destruct (sockets m !! ws). Qed.

Lemma registryOk_run DATA_DIR IMG disk evs :
  registryOk (mem (world (run DATA_DIR IMG (boot disk) evs))).
Proof.
  apply (preserved_run DATA_DIR IMG registryOk tidyProg).
  - apply tidyProg_handler.
  - intros X op k x H. apply H.
  - intros p m. apply runSync_tidy.
  - apply registryOk_onData.
  - apply registryOk_onExited.
  - done.
  - done.
  - apply registryOk_onConnection.
  - apply registryOk_onClose.
  - apply registryOk_onBroken.
  - split; [by apply Forall_nil|]. by intros id l Hl.
Qed.

(** X10.  Whatever has happened since the server came up, an id in the
    registry leads to an entry object that holds a container: [bots.has(id)]
    and "the bundle runs" are the same, and the test for an entry without
    container never decides anything.  So the registry has no entry for a
    bundle exactly when the bundle reports as stopped, and [stopBot] takes
    every id it finds out of the registry. *)
Theorem registry_holds_running_only DATA_DIR IMG disk evs id :
  let m := mem (world (run DATA_DIR IMG (boot disk) evs)) in
  (is_Some (bots m !! id) ↔ is_Some (runningContainer m id))
  ∧ (bots m !! id = None ↔ stopped m id)
  ∧ (∀ ad, bots (mem (exec (stopBot id) ad (world (run DATA_DIR IMG (boot disk) evs))).2)
           !! id = None).
Proof.
  intros m. pose proof (registryOk_run DATA_DIR IMG disk evs) as Hreg. subst m.
  set (s := run DATA_DIR IMG (boot disk) evs) in *. clearbody s.
  set (m := mem (world s)) in *.
  assert (Hiff : is_Some (bots m !! id) ↔ is_Some (runningContainer m id)).
  { unfold runningContainer, lookupEntry. split.
    - intros [l Hl]. destruct (Hreg id l Hl) as (e & He & Hc). rewrite Hl. simpl.
      by rewrite He.
    - intros [cid H]. destruct (bots m !! id); [by eexists|done]. }
  split; [done|]. split.
  - rewrite stopped_iff, !eq_None_not_Some. by rewrite Hiff.
  - intros ad. rewrite exec_stopBot. fold m.
    destruct (runningContainer m id) as [cid|] eqn:Hrun.
    + destruct (stopReply ad) as [[]|]; apply lookup_delete_eq.
    + simpl. fold m. apply eq_None_not_Some. rewrite Hiff. by intros [? [=]].
Qed.

(** ** The sockets *)

Lemma replayed_send msg sock :
  replayed sock →
  replayed (send (MsgLog msg) sock) ∧ captured (send (MsgLog msg) sock) = captured sock.
Proof.
  intros (history & later & Hin & Hlen). unfold send. destruct (alive sock); [|by split; [exists history, later|]].
  split; [|done]. exists history, (later ++ [msg]). simpl.
  by rewrite Hin, fmap_app.
Qed.

Lemma inboxShape_dead sock :
  inboxShape sock → inboxShape (mkSocket false (inbox sock) (captured sock)).
Proof.
  intros [H|[(H & _ & Hc)|H]]; [by left| |by right; right].
  right; left. by split_and!.
Qed.

(** How the sockets and the listeners may change. *)
Lemma socketsOk_update m m' :
  Forall inboxShape (sockets m') →
  (∀ ws sock, sockets m !! ws = Some sock → replayed sock →
     ∃ sock', sockets m' !! ws = Some sock'
              ∧ captured sock' = captured sock ∧ replayed sock') →
  (∀ l e' ws, heap m' !! l = Some e' → ws ∈ listeners e' →
     (∃ e, heap m !! l = Some e ∧ ws ∈ listeners e)
     ∨ (∃ sock', sockets m' !! ws = Some sock'
                 ∧ captured sock' = Some l ∧ replayed sock')) →
  socketsOk m → socketsOk m'.
Proof.
  intros Hshape Hsock Hheap [_ Hm]. split; [done|].
  intros l e' ws He' Hws. destruct (Hheap l e' ws He' Hws) as [(e & He & Hin)|?]; [|done].
  destruct (Hm l e ws He Hin) as (sock & Hs & Hc & Hr).
  destruct (Hsock ws sock Hs Hr) as (sock' & ? & Hc' & ?).
  exists sock'. by rewrite Hc'.
Qed.

Lemma socketsOk_frame m m' new :
  sockets m' = sockets m → heap m' = heap m ++ new → Forall freshEntry new →
  socketsOk m → socketsOk m'.
Proof.
  intros Hs Hh Hnew Hm. apply (socketsOk_update m); [by rewrite Hs; apply Hm| | |done].
  - intros ws sock ? ?. exists sock. by rewrite Hs.
  - intros l e' ws He' Hws. left. rewrite Hh in He'.
    apply lookup_app_Some in He' as [He'|[_ He']]; [by exists e'|].
    apply (proj1 (Forall_lookup _ _) Hnew) in He' as (_ & _ & Hl).
    rewrite Hl in Hws. by apply not_elem_of_empty in Hws.
Qed.

Lemma socketsOk_push m l e msg after :
  heap m !! l = Some e → socketsOk m →
  socketsOk (setSockets (deliver (listeners e) msg)
               (setHeap (<[l := pushLog msg after e]>) m)).
Proof.
  intros He Hm. apply (socketsOk_update m); [| | |done]; simpl.
  - apply Forall_lookup. intros ws sock'. rewrite deliver_lookup.
    destruct (sockets m !! ws) as [sock|] eqn:Hs; [|done]. simpl. intros [= <-].
    destruct (decide (ws ∈ listeners e)) as [Hin|_].
    + destruct (proj2 Hm l e ws He Hin) as (sock0 & Hs0 & _ & Hr). simplify_eq.
      right; right. by apply replayed_send.
    + by apply (proj1 (Forall_lookup _ _) (proj1 Hm) ws).
  - intros ws sock Hs Hr. rewrite deliver_lookup, Hs. simpl.
    destruct (decide (ws ∈ listeners e)); [|by exists sock].
    eexists. split; [done|]. destruct (replayed_send msg sock Hr). by split.
  - intros l0 e' ws He' Hws. left.
    apply list_lookup_insert_Some in He' as [(-> & <- & _)|[_ He']]; [by exists e|by exists e'].
Qed.

Lemma socketsOk_onData l ts chunk m : socketsOk m → socketsOk (onData l ts chunk m).
Proof.
  intros Hm. unfold onData. destruct (heap m !! l) as [e|] eqn:He; [|done].
  by apply socketsOk_push.
Qed.

Lemma socketsOk_same m m' :
  sockets m' = sockets m → heap m' = heap m → socketsOk m → socketsOk m'.
Proof. unfold socketsOk, listenersCaptured. by intros -> ->. Qed.

Lemma socketsOk_onExited l id ts res m : socketsOk m → socketsOk (onExited l id ts res m).
Proof.
  intros Hm. unfold onExited. destruct (heap m !! l) as [e|] eqn:He; [|done].
  exact (socketsOk_push m l e _ _ He Hm).
Qed.

Lemma socketsOk_grow m sock :
  inboxShape sock → socketsOk m → socketsOk (setSockets (λ ss, ss ++ [sock]) m).
Proof.
  intros Hshape Hm. apply (socketsOk_update m); [| | |done]; simpl.
  - apply Forall_app. split; [apply Hm|by constructor].
  - intros ws sock0 Hs Hr. exists sock0. split; [|done]. by apply lookup_app_l_Some.
  - intros l e' ws He' Hws. left. by exists e'.
Qed.

Lemma socketsOk_onConnection botId m : socketsOk m → socketsOk (onConnection botId m).
Proof.
  intros Hm. unfold onConnection.
  destruct botId as [[|a botId]|];
    [apply socketsOk_grow; [by right; left|done]| |apply socketsOk_grow; [by right; left|done]].
  destruct (bots m !! String a botId) as [l|]; [|apply socketsOk_grow; [by left|done]].
  destruct (heap m !! l) as [e|] eqn:He; [|apply socketsOk_grow; [by left|done]].
  set (sock := mkSocket true [MsgHistory (sliceLast replay (logs e))] (Some l)).
  assert (Hr : replayed sock).
  { exists (sliceLast replay (logs e)), []. split; [done|]. rewrite sliceLast_length. lia. }
  pose proof (socketsOk_grow m sock (or_intror (or_intror Hr)) Hm) as Hg.
  apply (socketsOk_update (setSockets (λ ss, ss ++ [sock]) m)); [apply Hg|by eauto| |done].
  simpl. intros l0 e' ws He' Hws.
  apply list_lookup_insert_Some in He' as [(-> & <- & _)|[_ He']]; [|left; by exists e'].
  simpl in Hws. apply elem_of_union in Hws as [Hws| ->%elem_of_singleton].
  - left. by exists e.
  - right. exists sock. by rewrite list_lookup_middle.
Qed.

Lemma socketsOk_onBroken ws m : socketsOk m → socketsOk (onBroken ws m).
Proof.
  intros Hm. unfold onBroken. destruct (sockets m !! ws) as [s|] eqn:Hs; [|done].
  apply (socketsOk_update m); [| | |done]; simpl.
  - apply Forall_insert; [apply Hm|].
    apply inboxShape_dead. by apply (proj1 (Forall_lookup _ _) (proj1 Hm) ws).
  - intros ws0 sock Hs0 Hr. destruct (decide (ws0 = ws)) as [->|Hne].
    + simplify_eq. eexists. rewrite list_lookup_insert_eq by (by eapply lookup_lt_Some).
      by split_and!.
    + exists sock. by rewrite list_lookup_insert_ne.
  - intros l e' ws0 He' Hws. left. by exists e'.
Qed.

Lemma socketsOk_onClose ws m : socketsOk m → socketsOk (onClose ws m).
Proof.
  intros Hm. pose proof (socketsOk_onBroken ws m Hm) as Hb.
  unfold onClose, onBroken in *. destruct (sockets m !! ws) as [s|] eqn:Hs; [|done].
  destruct (captured s) as [l|]; [|done]. simpl.
  destruct (heap m !! l) as [e|] eqn:He; [|done].
  set (m1 := setSockets _ m) in *.
  apply (socketsOk_update m1); [apply Hb|by eauto| |exact Hb].
  simpl. intros l0 e' ws0 He' Hws. left.
  apply list_lookup_insert_Some in He' as [(-> & <- & _)|[_ He']]; [|by exists e'].
  exists e. split; [done|]. simpl in Hws. by apply elem_of_difference in Hws as [? _].
Qed.

Lemma socketsOk_run DATA_DIR IMG disk evs :
  socketsOk (mem (world (run DATA_DIR IMG (boot disk) evs))).
Proof.
  apply (preserved_run DATA_DIR IMG socketsOk tameProg).
  - apply tameProg_handler.
  - intros X op k x H. apply H.
  - intros p m Hp Hm. destruct (runSync_tame p m Hp) as (? & ? & new & ? & ?).
    split; [done|]. by eapply socketsOk_frame.
  - apply socketsOk_onData.
  - apply socketsOk_onExited.
  - done.
  - done.
  - apply socketsOk_onConnection.
  - apply socketsOk_onClose.
  - apply socketsOk_onBroken.
  - split; [by apply Forall_nil|]. split; [by apply Forall_nil|]. by intros l e ws Hl.
Qed.

(** X11.  What the server sends on a log socket, whatever happens: nothing;
    or the missing-botId error alone, on a socket it has closed; or one
    history message of at most 200 lines followed by log messages only.  A
    socket that an entry lists as listener is of the last kind, and the entry
    is the one it found in the registry when it connected. *)
Theorem socket_protocol DATA_DIR IMG disk evs :
  let m := mem (world (run DATA_DIR IMG (boot disk) evs)) in
  (∀ ws sock, sockets m !! ws = Some sock →
     inbox sock = []
     ∨ (inbox sock = [MsgError "Missing botId"] ∧ alive sock = false)
     ∨ ∃ history later, inbox sock = MsgHistory history :: (MsgLog <$> later)
                        ∧ length history ≤ replay)
  ∧ listenersCaptured m.
Proof.
  intros m. destruct (socketsOk_run DATA_DIR IMG disk evs) as [Hshape Hl]. fold m in Hshape, Hl.
  split; [|done]. intros ws sock Hs.
  destruct (proj1 (Forall_lookup _ _) Hshape ws sock Hs) as [?|[(? & ? & _)|?]]; auto.
Qed.

(** X12.  Once the close event of a socket has been handled, no entry
    lists the socket as a listener, and nothing is sent on it any more,
    whatever happens afterwards. *)
Theorem closed_socket_is_unsubscribed DATA_DIR IMG disk pre post ws sock :
  let s1 := run DATA_DIR IMG (boot disk) pre in
  sockets (mem (world s1)) !! ws = Some sock →
  let s3 := run DATA_DIR IMG (step DATA_DIR IMG s1 (Close ws)) post in
  (∀ l e, heap (mem (world s3)) !! l = Some e → ws ∉ listeners e)
  ∧ ∃ sock', sockets (mem (world s3)) !! ws = Some sock' ∧ inbox sock' = inbox sock.
Proof.
  intros s1 Hs s3.
  assert (Hwf : wellFormed s1) by apply wellFormed_run, wellFormed_boot.
  pose proof (socketsOk_run DATA_DIR IMG disk pre) as [_ Hcap]. fold s1 in Hcap.
  assert (Hstart : follows ws None [] (inbox sock) []
                     (mem (world (step DATA_DIR IMG s1 (Close ws))))).
  { simpl. unfold onClose. rewrite Hs.
    assert (Hlt : ws < length (sockets (mem (world s1)))) by (by eapply lookup_lt_Some).
    split; [|split; [|done]].
    - exists (mkSocket false (inbox sock) (captured sock)). split; [|by rewrite app_nil_r].
      destruct (captured sock) as [l|]; [|by apply list_lookup_insert_eq]. simpl.
      destruct (heap (mem (world s1)) !! l); by apply list_lookup_insert_eq.
    - intros l e He Hin. exfalso.
      assert (Hold : ∀ e0, heap (mem (world s1)) !! l = Some e0 → ws ∈ listeners e0 →
                captured sock = Some l).
      { intros e0 He0 Hin0. destruct (Hcap l e0 ws He0 Hin0) as (sock0 & Hs0 & Hc & _).
        by simplify_eq. }
      destruct (captured sock) as [l'|] eqn:Hc; simpl in He.
      + destruct (heap (mem (world s1)) !! l') as [e'|] eqn:He'; simpl in He.
        * apply list_lookup_insert_Some in He as [(-> & <- & _)|[Hne He]].
          -- simpl in Hin. apply elem_of_difference in Hin as [_ Hin].
             by apply Hin, elem_of_singleton.
          -- specialize (Hold e He Hin). by simplify_eq.
        * specialize (Hold e He Hin). by simplify_eq.
      + by specialize (Hold e He Hin). }
  destruct (follows_run ws None [] (inbox sock) DATA_DIR IMG post
              (step DATA_DIR IMG s1 (Close ws)) [])
    as (later & ((sock' & Hs' & Hin' & _) & Hnone & _) & Elater);
    [by apply wellFormed_step|by intros []|exact Hstart|].
  rewrite (Elater eq_refl), app_nil_r in Hin'. fold s3 in Hs', Hnone. split.
  - intros l e He Hin. by specialize (Hnone l e He Hin).
  - by exists sock'.
Qed.

Lemma closed_socket_is_unsubscribed_witness :
  let s3 := run "/srv/data/bots" None
              (step "/srv/data/bots" None sampleRunning (Close 0))
              [Chunk "c1" "t1" "hello"] in
  ∃ sock', sockets (mem (world s3)) !! 0 = Some sock' ∧ inbox sock' = [MsgHistory []].
Proof.
  intros s3.
  destruct (closed_socket_is_unsubscribed "/srv/data/bots" None sampleDisk
              [Incoming (Start "b1"); Settle 0 (grants "c1"); Settle 0 (grants "c1");
               Settle 0 (grants "c1"); Settle 0 (grants "c1"); Settle 0 (grants "c1");
               Connection (Some "b1")]
              [Chunk "c1" "t1" "hello"] 0 (mkSocket true [MsgHistory []] (Some 0)) eq_refl)
    as (_ & sock' & Hs & Hin).
  exists sock'. split; [exact Hs|exact Hin].
Defined.

End RunInvariants.

(* ===================================================================== *)
(** * Listing, loading and saving the files of a bundle                   *)
(* ===================================================================== *)

Module FilesFacts.
Import Str StrFacts Path PathFacts Server Run Props Files DeleteFacts Lifecycle.

(** Induction on a tree, with the hypothesis for every entry of a
    directory. *)
Lemma Node_tree_ind (P : Node → Prop) :
  (∀ content, P (File content)) →
  (∀ entries, Forall (λ e, P e.2) entries → P (Dir entries)) →
  ∀ n, P n.
Proof.
  intros HF HD. fix IH 1. intros [content|entries]; [apply HF|]. apply HD.
  induction entries as [|[name c] entries IHes]; constructor; [apply IH|apply IHes].
Qed.

Lemma child_setChild name c entries : child name (setChild name c entries) = Some c.
Proof.
  induction entries as [|[n c0] entries IH]; simpl.
  - by rewrite decide_True.
  - destruct (decide (n = name)); simpl; [by rewrite decide_True|by rewrite decide_False].
Qed.

Lemma child_setChild_ne name name' c entries :
  name' ≠ name → child name' (setChild name c entries) = child name' entries.
Proof.
  intros Hne. induction entries as [|[n c0] entries IH]; simpl.
  - by rewrite decide_False.
  - destruct (decide (n = name)) as [->|]; simpl.
    + by rewrite !decide_False.
    + destruct (decide (n = name')); [done|apply IH].
Qed.

(** ** Saving *)

Lemma find_writeAt segs text n n' :
  writeAt segs text n = Done n' → find segs n' = Some (File text).
Proof.
  revert n n'. induction segs as [|s rest IH]; intros [c|entries] n'; simpl; try done.
  destruct rest as [|s' rest].
  - destruct (child s entries) as [[?|?]|]; intros [= <-]; simpl; by rewrite child_setChild.
  - destruct (child s entries) as [c|]; [|done].
    destruct (writeAt (s' :: rest) text c) as [c'|] eqn:Hw; [|done].
    intros [= <-]. cbn [find]. rewrite child_setChild. simpl. by apply (IH c).
Qed.

(** What a write leaves alone: everything that is not on the way to the
    file. *)
Lemma find_setChild_off s c entries segs' :
  ¬ [s] `prefix_of` segs' → segs' ≠ [] →
  find segs' (Dir (setChild s c entries)) = find segs' (Dir entries).
Proof.
  intros Hpre Hne. destruct segs' as [|s' rest']; [done|]. simpl.
  rewrite child_setChild_ne; [done|]. intros ->. apply Hpre. by exists rest'.
Qed.

Lemma writeAt_frame segs text n n' segs' :
  writeAt segs text n = Done n' → ¬ segs' `prefix_of` segs →
  find segs' n' = find segs' n.
Proof.
  revert n n' segs'. induction segs as [|s rest IH]; intros [c|entries] n' segs'; simpl; try done.
  intros Hw Hpre.
  destruct segs' as [|s' rest']; [destruct Hpre; by eexists|].
  assert (Hstep : ∀ c', n' = Dir (setChild s c' entries) → s' ≠ s →
            find (s' :: rest') n' = find (s' :: rest') (Dir entries)).
  { intros c' -> Hne. simpl. by rewrite child_setChild_ne. }
  destruct rest as [|s2 rest].
  - destruct (decide (s' = s)) as [->|Hne].
    + destruct rest' as [|s3 rest']; [destruct Hpre; by exists []|].
      destruct (child s entries) as [[?|?]|] eqn:Hc; simplify_eq; simpl;
        by rewrite child_setChild, ?Hc.
    + destruct (child s entries) as [[?|?]|]; simplify_eq; by apply (Hstep (File text)).
  - destruct (child s entries) as [c|] eqn:Hc; [|done].
    destruct (writeAt (s2 :: rest) text c) as [c'|] eqn:Hw'; [|done].
    injection Hw as <-.
    destruct (decide (s' = s)) as [->|Hne]; [|by apply (Hstep c')].
    cbn [find]. rewrite child_setChild, Hc. simpl. apply (IH c); [done|].
    intros [k Hk]. apply Hpre. exists k. by rewrite Hk.
Qed.

Lemma mkdirs_frame segs n n' segs' :
  mkdirs segs n = Done n' → ¬ segs' `prefix_of` segs →
  find segs' n' = find segs' n.
Proof.
  revert n n' segs'. induction segs as [|s rest IH]; intros [c|entries] n' segs'; simpl; try done.
  { by intros [= <-]. }
  destruct (mkdirs rest (default (Dir []) (child s entries))) as [c'|] eqn:Hm; [|done].
  intros [= <-] Hpre.
  destruct segs' as [|s' rest']; [destruct Hpre; by eexists|].
  cbn [find]. destruct (decide (s' = s)) as [->|Hne]; [|by rewrite child_setChild_ne].
  rewrite child_setChild. simpl.
  rewrite (IH _ c' rest' Hm) by (intros [k Hk]; apply Hpre; exists k; by rewrite Hk).
  destruct (child s entries) as [c|]; simpl; [done|].
  destruct rest' as [|s2 rest']; [|done]. destruct Hpre. by exists rest.
Qed.

Lemma prefix_removelast (segs' segs : list string) :
  segs' `prefix_of` removelast segs → segs' `prefix_of` segs.
Proof.
  intros [k Hk]. exists (k ++ match last segs with Some x => [x] | None => [] end).
  rewrite app_assoc, <- Hk. clear.
  induction segs as [|a [|b segs] IH]; [done|done|].
  change (removelast (a :: b :: segs)) with (a :: removelast (b :: segs)).
  change (last (a :: b :: segs)) with (last (b :: segs)). simpl. by f_equal.
Qed.

Lemma outputFile_frame utf8Encode file data root segs' :
  ¬ segs' `prefix_of` lexical file →
  find segs' (outputFile utf8Encode file data root).2 = find segs' root.
Proof.
  intros Hpre. unfold outputFile.
  assert (Hdir : ∀ root1,
            (if bool_decide (is_Some (find (removelast (lexical file)) root))
             then Done root else mkdirs (removelast (lexical file)) root) = Done root1 →
            find segs' root1 = find segs' root).
  { destruct (bool_decide _); [by intros ? [= <-]|]. intros root1 Hm.
    apply (mkdirs_frame _ _ _ _ Hm). intros H. by apply Hpre, prefix_removelast. }
  destruct (if bool_decide _ then _ else _) as [root1|err]; [|done].
  specialize (Hdir root1 eq_refl). destruct data as [text|]; [|done].
  unfold writeFile. destruct (endsWithChar file slash); [done|].
  destruct (writeAt _ _ _) as [root2|] eqn:Hw; [|done]. simpl.
  by rewrite (writeAt_frame _ _ _ _ _ Hw Hpre).
Qed.

Lemma locate_find root root' p :
  find (lexical p) root' = find (lexical p) root → locate root' p = locate root p.
Proof. unfold locate. by intros ->. Qed.

Section Routes.

Variable DATA_DIR : string.
Variable mimeLookup : string → option string.
Variable utf8Encode : Text → string.
Variable utf8Decode : string → Text.


(** X14.  On a disk without links, symbolic or hard, whatever the save
    route answers, it leaves alone everything that is not on the way to the
    file: a path that is neither the file nor one of the directories above
    it leads where it led before.  (Through a symbolic link the route writes
    where the link leads, which no lexical prefix tells; such disks are not
    trees of this model.) *)
Theorem save_leaves_the_rest id rel content root p :
  let root' := (putFileRoute DATA_DIR utf8Encode id rel content root).2 in
  ¬ lexical p `prefix_of` lexical (Path.join [DATA_DIR; id; rel]) →
  locate root' p = locate root p.
Proof.
  intros root' Hpre. apply locate_find. subst root'. unfold putFileRoute, putFile.
  destruct (decide (rel = "")); [done|].
  destruct (negb _); [done|].
  pose proof (outputFile_frame utf8Encode (Path.join [DATA_DIR; id; rel]) content root _ Hpre)
    as H.
  by destruct (outputFile _ _ _ _) as [[[]|err] root1].
Qed.

End Routes.


Lemma save_leaves_the_rest_witness :
  locate (putFileRoute "/srv/data/bots" asciiEncode "b1" "lib/new.js"
            (Some (asciiDecode "// new")) sampleTree).2
    "/srv/data/bots/b1/index.js"
  = Some (File "console.log(1)").
Proof.
  rewrite (save_leaves_the_rest "/srv/data/bots" asciiEncode "b1" "lib/new.js"
             (Some (asciiDecode "// new")) sampleTree "/srv/data/bots/b1/index.js");
    [reflexivity|].
  intros [k Hk]. vm_compute in Hk. discriminate Hk.
Defined.

(** ** Listing *)

Lemma find_app a b n : find (a ++ b) n = find a n ≫= find b.
Proof.
  revert n. induction a as [|s a IH]; intros n; [done|]. simpl.
  destruct n as [c|entries]; [done|]. destruct (child s entries) as [c|]; [|done].
  simpl. apply IH.
Qed.

Lemma child_elem_of name c entries : child name entries = Some c → (name, c) ∈ entries.
Proof.
  induction entries as [|[n c0] entries IH]; [done|]. simpl.
  destruct (decide (n = name)) as [->|].
  - intros [= ->]. apply list_elem_of_here.
  - intros H. apply list_elem_of_further. by apply IH.
Qed.

Lemma child_NoDup name c entries :
  NoDup entries.*1 → (name, c) ∈ entries → child name entries = Some c.
Proof.
  induction entries as [|[n c0] entries IH]; [by intros _ ?%elem_of_nil|].
  rewrite fmap_cons. intros [Hn Hnd]%NoDup_cons [[= -> ->]|Hin]%elem_of_cons; simpl.
  - by rewrite decide_True.
  - rewrite decide_False; [by apply IH|]. intros ->. apply Hn.
    apply list_elem_of_fmap. by exists (name, c).
Qed.

Lemma wf_find segs root n : wf root → find segs root = Some n → wf n.
Proof.
  revert root. induction segs as [|s rest IH]; intros root Hwf; [by intros [= <-]|].
  simpl. destruct root as [c|entries]; [done|].
  destruct (child s entries) as [c|] eqn:Hc; [|done]. simpl. apply IH.
  inversion Hwf as [|? _ Hall]; subst.
  apply child_elem_of in Hc. by apply (proj1 (Forall_forall _ _) Hall (s, c)).
Qed.

Lemma relativeSegments_below base rest : relativeSegments base (base ++ rest) = rest.
Proof. induction base as [|b base IH]; simpl; [by destruct rest|by rewrite decide_True]. Qed.

Lemma relative_below dd rest :
  Forall plain dd → Forall plain rest →
  relative (absolute dd) (absolute (dd ++ rest)) = Str.join "/" rest.
Proof.
  intros Hdd Hrest. unfold relative.
  rewrite !lexical_absolute, relativeSegments_below; [done| |done].
  by apply Forall_app.
Qed.

Lemma join_plain_nonempty segs : segs ≠ [] → Forall plain segs → Str.join "/" segs ≠ "".
Proof.
  intros Hne Hpl. destruct segs as [|s segs]; [done|].
  inversion Hpl as [|? ? (_ & Hs & _) _]; subst. destruct s as [|a s]; [done|].
  destruct segs; [done|]. by rewrite join_cons.
Qed.

(** A path that ends in a plain name does not end in a slash. *)
Lemma endsWithChar_join prefix segs :
  segs ≠ [] → Forall plain segs →
  endsWithChar (prefix +:+ Str.join "/" segs) slash = false.
Proof.
  intros Hne Hpl. destruct (exists_last Hne) as (init & l & ->).
  apply Forall_app in Hpl as [_ Hl]. inversion Hl as [|? ? (Hns & Hl0 & _) _]; subst.
  destruct init as [|i init]; [by apply endsWithChar_app_plain|].
  rewrite join_app, <- !sapp_assoc by done. by apply endsWithChar_app_plain.
Qed.

Lemma locate_absolute root segs :
  segs ≠ [] → Forall plain segs → locate root (absolute segs) = find segs root.
Proof.
  intros Hne Hpl. unfold locate. rewrite lexical_absolute by done.
  unfold absolute. rewrite (endsWithChar_join "/" segs) by done.
  by destruct (find segs root) as [[c|entries]|].
Qed.

Lemma locate_dir root segs entries :
  Forall plain segs → find segs root = Some (Dir entries) →
  locate root (absolute segs) = Some (Dir entries).
Proof. intros Hpl Hf. unfold locate. by rewrite lexical_absolute, Hf. Qed.

(** The guard lets the listed paths through. *)
Lemma getFile_listed dd id segs :
  Forall plain dd → plain id → Forall plain segs → segs ≠ [] →
  getFile (absolute dd) id (Str.join "/" segs) = FsAccess (absolute (dd ++ id :: segs)).
Proof.
  intros Hdd Hid Hsegs Hne.
  pose proof (join_plain_nonempty segs Hne Hsegs) as Hrel.
  assert (Hlex : lexical (requested (absolute dd) id (Str.join "/" segs)) = dd ++ id :: segs).
  { rewrite FileGuard.lexical_requested by done.
    change "/" with (String slash ""). rewrite split_join; [|done|by apply plain_noslash].
    rewrite foldl_push_plain by done.
    rewrite rev_app_distr, rev_involutive. simpl. by rewrite rev_involutive, <- app_assoc. }
  unfold getFile. destruct (decide (Str.join "/" segs = "")); [done|].
  rewrite FileGuard.startsWith_nested; [|done..|].
  - simpl. f_equal. rewrite FileGuard.join_requested by done. rewrite Hlex.
    assert (endsWithChar (requested (absolute dd) id (Str.join "/" segs)) slash = false) as ->.
    { unfold requested. rewrite <- !sapp_assoc. by apply endsWithChar_join. }
    unfold absolute.
    pose proof (join_plain_nonempty (dd ++ id :: segs)) as Hj.
    destruct (Str.join "/" (dd ++ id :: segs)); [|by rewrite sapp_nil_r].
    destruct Hj; [by destruct dd|by apply Forall_app; split; [|constructor]|done].
  - rewrite Hlex. exists segs. by rewrite <- app_assoc.
Qed.

(** What [walk] pushes for the entry at [rest] below the bundle directory:
    the files below it, each under its path from the bundle directory. *)
Lemma elem_of_visit dir rest node info :
  Forall plain dir → Forall plain rest → wf node →
  In info (visit (absolute dir) (absolute (dir ++ rest)) node)
  ↔ ∃ more text, find more node = Some (File text) ∧ Forall plain more
                 ∧ info = mkFileInfo (Str.join "/" (rest ++ more)) (String.length text).
Proof.
  intros Hdir. revert rest. induction node as [content|entries IH] using Node_tree_ind;
    intros rest Hrest Hwf.
  - simpl. rewrite relative_below by done. split.
    + intros [<-|[]]. exists [], content. by rewrite app_nil_r.
    + intros (more & text & Hf & _ & ->). destruct more; [|done]. injection Hf as <-.
      left. by rewrite app_nil_r.
  - inversion Hwf as [|? Hnd Hall]; subst. cbn [visit]. rewrite in_flat_map. split.
    + intros ([name c] & Hin%list_elem_of_In & Hinfo).
      destruct (proj1 (Forall_forall _ _) Hall _ Hin) as [Hname Hc]. simpl in Hname, Hc.
      rewrite (FileGuard.join_root (dir ++ rest) name) in Hinfo
        by (solve [done | by apply Forall_app]).
      rewrite <- app_assoc in Hinfo.
      apply (proj1 (Forall_forall _ _) IH _ Hin) in Hinfo
        as (more & text & Hf & Hmore & ->); [|by apply Forall_app; split; [|constructor]|done].
      exists (name :: more), text. split; [|split; [by constructor|by rewrite <- app_assoc]].
      simpl. by rewrite (child_NoDup name c).
    + intros (more & text & Hf & Hmore & ->). destruct more as [|name more]; [done|].
      simpl in Hf. destruct (child name entries) as [c|] eqn:Hc; [|done]. simpl in Hf.
      apply child_elem_of in Hc. exists (name, c). split; [by apply list_elem_of_In|].
      destruct (proj1 (Forall_forall _ _) Hall _ Hc) as [Hname Hwc]. simpl in Hname, Hwc.
      rewrite (FileGuard.join_root (dir ++ rest) name) by (solve [done | by apply Forall_app]).
      rewrite <- app_assoc.
      apply (proj1 (Forall_forall _ _) IH _ Hc);
        [by apply Forall_app; split; [|constructor]|done|].
      inversion Hmore; subst. exists more, text. by rewrite <- app_assoc.
Qed.

Lemma getFiles_listing dd id root entries :
  Forall plain dd → plain id → wf root →
  find (dd ++ [id]) root = Some (Dir entries) →
  ∃ files, getFiles (absolute dd) id root = Ok200 files
    ∧ ∀ info, info ∈ files ↔
        ∃ segs text, find (dd ++ id :: segs) root = Some (File text) ∧ Forall plain segs
                     ∧ segs ≠ []
                     ∧ info = mkFileInfo (Str.join "/" segs) (String.length text).
Proof.
  intros Hdd Hid Hwf Hf.
  assert (Hroot : Forall plain (dd ++ [id])) by (by apply Forall_app; split; [|constructor]).
  unfold getFiles. rewrite (FileGuard.join_root dd id Hdd Hid), (locate_dir _ _ entries) by done.
  eexists. split; [done|]. intros info. rewrite list_elem_of_In.
  pose proof (elem_of_visit (dd ++ [id]) [] (Dir entries) info Hroot (Forall_nil_2 _)
                (wf_find _ _ _ Hwf Hf)) as Hv.
  rewrite app_nil_r in Hv. unfold walk. cbn [visit] in Hv. rewrite Hv.
  split; intros (segs & text & Hs & Hpl & H).
  - exists segs, text. split; [|split; [done|split; [by destruct segs|done]]].
    change (id :: segs) with ([id] ++ segs). by rewrite app_assoc, find_app, Hf.
  - exists segs, text. destruct H as [_ ->]. split; [|done].
    change (id :: segs) with ([id] ++ segs) in Hs. by rewrite app_assoc, find_app, Hf in Hs.
Qed.

(** X15.  On a disk without symbolic links the listing of a bundle is
    exact: for a bundle directory that exists, [GET /api/bots/:id/files]
    answers the files below it, all of them and no directory, each under its
    path from the bundle directory (the names joined with slashes) and with
    the number of its bytes as size.  ([fs.stat] follows a symbolic link and
    rejects on a dangling one; such disks are not trees of this model.) *)
Theorem listing_is_exact dd id root entries :
  Forall plain dd → plain id → wf root →
  find (dd ++ [id]) root = Some (Dir entries) →
  ∃ files, getFiles (absolute dd) id root = Ok200 files
    ∧ ∀ p n, mkFileInfo p n ∈ files ↔
        ∃ segs text, segs ≠ [] ∧ find (dd ++ id :: segs) root = Some (File text)
                     ∧ p = Str.join "/" segs ∧ n = String.length text.
Proof.
  intros Hdd Hid Hwf Hf.
  destruct (getFiles_listing dd id root entries Hdd Hid Hwf Hf) as (files & Hfiles & Hspec).
  exists files. split; [done|]. intros p n. rewrite Hspec. split.
  - intros (segs & text & Hs & _ & Hne & [= -> ->]). by exists segs, text.
  - intros (segs & text & Hne & Hs & -> & ->). exists segs, text. split_and!; [done| |done..].
    assert (Hsub : find segs (Dir entries) = Some (File text)).
    { change (id :: segs) with ([id] ++ segs) in Hs. by rewrite app_assoc, find_app, Hf in Hs. }
    clear -Hsub Hwf Hf. pose proof (wf_find _ _ _ Hwf Hf) as Hwe. clear Hwf Hf.
    revert entries Hsub Hwe. induction segs as [|s segs IH]; intros entries Hsub Hwe; [done|].
    simpl in Hsub. destruct (child s entries) as [c|] eqn:Hc; [|done]. simpl in Hsub.
    apply child_elem_of in Hc. inversion Hwe as [|? _ Hall]; subst.
    destruct (proj1 (Forall_forall _ _) Hall _ Hc) as [Hname Hwc]. simpl in Hname, Hwc.
    constructor; [done|]. destruct c as [content|sub]; [by destruct segs|].
    by apply (IH sub).
Qed.

Section Load.

Variable mimeLookup : string → option string.
Variable utf8Decode : string → Text.


End Load.

Lemma wf_sampleTree : wf sampleTree.
Proof.
  repeat first
    [ apply wf_File
    | apply wf_Dir; [compute_done|]
    | apply Forall_cons_2; [split; [FileGuard.solve_plain|]|]
    | apply Forall_nil_2 ].
Qed.

Lemma listing_is_exact_witness :
  getFiles "/srv/data/bots" "b1" sampleTree
  = Ok200 [mkFileInfo "index.js" 14; mkFileInfo "src/util.js" 13]
  ∧ ∃ files, getFiles "/srv/data/bots" "b1" sampleTree = Ok200 files
             ∧ mkFileInfo "src/util.js" 13 ∈ files.
Proof.
  split; [reflexivity|].
  destruct (listing_is_exact ["srv"; "data"; "bots"] "b1" sampleTree
              [("index.js", File "console.log(1)");
               ("src", Dir [("util.js", File "exports.x = 1")])])
    as (files & Hfiles & Hspec);
    [FileGuard.solve_plain|FileGuard.solve_plain|apply wf_sampleTree|reflexivity|].
  exists files. split; [exact Hfiles|].
  apply Hspec. exists ["src"; "util.js"], "exports.x = 1". by split_and!.
Defined.


(** ** Directories, and bundles that are not there *)

Lemma writeAt_step s s2 rest text entries :
  writeAt (s :: s2 :: rest) text (Dir entries) =
    match child s entries with
    | None => Failed ENOENT
    | Some c =>
        match writeAt (s2 :: rest) text c with
        | Done c' => Done (Dir (setChild s c' entries))
        | Failed err => Failed err
        end
    end.
Proof. reflexivity. Qed.

Lemma writeAt_dir segs text n entries :
  segs ≠ [] → find segs n = Some (Dir entries) → writeAt segs text n = Failed EISDIR.
Proof.
  revert n. induction segs as [|s rest IH]; intros n Hne Hf; [done|].
  destruct n as [c|es]; [done|]. simpl in Hf.
  destruct (child s es) as [c|] eqn:Hc; [|done]. simpl in Hf.
  destruct rest as [|s2 rest].
  - injection Hf as ->. simpl. by rewrite Hc.
  - by rewrite writeAt_step, Hc, (IH c).
Qed.



Section Edges.

Variable mimeLookup : string → option string.
Variable utf8Encode : Text → string.
Variable utf8Decode : string → Text.

(** X17.  A path of a bundle that leads to a directory is refused by
    neither guard, and the routes have no [try]: the load route fails in
    [fs.readFile] and the save route in [fs.outputFile], both with [EISDIR],
    so that the promise of the handler rejects; the disk stays as it is. *)
Theorem directory_paths_reject dd id segs text root entries :
  Forall plain dd → plain id → Forall plain segs → segs ≠ [] →
  find (dd ++ id :: segs) root = Some (Dir entries) →
  getFileRoute (absolute dd) mimeLookup utf8Decode id (Str.join "/" segs) root
  = Rejects EISDIR
  ∧ putFileRoute (absolute dd) utf8Encode id (Str.join "/" segs) (Some text) root
    = (Rejects EISDIR, root).
Proof.
  intros Hdd Hid Hsegs Hne Hf.
  assert (Hall : Forall plain (dd ++ id :: segs))
    by (by apply Forall_app; split; [|constructor]).
  assert (Hne' : dd ++ id :: segs ≠ []) by (by destruct dd).
  unfold getFileRoute, putFileRoute.
  change (putFile (absolute dd) id (Str.join "/" segs))
    with (getFile (absolute dd) id (Str.join "/" segs)).
  rewrite getFile_listed by done. split.
  - unfold pathExists, readFile. rewrite (locate_dir _ _ entries) by done.
    by rewrite bool_decide_true.
  - unfold outputFile. rewrite lexical_absolute by done.
    rewrite bool_decide_true.
    + unfold writeFile.
      assert (endsWithChar (absolute (dd ++ id :: segs)) slash = false) as ->
        by (by apply (endsWithChar_join "/" (dd ++ id :: segs))).
      by rewrite lexical_absolute, (writeAt_dir _ _ _ entries).
    + assert (Hf' : find (removelast (dd ++ id :: segs) ++ [List.last (dd ++ id :: segs) ""]) root
                    = Some (Dir entries)) by (by rewrite <- app_removelast_last).
      rewrite find_app in Hf'.
      destruct (find (removelast (dd ++ id :: segs)) root); [by eexists|done].
Qed.


End Edges.

Lemma directory_paths_reject_witness :
  getFileRoute "/srv/data/bots" (λ _, None) asciiDecode "b1" "src" sampleTree = Rejects EISDIR
  ∧ putFileRoute "/srv/data/bots" asciiEncode "b1" "src" (Some (asciiDecode "x")) sampleTree
    = (Rejects EISDIR, sampleTree).
Proof.
  apply (directory_paths_reject (λ _, None) asciiEncode asciiDecode
           ["srv"; "data"; "bots"] "b1" ["src"] (asciiDecode "x") sampleTree
           [("util.js", File "exports.x = 1")]);
    [FileGuard.solve_plain|FileGuard.solve_plain|FileGuard.solve_plain|discriminate|reflexivity].
Defined.


(** ** From the editor to the sandbox *)

Lemma below_find segs prefix n x :
  find segs n = Some x → (prefix ++ segs, x) ∈ below prefix n.
Proof.
  revert prefix n. induction segs as [|s segs IH]; intros prefix n Hf.
  - injection Hf as ->. rewrite app_nil_r. destruct x; apply list_elem_of_here.
  - destruct n as [c|entries]; [done|]. simpl in Hf.
    destruct (child s entries) as [c|] eqn:Hc; [|done]. simpl in Hf.
    cbn [below]. apply list_elem_of_further, list_elem_of_In, in_flat_map.
    exists (s, c). split; [by apply list_elem_of_In, child_elem_of|].
    apply list_elem_of_In. change (s :: segs) with ([s] ++ segs). rewrite app_assoc.
    by apply IH.
Qed.

Lemma view_pathExists parseManifest root segs :
  is_Some (find segs root) →
  Server.pathExists (view parseManifest root) (absolute segs) = true.
Proof.
  intros [x Hx]. apply bool_decide_eq_true. unfold view. simpl.
  apply elem_of_list_to_set, list_elem_of_fmap. exists (segs, x). split; [done|].
  by apply (below_find segs []).
Qed.

Section Deploy.

Variable parseManifest : string → Manifest.
Variable utf8Encode : Text → string.

(** X19.  From the editor to the sandbox: once the save route has written
    [index.js] into a bundle, whether the bundle was there before or not, a
    start of that bundle which the runtime grants goes through, and the
    sandbox it asks for runs [node index.js] with the bundle directory
    mounted at [/bot]. *)
Theorem save_then_start dd id text root root' IMG cid m sandboxes :
  Forall plain dd → plain id →
  putFileRoute (absolute dd) utf8Encode id "index.js" (Some text) root = (Ok200 tt, root') →
  runningContainer m id = None →
  let w := mkWorld m (view parseManifest root') sandboxes in
  ∃ w', exec (startBot (absolute dd) IMG id) (grants cid) w = (Returned (Started cid), w')
    ∧ runningContainer (mem w') id = Some cid
    ∧ ∃ sb, last (docker w') = Some sb
            ∧ Cmd (options sb) = ["node"; "index.js"]
            ∧ Binds (options sb) = [absolute (dd ++ [id]) +:+ ":/bot:rw"].
Proof.
  intros Hdd Hid Hput Hrun w.
  assert (Hfile : find (dd ++ [id; "index.js"]) root' = Some (File (utf8Encode text))).
  { revert Hput. unfold putFileRoute.
    change (putFile (absolute dd) id "index.js")
      with (getFile (absolute dd) id (Str.join "/" ["index.js"])).
    rewrite (getFile_listed dd id ["index.js"]) by (solve [done | FileGuard.solve_plain]).
    unfold outputFile.
    destruct (if bool_decide _ then _ else _) as [root1|err]; [|done].
    unfold writeFile. destruct (endsWithChar _ _); [done|].
    destruct (writeAt _ _ _) as [root2|] eqn:Hw; [|done]. intros [= <-].
    apply find_writeAt in Hw. rewrite lexical_absolute in Hw; [done|].
    apply Forall_app. split; [done|]. constructor; [done|]. FileGuard.solve_plain. }
  assert (Hdir : Server.pathExists (fs w) (Path.join [absolute dd; id]) = true).
  { rewrite (FileGuard.join_root dd id Hdd Hid). apply view_pathExists.
    change [id; "index.js"] with ([id] ++ ["index.js"]) in Hfile.
    rewrite app_assoc, find_app in Hfile.
    destruct (find (dd ++ [id]) root'); [by eexists|done]. }
  assert (Hres : resolveSpec (fs w) (Path.join [absolute dd; id]) = EntryFound "index.js").
  { unfold resolveSpec. simpl list_find.
    rewrite (FileGuard.join_root dd id Hdd Hid).
    rewrite (FileGuard.join_root (dd ++ [id]) "index.js");
      [|by apply Forall_app; split; [|constructor]|FileGuard.solve_plain].
    rewrite <- app_assoc. simpl app.
    rewrite decide_True; [done|]. apply view_pathExists. by rewrite Hfile. }
  destruct (start_granted (absolute dd) IMG id cid "index.js" w Hdir Hrun Hres)
    as (w' & Hexec & Hreg & Hd).
  exists w'. split; [done|]. split; [done|].
  rewrite Hd, map_app. simpl map. unfold setStatus at 2. simpl. rewrite decide_True by done.
  eexists. split; [apply last_snoc|]. simpl.
  by rewrite (FileGuard.join_root dd id Hdd Hid).
Qed.

End Deploy.

Lemma save_then_start_witness :
  ∃ root' w',
    putFileRoute "/srv/data/bots" asciiEncode "b9" "index.js" (Some (asciiDecode "main()"))
      sampleTree = (Ok200 tt, root')
    ∧ exec (startBot "/srv/data/bots" None "b9") (grants "c9")
        (mkWorld Run.emptyMem (view (λ _, ManifestMain None) root') [])
      = (Returned (Started "c9"), w')
    ∧ runningContainer (mem w') "b9" = Some "c9".
Proof.
  exists (putFileRoute "/srv/data/bots" asciiEncode "b9" "index.js"
            (Some (asciiDecode "main()")) sampleTree).2.
  destruct (save_then_start (λ _, ManifestMain None) asciiEncode ["srv"; "data"; "bots"] "b9"
              (asciiDecode "main()") sampleTree
              (putFileRoute "/srv/data/bots" asciiEncode "b9" "index.js"
                 (Some (asciiDecode "main()")) sampleTree).2
              None "c9" Run.emptyMem [])
    as (w' & Hexec & Hrun & _);
    [FileGuard.solve_plain|FileGuard.solve_plain|reflexivity|reflexivity|].
  exists w'. split; [reflexivity|]. split; [exact Hexec|exact Hrun].
Defined.

End FilesFacts.

(* ===================================================================== *)
(** * The list of bots, and the answers of the stop route                 *)
(* ===================================================================== *)

Module ListFacts.
Import Str StrFacts Path PathFacts Server Run Props MoreProps Files DeleteFacts FilesFacts.

(** X20.  The list of bots is exact: for a data directory that exists,
    [GET /api/bots] answers the directories that lie directly in it, all of
    them and no file, each with its name as id, its path, and the running
    flag that the registry gives for that id.  When the data directory is
    gone, [fs.readdir] fails and the promise of the handler rejects. *)
Theorem bot_list_is_exact dd m root :
  Forall plain dd → wf root →
  (∀ bundles, find dd root = Some (Dir bundles) →
     ∃ list, getBots (absolute dd) m root = Ok200 list
       ∧ ∀ info, info ∈ list ↔
           ∃ name entries, find (dd ++ [name]) root = Some (Dir entries)
             ∧ info = mkBotInfo name (absolute (dd ++ [name]))
                        (bool_decide (is_Some (runningContainer m name))))
  ∧ (dd ≠ [] → find dd root = None → getBots (absolute dd) m root = Rejects ENOENT).
Proof.
  intros Hdd Hwf. split.
  - intros bundles Hf. unfold getBots, listBots. rewrite (locate_dir _ _ bundles) by done.
    eexists. split; [done|]. intros info.
    pose proof (wf_find _ _ _ Hwf Hf) as Hwb. inversion Hwb as [|? Hnd Hall]; subst.
    rewrite list_elem_of_In, in_flat_map. split.
    + intros ([name c] & Hin%list_elem_of_In & Hinfo).
      destruct (proj1 (Forall_forall _ _) Hall _ Hin) as [Hname _]. simpl in Hname.
      simpl in Hinfo. destruct c as [content|entries]; [done|].
      destruct Hinfo as [<-|[]]. exists name, entries.
      rewrite find_app, Hf. simpl. rewrite (child_NoDup name (Dir entries)) by done.
      split; [done|]. by rewrite (FileGuard.join_root dd name).
    + intros (name & entries & Hn & ->). rewrite find_app, Hf in Hn. simpl in Hn.
      destruct (child name bundles) as [c|] eqn:Hc; [|done]. injection Hn as ->.
      apply child_elem_of in Hc. exists (name, Dir entries).
      split; [by apply list_elem_of_In|].
      destruct (proj1 (Forall_forall _ _) Hall _ Hc) as [Hname _]. simpl in Hname.
      simpl. left. by rewrite (FileGuard.join_root dd name).
  - intros Hne Hnone. unfold getBots, listBots.
    by rewrite locate_absolute, Hnone.
Qed.

Lemma bot_list_is_exact_witness :
  getBots "/srv/data/bots" emptyMem sampleTree
    = Ok200 [mkBotInfo "b1" "/srv/data/bots/b1" false]
  ∧ getBots "/srv/data/bots" emptyMem (Dir []) = Rejects ENOENT.
Proof.
  split; [reflexivity|].
  apply (bot_list_is_exact ["srv"; "data"; "bots"] emptyMem (Dir []));
    [FileGuard.solve_plain|apply wf_Dir; [apply NoDup_nil_2|apply Forall_nil_2]
    |discriminate|reflexivity].
Defined.

(** ** The stop route in the event loop *)

Lemma answersOnly_postStop id : answersOnly (λ r, r = Json200 None) (postStop id).
Proof.
  unfold postStop, stopBot, mbind, prog_bind, read, update, sync. simpl.
  intros [cid|]; simpl; [|done]. intros [[]|e]; simpl; [done|]. by intros [] [].
Qed.

Lemma runSync_answersOnly {R : Type} (good : R → Prop) (p : Prog R) m :
  answersOnly good p → answersOnly good (runSync p m).1.
Proof.
  revert m. induction p as [r|e|X op k IH|X f k IH]; intros m Hp; try done.
  simpl. destruct (f m) as [x m1]. apply IH, Hp.
Qed.

(** A request in flight stays what it is while other events are handled. *)
Lemma step_answersOnly DATA_DIR IMG (good : Response → Prop) s ev k p :
  tasks s !! k = Some p → answersOnly good p →
  ∃ p', tasks (step DATA_DIR IMG s ev) !! k = Some p' ∧ answersOnly good p'.
Proof.
  intros Hk Hp.
  destruct ev as [r|t ad|cid ts chunk|cid ts res|cid err|botId|ws|ws|fs']; simpl;
    try (by exists p).
  - destruct (runSync _ _) as [q m]. exists p. split; [|done]. by apply lookup_app_l_Some.
  - destruct (tasks s !! t) as [[r|e|X op k0|X f k0]|] eqn:Et; try (by exists p).
    destruct (answer op ad (world s)) as [x w'].
    pose proof (runSync_answersOnly good (k0 x) (mem w')) as Hrun.
    destruct (runSync _ _) as [q m]. simpl in *.
    destruct (decide (k = t)) as [->|Hne].
    + exists q. split; [apply list_lookup_insert_eq; by eapply lookup_lt_Some|].
      apply Hrun. simplify_eq. apply Hp.
    + exists p. by rewrite list_lookup_insert_ne.
Qed.

Lemma run_answersOnly DATA_DIR IMG (good : Response → Prop) evs s k p :
  tasks s !! k = Some p → answersOnly good p →
  ∃ p', tasks (run DATA_DIR IMG s evs) !! k = Some p' ∧ answersOnly good p'.
Proof.
  revert s p. induction evs as [|ev evs IH]; intros s p Hk Hp; [by exists p|].
  destruct (step_answersOnly DATA_DIR IMG good s ev k p Hk Hp) as (p1 & Hk1 & Hp1).
  simpl. by apply (IH _ p1).
Qed.

(** X21.  The stop route never answers an error, in any interleaving: from
    the moment the request comes in, whatever the runtime answers and whatever
    else the server handles in between, the request can only end with the ok
    answer; its [catch] is never entered. *)
Theorem stop_route_never_errors DATA_DIR IMG disk pre post id :
  let s := run DATA_DIR IMG (boot disk) pre in
  let s' := run DATA_DIR IMG (step DATA_DIR IMG s (Incoming (Stop id))) post in
  ∃ p, tasks s' !! length (tasks s) = Some p
       ∧ answersOnly (λ r, r = Json200 None) p
       ∧ ∀ r, answered p = Some r → r = Json200 None.
Proof.
  intros s s'.
  destruct (run_answersOnly DATA_DIR IMG (λ r, r = Json200 None) post
              (step DATA_DIR IMG s (Incoming (Stop id))) (length (tasks s))
              (runSync (postStop id) (mem (world s))).1) as (p & Hp & Hok).
  - simpl. destruct (runSync _ _) as [q m]. simpl. by apply list_lookup_middle.
  - apply runSync_answersOnly, answersOnly_postStop.
  - exists p. split; [done|]. split; [done|].
    intros r Hr. destruct p; try done. injection Hr as <-. exact Hok.
Qed.

End ListFacts.

(* ===================================================================== *)
(** * The output of a container stays with its entry objects              *)
(* ===================================================================== *)

Module Isolation.
Import Server Run Props MoreProps Lifecycle Callbacks Invariants.

Lemma grows_refl m : grows m m.
Proof. by intros l cid H. Qed.

Lemma grows_trans m1 m2 m3 : grows m1 m2 → grows m2 m3 → grows m1 m3.
Proof. intros H1 H2 l cid H. by apply H2, H1. Qed.

Lemma calm_refl m : calm m m.
Proof. split; [apply grows_refl|done]. Qed.

Lemma calm_trans m1 m2 m3 : calm m1 m2 → calm m2 m3 → calm m1 m3.
Proof.
  intros (Hg1 & Hd1 & Hw1) (Hg2 & Hd2 & Hw2).
  split; [by eapply grows_trans|]. split; by etrans.
Qed.

Lemma calm_handlersOk m m' : calm m m' → handlersOk m → handlersOk m'.
Proof.
  intros (Hg & Hd & Hw) [Hdata Hwait]. split.
  - intros cid l Hin. by apply Hg, Hdata, Hd.
  - intros cid l id Hin. by eapply Hg, Hwait, Hw.
Qed.

(** The heap is as it was. *)
Lemma calm_same m m' :
  heap m' = heap m → dataHandlers m' = dataHandlers m → waitHandlers m' ⊆ waitHandlers m →
  calm m m'.
Proof.
  intros Hh Hd Hw. split; [|by rewrite Hd]. intros l cid (e & He & Hc). exists e. by rewrite Hh.
Qed.

(** One entry is replaced by one of the same container. *)
Lemma calm_entry m m' l e e' :
  heap m !! l = Some e → heap m' = <[l := e']> (heap m) →
  container e' = container e →
  dataHandlers m' = dataHandlers m → waitHandlers m' ⊆ waitHandlers m →
  calm m m'.
Proof.
  intros He Hh Hc Hd Hw. split; [|by rewrite Hd].
  intros l0 cid (e0 & He0 & Hc0). unfold entryOf. rewrite Hh.
  destruct (decide (l0 = l)) as [->|Hne].
  - exists e'. rewrite list_lookup_insert_eq by (by eapply lookup_lt_Some).
    simplify_eq. by rewrite Hc.
  - exists e0. by rewrite list_lookup_insert_ne.
Qed.

Lemma calm_onData l ts chunk m : calm m (onData l ts chunk m).
Proof.
  unfold onData. destruct (heap m !! l) as [e|] eqn:He; [|apply calm_refl].
  eapply (calm_entry m _ l e); [exact He|simpl; reflexivity|done..].
Qed.

Lemma calm_onExited l id ts res m : calm m (onExited l id ts res m).
Proof.
  unfold onExited. destruct (heap m !! l) as [e|] eqn:He; [|by apply calm_same].
  eapply (calm_entry m _ l e); [exact He|simpl; reflexivity|done..].
Qed.

Lemma calm_onConnection botId m : calm m (onConnection botId m).
Proof.
  unfold onConnection.
  destruct botId as [[|a botId]|]; [by apply calm_same| |by apply calm_same].
  destruct (bots m !! String a botId) as [l|]; [|by apply calm_same].
  destruct (heap m !! l) as [e|] eqn:He; [|by apply calm_same].
  eapply (calm_entry m _ l e); [exact He|simpl; reflexivity|done..].
Qed.

Lemma calm_onBroken ws m : calm m (onBroken ws m).
Proof. unfold onBroken. destruct (sockets m !! ws); [by apply calm_same|apply calm_refl]. Qed.

Lemma calm_onClose ws m : calm m (onClose ws m).
Proof.
  unfold onClose. destruct (sockets m !! ws) as [s|]; [|apply calm_refl].
  destruct (captured s) as [l|]; [|by apply calm_same]. simpl.
  destruct (heap m !! l) as [e|] eqn:He; [|by apply calm_same].
  eapply (calm_entry m _ l e); [exact He|simpl; reflexivity|done..].
Qed.

Lemma calm_fold {H : Type} (F : H → Mem → Mem) (P : H → Prop)
    `{∀ h, Decision (P h)} (hs : list H) m :
  (∀ h m, calm m (F h m)) →
  calm m (foldl (λ m h, if decide (P h) then F h m else m) m hs).
Proof.
  intros HF. revert m. induction hs as [|h hs IH]; intros m; [apply calm_refl|].
  simpl. eapply calm_trans; [|apply IH].
  destruct (decide (P h)); [apply HF|apply calm_refl].
Qed.

(** ** Requests *)

Lemma installsOk_mono {R : Type} (p : Prog R) m m' :
  grows m m' → installsOk (λ _ _, True) p m → installsOk (λ _ _, True) p m'.
Proof.
  intros Hg. destruct p as [r|e|X op k|X f k]; simpl; [done..| |].
  - intros Hp x m2 Hg2. apply Hp. by eapply grows_trans.
  - intros Hp m2 Hg2. apply Hp. by eapply grows_trans.
Qed.

Lemma installsOk_bind {A B : Type} (mid : A → Mem → Prop) (post : B → Mem → Prop)
    (p : Prog A) (k : A → Prog B) m :
  installsOk mid p m → (∀ r m', mid r m' → installsOk post (k r) m') →
  installsOk post (bind p k) m.
Proof.
  intros Hp Hk. revert m Hp. induction p as [r|e|X op k' IH|X f k' IH]; intros m Hp; simpl in *.
  - by apply Hk.
  - done.
  - intros x m' Hg. by apply IH, Hp.
  - intros m' Hg Hm'. destruct (Hp m' Hg Hm') as (? & ? & ?). split_and!; [done..|].
    by apply IH.
Qed.

Lemma installsOk_tryCatch {A : Type} (post : A → Mem → Prop)
    (p : Prog A) (h : string → Prog A) m :
  installsOk post p m → (∀ e m', installsOk post (h e) m') →
  installsOk post (tryCatch p h) m.
Proof.
  intros Hp Hh. revert m Hp. induction p as [r|e|X op k' IH|X f k' IH]; intros m Hp; simpl in *.
  - done.
  - apply Hh.
  - intros x m' Hg. by apply IH, Hp.
  - intros m' Hg Hm'. destruct (Hp m' Hg Hm') as (? & ? & ?). split_and!; [done..|].
    by apply IH.
Qed.

(** A synchronous stretch that touches neither the heap nor the callbacks. *)
Lemma installsOk_quiet {X : Type} (f : Mem → X * Mem) m :
  (∀ m', calm m' (f m').2) → installsOk (λ _ _, True) (sync f) m.
Proof.
  intros Hf m' _ Hm'. destruct (Hf m') as [Hg ?]. split_and!; [|done..].
  by apply (calm_handlersOk m').
Qed.

Lemma installsOk_awaitReply {X : Type} (op : Op (Reply X)) m :
  installsOk (λ _ _, True) (awaitReply op) m.
Proof. by intros [?|?] m' _. Qed.

Lemma installsOk_discoverEntryPoint dir m :
  installsOk (λ _ _, True) (discoverEntryPoint dir) m.
Proof.
  unfold discoverEntryPoint, mbind, prog_bind. apply (installsOk_bind (λ _ _, True)).
  - revert m. induction candidates as [|c cs IH]; intros m; [done|].
    simpl. intros [] m' _; [done|apply IH].
  - intros [e|] m' _; [done|]. unfold findMain. simpl. intros [] m2 _; [|done].
    simpl. by intros [?|[?|]] m3 _.
Qed.

Lemma entryOf_registerEntry id cid m :
  entryOf (registerEntry id cid m).2 (registerEntry id cid m).1 cid.
Proof. eexists. split; [simpl; by rewrite list_lookup_middle|done]. Qed.

Lemma calm_registerEntry id cid m : calm m (registerEntry id cid m).2.
Proof.
  split; [|done]. intros l c (e & He & Hc). exists e. split; [|done].
  simpl. by apply lookup_app_l_Some.
Qed.

Lemma handlersOk_install cid l id m :
  entryOf m l cid → handlersOk m →
  handlersOk (setDataHandlers (λ hs, hs ++ [(cid, l)]) m)
  ∧ handlersOk (setWaitHandlers (λ hs, hs ++ [(cid, (l, id))]) m).
Proof.
  intros He [Hd Hw]. split; (split; [intros c l0|intros c l0 id0]); simpl.
  - intros [Hin|[= -> ->]%list_elem_of_singleton]%elem_of_app; [by apply Hd|done].
  - apply Hw.
  - apply Hd.
  - intros [Hin|[= -> -> ->]%list_elem_of_singleton]%elem_of_app; [by eapply Hw|done].
Qed.

Lemma installsOk_launch IMG id dir entryPoint m :
  installsOk (λ _ _, True) (launch IMG id dir entryPoint) m.
Proof.
  unfold launch, mbind, prog_bind, update.
  apply (installsOk_bind (λ _ _, True)); [apply installsOk_awaitReply|]. intros cid m1 _.
  apply (installsOk_bind (λ _ _, True)); [apply installsOk_awaitReply|]. intros _ m2 _.
  apply (installsOk_bind (λ l m', entryOf m' l cid)).
  { intros m' _ Hm'. split_and!.
    - apply (calm_handlersOk m'); [apply calm_registerEntry|done].
    - apply calm_registerEntry.
    - apply entryOf_registerEntry. }
  intros l m3 Hl.
  simpl. intros [[]|e] m4 Hg4; [|done]. simpl.
  intros m5 Hg5 Hm5.
  assert (Hl5 : entryOf m5 l cid) by (by apply Hg5, Hg4).
  split_and!; [by apply (handlersOk_install cid l id)|by intros ? ? ?|].
  intros m6 Hg6 Hm6. split_and!; [|by intros ? ? ?|done].
  apply (handlersOk_install cid l id); [|done]. by apply Hg6.
Qed.

Lemma installsOk_startBot DATA_DIR IMG id m :
  installsOk (λ _ _, True) (startBot DATA_DIR IMG id) m.
Proof.
  unfold startBot, mbind, prog_bind, read.
  apply (installsOk_bind (λ _ _, True)); [by intros x m' _|].
  intros ex m1 _. destruct (negb ex); [done|].
  apply (installsOk_bind (λ _ _, True)).
  { apply installsOk_quiet. intros m'. apply calm_refl. }
  intros [cid|] m2 _; [done|].
  apply (installsOk_bind (λ _ _, True)); [apply installsOk_discoverEntryPoint|].
  intros [entryPoint|] m3 _; [|done]. apply installsOk_launch.
Qed.

Lemma installsOk_stopBot id m : installsOk (λ _ _, True) (stopBot id) m.
Proof.
  unfold stopBot, mbind, prog_bind, read, update. apply (installsOk_bind (λ _ _, True)).
  { apply installsOk_quiet. intros m'. apply calm_refl. }
  intros [cid|] m1 _; [|done].
  apply (installsOk_bind (λ _ _, True)).
  - apply installsOk_tryCatch; [apply installsOk_awaitReply|].
    intros e m'. apply installsOk_quiet. intros m2. by apply calm_same.
  - intros _ m2 _. apply installsOk_quiet. intros m3. by apply calm_same.
Qed.

Lemma installsOk_handler DATA_DIR IMG r m :
  installsOk (λ _ _, True) (handler DATA_DIR IMG r) m.
Proof.
  destruct r as [id|id|id]; unfold handler, postStart, postStop, postRestart, mbind, prog_bind;
    (apply installsOk_tryCatch; [|done]).
  - apply (installsOk_bind (λ _ _, True)); [apply installsOk_startBot|done].
  - apply (installsOk_bind (λ _ _, True)); [apply installsOk_stopBot|done].
  - apply (installsOk_bind (λ _ _, True)); [apply installsOk_stopBot|]. intros _ m1 _.
    apply (installsOk_bind (λ _ _, True)); [apply installsOk_startBot|done].
Qed.

Lemma runSync_installsOk {R : Type} (p : Prog R) m :
  installsOk (λ _ _, True) p m → handlersOk m →
  handlersOk (runSync p m).2 ∧ grows m (runSync p m).2
  ∧ installsOk (λ _ _, True) (runSync p m).1 (runSync p m).2.
Proof.
  revert m. induction p as [r|e|X op k IH|X f k IH]; intros m Hp Hm;
    [by split_and!; [|apply grows_refl|]..|].
  simpl. destruct (Hp m (grows_refl m) Hm) as (Hm1 & Hg1 & Hk).
  destruct (f m) as [x m1]. simpl in *.
  destruct (IH x m1 Hk Hm1) as (? & ? & ?). split_and!; [done| |done].
  by eapply grows_trans.
Qed.

(** ** Every event keeps the callbacks with their containers *)

Lemma handlersOk_step DATA_DIR IMG s ev :
  handlersOk (mem (world s)) ∧ Forall (λ p, installsOk (λ _ _, True) p (mem (world s))) (tasks s) →
  handlersOk (mem (world (step DATA_DIR IMG s ev)))
  ∧ Forall (λ p, installsOk (λ _ _, True) p (mem (world (step DATA_DIR IMG s ev))))
      (tasks (step DATA_DIR IMG s ev)).
Proof.
  intros [Hm Ht].
  assert (Hcalm : ∀ m', calm (mem (world s)) m' →
            handlersOk m' ∧ Forall (λ p, installsOk (λ _ _, True) p m') (tasks s)).
  { intros m' Hc. split; [by apply (calm_handlersOk (mem (world s)))|].
    eapply Forall_impl; [done|]. intros p. apply installsOk_mono, Hc. }
  destruct ev as [r|t ad|cid ts chunk|cid ts res|cid err|botId|ws|ws|fs']; simpl.
  - destruct (runSync_installsOk (handler DATA_DIR IMG r) (mem (world s)))
      as (Hm' & Hg & Hp); [apply installsOk_handler|done|].
    destruct (runSync _ _) as [p m]. simpl in *. split; [done|].
    apply Forall_app. split; [|by constructor].
    eapply Forall_impl; [done|]. intros q. by apply installsOk_mono.
  - destruct (tasks s !! t) as [[r|e|X op k|X f k]|] eqn:Etask; try done.
    pose proof (proj1 (Forall_lookup _ _) Ht t _ Etask) as Hk. simpl in Hk.
    pose proof (answer_mem op ad (world s)) as Hmem.
    destruct (answer op ad (world s)) as [x w']. simpl in Hmem.
    destruct (runSync_installsOk (k x) (mem w')) as (Hm' & Hg & Hp);
      [apply Hk; rewrite Hmem; apply grows_refl|by rewrite Hmem|].
    destruct (runSync _ _) as [p m]. simpl in *. split; [done|].
    apply Forall_insert; [|done].
    eapply Forall_impl; [done|]. intros q. apply installsOk_mono. by rewrite <- Hmem.
  - apply Hcalm. unfold fireData.
    apply (calm_fold (λ h, onData h.2 ts chunk) (λ h, h.1 = cid)).
    intros. apply calm_onData.
  - apply Hcalm. unfold fireExit.
    eapply calm_trans;
      [apply (calm_fold (λ h, onExited h.2.1 h.2.2 ts res) (λ h, h.1 = cid));
       intros; apply calm_onExited|].
    apply calm_same; [done..|]. simpl. intros h. by intros [_ ?]%list_elem_of_filter.
  - apply Hcalm. unfold fireWaitError.
    eapply calm_trans;
      [apply (calm_fold (λ _, setConsole (λ c, c ++ ["wait err " +:+ err]))
                (λ h : string * (nat * string), h.1 = cid));
       intros; by apply calm_same|].
    apply calm_same; [done..|]. simpl. intros h. by intros [_ ?]%list_elem_of_filter.
  - apply Hcalm, calm_onConnection.
  - apply Hcalm, calm_onClose.
  - apply Hcalm, calm_onBroken.
  - done.
Qed.

Lemma handlersOk_run DATA_DIR IMG disk evs :
  handlersOk (mem (world (run DATA_DIR IMG (boot disk) evs))).
Proof.
  assert (H : ∀ s, handlersOk (mem (world s))
                   ∧ Forall (λ p, installsOk (λ _ _, True) p (mem (world s))) (tasks s) →
              handlersOk (mem (world (run DATA_DIR IMG s evs)))).
  { induction evs as [|ev evs IH]; intros s Hs; [apply Hs|].
    simpl. by apply IH, handlersOk_step. }
  apply H. split; [|by apply Forall_nil].
  split; [by intros ? ? ?%elem_of_nil|by intros ? ? ? ?%elem_of_nil].
Qed.

(** ** What a chunk and an exit touch *)

Section Others.

Variable cid : string.
Variable l : nat.
Variable e : Entry.
Hypothesis Hother : container e ≠ Some cid.

Lemma other_push m l' e' msg after f :
  heap m !! l' = Some e' → container e' = Some cid → heap m !! l = Some e →
  heap (f (setHeap (<[l' := pushLog msg after e']>) m)) = <[l' := pushLog msg after e']> (heap m) →
  heap (f (setHeap (<[l' := pushLog msg after e']>) m)) !! l = Some e.
Proof using Hother.
  intros He' Hc He ->. rewrite list_lookup_insert_ne; [done|]. intros ->.
  rewrite He' in He. injection He as ->. by rewrite Hc in Hother.
Qed.

(** The callbacks of [cid] leave the entry objects of other containers as
    they are. *)
Lemma other_fold {H : Type} (F : H → Mem → Mem) (at_ : H → nat) (hs : list (string * H)) m :
  (∀ h m, calm m (F h m)) →
  (∀ h m e', heap m !! at_ h = Some e' → container e' = Some cid →
     heap m !! l = Some e → heap (F h m) !! l = Some e) →
  (∀ h m, heap m !! at_ h = None → heap (F h m) = heap m) →
  (∀ h, h ∈ hs → h.1 = cid → entryOf m (at_ h.2) cid) →
  heap m !! l = Some e →
  heap (foldl (λ m h, if decide (h.1 = cid) then F h.2 m else m) m hs) !! l = Some e.
Proof using Hother.
  intros Hcalm Hstep Hmiss. revert m. induction hs as [|h hs IH]; intros m Hhs He; [done|].
  simpl. apply IH.
  - intros h' Hin Hcid. destruct (decide (h.1 = cid)).
    + apply (Hcalm h.2 m). apply Hhs; [by apply list_elem_of_further|done].
    + apply Hhs; [by apply list_elem_of_further|done].
  - destruct (decide (h.1 = cid)) as [Hh|]; [|done].
    destruct (Hhs h (list_elem_of_here _ _) Hh) as (e' & He' & Hc'). by eapply Hstep.
Qed.

End Others.

(** X22.  The output of a container stays with the entry objects of that
    container, whatever has happened since the server came up: a chunk of the
    log stream of a container, and the exit line of a container, leave the
    entry objects of every other container as they are, log buffer and
    listeners included.  (The callbacks close over the entry object that was
    made for their container; restarts and requests in flight do not change
    that.) *)
Theorem output_stays_with_its_container DATA_DIR IMG disk evs cid ts text l e :
  let s := run DATA_DIR IMG (boot disk) evs in
  heap (mem (world s)) !! l = Some e → container e ≠ Some cid →
  heap (mem (world (step DATA_DIR IMG s (Chunk cid ts text)))) !! l = Some e
  ∧ heap (mem (world (step DATA_DIR IMG s (Exits cid ts text)))) !! l = Some e.
Proof.
  intros s He Hother.
  destruct (handlersOk_run DATA_DIR IMG disk evs) as [Hdata Hwait]. fold s in Hdata, Hwait.
  split; simpl.
  - unfold fireData.
    apply (other_fold cid l e Hother (λ l', onData l' ts text) (λ l', l')); [| | | |done].
    + intros. apply calm_onData.
    + intros l' m e' He' Hc' Hl. unfold onData. rewrite He'.
      by apply (other_push cid l e Hother m l' e').
    + intros l' m Hnone. unfold onData. by rewrite Hnone.
    + intros [c l'] Hin Hc. simpl in *. subst c. by apply Hdata.
  - unfold fireExit. simpl.
    apply (other_fold cid l e Hother (λ h, onExited h.1 h.2 ts text) (λ h, h.1)); [| | | |done].
    + intros. apply calm_onExited.
    + intros [l' id] m e' He' Hc' Hl. unfold onExited. simpl in *. rewrite He'.
      by apply (other_push cid l e Hother m l' e' _ _ (λ m, setBots (delete id) (setSockets _ m))).
    + intros [l' id] m Hnone. unfold onExited. simpl in *. by rewrite Hnone.
    + intros [c [l' id]] Hin Hc. simpl in *. subst c. by eapply Hwait.
Qed.

Lemma output_stays_with_its_container_witness :
  let pre := [Incoming (Start "b1"); Settle 0 (grants "c1"); Settle 0 (grants "c1");
              Settle 0 (grants "c1"); Settle 0 (grants "c1"); Settle 0 (grants "c1");
              Incoming (Start "b3"); Settle 1 (grants "c3"); Settle 1 (grants "c3");
              Settle 1 (grants "c3"); Settle 1 (grants "c3"); Settle 1 (grants "c3");
              Settle 1 (grants "c3"); Settle 1 (grants "c3"); Settle 1 (grants "c3");
              Settle 1 (grants "c3")] in
  let s := run "/srv/data/bots" None (boot sampleDisk) pre in
  runningContainer (mem (world s)) "b3" = Some "c3"
  ∧ heap (mem (world (step "/srv/data/bots" None s (Chunk "c3" "t1" "hello")))) !! 0
    = Some (mkEntry (Some "c1") [] ∅ []).
Proof.
  intros pre s. split; [reflexivity|].
  apply (output_stays_with_its_container "/srv/data/bots" None sampleDisk pre
           "c3" "t1" "hello" 0 (mkEntry (Some "c1") [] ∅ [])); [reflexivity|discriminate].
Defined.

End Isolation.
